(** * DistilRoBERTa with interchange interventions and distillation losses

    A shallow embedding of [distillation/models/modeling_distilroberta.py]:
    head pruning, the sinusoidal position table, the activation interchange
    of [Transformer.forward], the input check of [DistilRobertaModel.forward]
    and the loss composition of [DistilRobertaForMaskedLM.forward].

    Tensors are nested lists; tensor entries are real numbers (the exact
    arithmetic the floating-point kernels approximate).  Python exceptions
    are the left summand of [result]. *)

From Stdlib Require Import ZArith Reals Lra Lia.
From stdpp Require Import gmap strings list.

(** ** Python exceptions and the error monad *)

Inductive exn : Type :=
  | ZeroDivisionError
  | IndexError
  | KeyError
  | TypeError
  | AttributeError
  | AssertionError
  | RuntimeError
  | ValueError (msg : string).

Definition result (A : Type) : Type := exn + A.

Definition ret {A} (a : A) : result A := inr a.
Definition raise {A} (e : exn) : result A := inl e.

Definition bind {A B} (k : A → result B) (r : result A) : result B :=
  match r with
  | inl e => inl e
  | inr a => k a
  end.

#[global] Instance result_ret : MRet result := @ret.
#[global] Instance result_bind : MBind result := @bind.
#[global] Instance result_fmap : FMap result :=
  λ A B (f : A → B) (r : result A), bind (λ a, ret (f a)) r.

(** [assert c] of Python. *)
Definition assert (c : bool) : result unit :=
  if c then ret tt else raise AssertionError.

(** [a // b] on non-negative integers. *)
Definition floordiv (a b : nat) : result nat :=
  if decide (b = 0) then raise ZeroDivisionError else ret (a / b).

(** ** Head pruning: [MultiHeadSelfAttention.prune_heads] *)

Module Prune.

(** An [nn.Linear] layer, by the shape of its weight
    [(out_features, in_features)]. *)
Record Linear : Type := mkLinear {
  in_features : nat;
  out_features : nat
}.

Record MultiHeadSelfAttention : Type := mkAttention {
  num_attention_heads : nat;
  dim : nat;
  q_lin : Linear;
  k_lin : Linear;
  v_lin : Linear;
  out_lin : Linear;
  pruned_heads : gset nat
}.

(** [MultiHeadSelfAttention.__init__]: the assertion
    [self.dim % self.num_attention_heads == 0] divides by zero for a
    configuration without heads. *)
Definition init (hidden_size heads : nat) : result MultiHeadSelfAttention :=
  if decide (heads = 0) then raise ZeroDivisionError
  else
    _ ← assert (bool_decide (hidden_size mod heads = 0));
    ret {| num_attention_heads := heads;
           dim := hidden_size;
           q_lin := mkLinear hidden_size hidden_size;
           k_lin := mkLinear hidden_size hidden_size;
           v_lin := mkLinear hidden_size hidden_size;
           out_lin := mkLinear hidden_size hidden_size;
           pruned_heads := ∅ |}.

(** [sum(1 if h < head else 0 for h in already_pruned_heads)] *)
Definition pruned_before (already_pruned_heads : gset nat) (head : nat) : nat :=
  sum_list ((λ h, if decide (h < head) then 1 else 0) <$> elements already_pruned_heads).

(** One turn of the loop of [find_pruneable_heads_and_indices]:
    [head = head - sum(...); mask[head] = 0].  The mask is a tensor of
    [n_heads] rows of [head_size] entries; a row index past the end is an
    [IndexError]. *)
Definition mask_out (head_size : nat) (already_pruned_heads : gset nat)
    (mask : result (list (list bool))) (head : nat) : result (list (list bool)) :=
  m ← mask;
  let head := head - pruned_before already_pruned_heads head in
  if decide (head < length m) then ret (<[head := replicate head_size false]> m)
  else raise IndexError.

(** [torch.arange(len(mask))[mask]] *)
Definition masked_arange (mask : list bool) : list nat :=
  (filter (λ p, p.2 = true) (zip (seq 0 (length mask)) mask)).*1.

(** [transformers.modeling_utils.find_pruneable_heads_and_indices] *)
Definition find_pruneable_heads_and_indices (heads : list nat) (n_heads head_size : nat)
    (already_pruned_heads : gset nat) : result (gset nat * list nat) :=
  let mask := replicate n_heads (replicate head_size true) in
  let heads : gset nat := list_to_set heads ∖ already_pruned_heads in
  mask ← foldl (mask_out head_size already_pruned_heads) (ret mask) (elements heads);
  let mask := mjoin mask in
  ret (heads, masked_arange mask).

(** [transformers.modeling_utils.prune_linear_layer], on shapes:
    [layer.weight.index_select(dim, index)] needs every index inside the
    dimension it selects from, and the new layer has [len(index)] features
    along that dimension. *)
Definition prune_linear_layer (layer : Linear) (index : list nat) (d : nat) : result Linear :=
  match d with
  | 0 =>
      if decide (Forall (λ i, i < out_features layer) index)
      then ret (mkLinear (in_features layer) (length index))
      else raise IndexError
  | _ =>
      if decide (Forall (λ i, i < in_features layer) index)
      then ret (mkLinear (length index) (out_features layer))
      else raise IndexError
  end.

Definition prune_heads (heads : list nat) (self : MultiHeadSelfAttention)
    : result MultiHeadSelfAttention :=
  attention_head_size ← floordiv (dim self) (num_attention_heads self);
  if decide (length heads = 0) then ret self
  else
    '(heads, index) ← find_pruneable_heads_and_indices heads
          (num_attention_heads self) attention_head_size (pruned_heads self);
    q ← prune_linear_layer (q_lin self) index 0;
    k ← prune_linear_layer (k_lin self) index 0;
    v ← prune_linear_layer (v_lin self) index 0;
    o ← prune_linear_layer (out_lin self) index 1;
    let n := num_attention_heads self - size heads in
    ret {| num_attention_heads := n;
           dim := attention_head_size * n;
           q_lin := q; k_lin := k; v_lin := v; out_lin := o;
           pruned_heads := pruned_heads self ∪ heads |}.

(** The invariant of an attention module that [__init__] establishes and
    [prune_heads] keeps: heads are numbered as at construction, so the
    module started with [num_attention_heads + |pruned_heads|] heads. *)
Record wf (m : MultiHeadSelfAttention) : Prop := {
  wf_div : dim m mod num_attention_heads m = 0;
  wf_q : out_features (q_lin m) = dim m;
  wf_k : out_features (k_lin m) = dim m;
  wf_v : out_features (v_lin m) = dim m;
  wf_o : in_features (out_lin m) = dim m;
  wf_pruned : ∀ p, p ∈ pruned_heads m → p < num_attention_heads m + size (pruned_heads m)
}.

(** Head indices the module knows, in the numbering of its construction. *)
Definition valid_heads (m : MultiHeadSelfAttention) (heads : list nat) : Prop :=
  ∀ h, h ∈ heads → h < num_attention_heads m + size (pruned_heads m).

End Prune.

(** ** Shapes and broadcasting of nested-list tensors *)

(** A tensor of size [k] along one dimension stands for [n] entries when
    [k = n], or when [k = 1] (broadcasting); any other size is the
    "shape mismatch" [RuntimeError]. *)
Definition broadcast_to {X} (n : nat) (l : list X) : result (list X) :=
  if decide (length l = n) then ret l
  else match l with
       | [x] => ret (replicate n x)
       | _ => raise RuntimeError
       end.

(** [l[0::2]] is [stride true l], [l[1::2]] is [stride false l]. *)
Fixpoint stride {X} (now : bool) (l : list X) : list X :=
  match l with
  | [] => []
  | x :: l => if now then x :: stride false l else stride true l
  end.

(** [l[0::2] = vals] is [assign_stride true l vals], [l[1::2] = vals] is
    [assign_stride false l vals], for [vals] of the length of the slice. *)
Fixpoint assign_stride {X} (now : bool) (l vals : list X) : list X :=
  match l with
  | [] => []
  | x :: l =>
      if now then
        match vals with
        | v :: vals => v :: assign_stride false l vals
        | [] => x :: l
        end
      else x :: assign_stride true l vals
  end.

(** ** The sinusoidal position table: [_create_sinusoidal_embeddings] *)

Module Sinusoid.

Local Open Scope R_scope.

(** The weight of the position embedding: its entries and the flag that
    puts it under gradient updates. *)
Record weight : Type := mkWeight {
  data : list (list R);
  requires_grad : bool
}.

(** [pos / np.power(10000, 2 * (j // 2) / dim)] *)
Definition angle (dim pos j : nat) : R :=
  INR pos / Rpower 10000 (2 * INR (j / 2) / INR dim).

(** [np.array([[... for j in range(dim)] for pos in range(n_pos)])] *)
Definition position_enc (n_pos dim : nat) : list (list R) :=
  (λ pos, angle dim pos <$> seq 0 dim) <$> seq 0 n_pos.

(** [out[:, k::2] = src]: the rows of [src] are broadcast to the rows of
    [out], and each row of [src] to the strided slice of its row. *)
Definition assign_columns (now : bool) (out src : list (list R)) : result (list (list R)) :=
  src ← broadcast_to (length out) src;
  mapM (λ p : list R * list R,
          vals ← broadcast_to (length (stride now p.1)) p.2;
          ret (assign_stride now p.1 vals))
       (zip out src).

(** An empty list of rows makes [np.array] one-dimensional, and indexing
    it with [[:, 0::2]] is an [IndexError]. *)
Definition _create_sinusoidal_embeddings (n_pos dim : nat) (out : weight) : result weight :=
  let position_enc := position_enc n_pos dim in
  let out := {| data := data out; requires_grad := false |} in
  _ ← (if decide (n_pos = 0%nat) then raise IndexError else ret tt);
  d ← assign_columns true (data out) ((λ row, sin <$> stride true row) <$> position_enc);
  d ← assign_columns false d ((λ row, cos <$> stride false row) <$> position_enc);
  ret {| data := d; requires_grad := requires_grad out |}.

End Sinusoid.

(** [for x in l: s = f(s, x)] where [f] may raise. *)
Fixpoint foldM {S X} (f : S → X → result S) (s : S) (l : list X) : result S :=
  match l with
  | [] => ret s
  | x :: l => s ← f s x; foldM f s l
  end.

(** The entries of [l] at the positions [m] marks, in order. *)
Definition select {X} (m : list bool) (l : list X) : list X :=
  (filter (λ p, p.2 = true) (zip l m)).*1.

(** ** The encoder: [Transformer.forward] and [DistilRobertaModel.forward] *)

Module Encoder.

(** The [slice] object of a variable; both bounds are integers. *)
Record py_slice : Type := mkSlice {
  start : Z;
  stop : Z
}.

(** A variable of the interchange: the key of the donor activations in
    [interchanged_variables], a head index, and offsets inside the head. *)
Abbreviation variable := (nat * Z * py_slice)%type.

(** [variable_names]: the string ["embeddings"], or a dict from layer
    index to the variables to interchange after that layer. *)
Inductive names : Type :=
  | Embeddings
  | Layers (d : gmap nat (list variable)).

(** A mask over the positions [(bs, seq_length)]. *)
Abbreviation mask := (list (list bool)).

(** Bounds of [row[a:b]] for a row of [n] entries: a negative bound
    counts from the end, and both are cut to [0 .. n]. *)
Definition slice_bounds (n : nat) (a b : Z) : nat * nat :=
  let cut (i : Z) :=
    if decide (i < 0)%Z then Z.max (i + Z.of_nat n) 0 else Z.min i (Z.of_nat n) in
  (Z.to_nat (cut a), Z.to_nat (cut b)).

Definition slice_width (n : nat) (a b : Z) : nat :=
  (slice_bounds n a b).2 - (slice_bounds n a b).1.

(** [row[a:b] = vals], for [vals] of the width of the slice. *)
Definition slice_set {A} (row : list A) (a b : Z) (vals : list A) : list A :=
  let lo := (slice_bounds (length row) a b).1 in
  take lo row ++ vals ++ drop (lo + slice_width (length row) a b) row.

(** The rows of [rows] that [sel] marks get [vals], one each and in order,
    written into their columns [a:b]. *)
Fixpoint scatter {A} (a b : Z) (sel : list bool) (rows vals : list (list A)) : list (list A) :=
  match sel, rows with
  | true :: sel, r :: rows =>
      match vals with
      | v :: vals => slice_set r a b v :: scatter a b sel rows vals
      | [] => r :: rows
      end
  | false :: sel, r :: rows => r :: scatter a b sel rows vals
  | _, _ => rows
  end.

Section Model.

(** Entries of a tensor, attention weights of one block, and the entry of
    the head mask a block receives. *)
Context {A W HM : Type}.

(** A tensor [(bs, seq_length, dim)]. *)
Local Abbreviation tensor := (list (list (list A))).

(** A boolean mask indexes the two leading dimensions, which it must
    match in shape. *)
Definition same_shape (m : mask) (t : tensor) : Prop :=
  length m = length t ∧ Forall2 (λ r s, length r = length s) m t.

(** [t[m]]: the selected positions as rows, in row-major order. *)
Definition index_mask (t : tensor) (m : mask) : result (list (list A)) :=
  if decide (same_shape m t) then ret (select (mjoin m) (mjoin t))
  else raise IndexError.

(** [t[..., a:b][m] = v]: [v] is broadcast to the selected rows and to the
    width of the slice, then written in place. *)
Definition index_put (t : tensor) (a b : Z) (m : mask) (v : list (list A)) : result tensor :=
  if decide (same_shape m t) then
    let dst := select (mjoin m) (mjoin t) in
    v ← broadcast_to (length dst) v;
    v ← mapM (λ p : list A * list A, broadcast_to (slice_width (length p.1) a b) p.2) (zip dst v);
    ret (reshape (length <$> t) (scatter a b (mjoin m) (mjoin t) v))
  else raise IndexError.

(** The body of the loop over [variable_names[i]]. *)
Definition interchange (head_dimension : nat) (interchanged_variables : gmap nat tensor)
    (interchange_mask dual_interchange_mask : mask)
    (hidden_state : tensor) (interchanged_variable : variable) : result tensor :=
  let '(key, head, offsets) := interchanged_variable in
  interchanged_activations ←
    from_option ret (raise KeyError) (interchanged_variables !! key);
  let start_index := (head * Z.of_nat head_dimension + start offsets)%Z in
  let stop_index := (start_index + stop offsets)%Z in
  replacing_activations ← index_mask interchanged_activations dual_interchange_mask;
  index_put hidden_state start_index stop_index interchange_mask replacing_activations.

(** A [TransformerBlock] applied to the hidden state, the attention mask
    and its entry of the head mask: attention weights and output. *)
Definition block : Type := tensor → mask → HM → W * tensor.

Record Transformer : Type := mkTransformer {
  layer : list block;
  head_dimension : nat
}.

Record BaseModelOutput : Type := mkOutput {
  last_hidden_state : tensor;
  hidden_states : option (list tensor);
  attentions : option (list W)
}.

Record interchange_args : Type := mkArgs {
  interchanged_variables : option (gmap nat tensor);
  variable_names : option names;
  interchange_mask : mask;
  dual_interchange_mask : mask
}.

(** Running state of the loop: [hidden_state], [all_hidden_states],
    [all_attentions]. *)
Definition loop_state : Type := tensor * option (list tensor) * option (list W).

(** One turn of [for i, layer_module in enumerate(self.layer)]. *)
Definition layer_step (self : Transformer) (attn_mask : mask) (head_mask : nat → HM)
    (output_attentions output_hidden_states : bool) (args : interchange_args)
    (st : loop_state) (il : nat * block) : result loop_state :=
  let '(hidden_state, all_hidden_states, all_attentions) := st in
  let '(i, layer_module) := il in
  let all_hidden_states :=
    if output_hidden_states then (λ l, l ++ [hidden_state]) <$> all_hidden_states
    else all_hidden_states in
  let layer_outputs := layer_module hidden_state attn_mask (head_mask i) in
  let hidden_state := layer_outputs.2 in
  hidden_state ←
    match variable_names args with
    | Some (Layers d) =>
        match d !! i with
        | Some variables =>
            ivs ← from_option ret (raise AssertionError) (interchanged_variables args);
            foldM (interchange (head_dimension self) ivs
                     (interchange_mask args) (dual_interchange_mask args))
                  hidden_state variables
        | None => ret hidden_state
        end
    | _ => ret hidden_state
    end;
  let all_attentions :=
    if output_attentions then (λ l, l ++ [layer_outputs.1]) <$> all_attentions
    else all_attentions in
  ret (hidden_state, all_hidden_states, all_attentions).

(** [Transformer.forward].  With [return_dict] unset the same three values
    are returned as the tuple of those that are not [None]. *)
Definition transformer_forward (self : Transformer) (x : tensor) (attn_mask : mask)
    (head_mask : nat → HM) (output_attentions output_hidden_states : bool)
    (args : interchange_args) : result BaseModelOutput :=
  let all_hidden_states := if output_hidden_states then Some [] else None in
  let all_attentions := if output_attentions then Some [] else None in
  '(hidden_state, all_hidden_states, all_attentions) ←
    foldM (layer_step self attn_mask head_mask output_attentions output_hidden_states args)
          (x, all_hidden_states, all_attentions)
          (zip (seq 0 (length (layer self))) (layer self));
  let all_hidden_states :=
    if output_hidden_states then (λ l, l ++ [hidden_state]) <$> all_hidden_states
    else all_hidden_states in
  ret {| last_hidden_state := hidden_state;
         hidden_states := all_hidden_states;
         attentions := all_attentions |}.

(** The encoder: the embedding layer, [get_head_mask] of the base class
    already applied to the configured number of layers, the stack of
    blocks, and the output flags of the configuration. *)
Record DistilRobertaModel : Type := mkModel {
  embeddings : list (list Z) → tensor;
  get_head_mask : option (list HM) → nat → HM;
  transformer : Transformer;
  config_output_attentions : bool;
  config_output_hidden_states : bool
}.

(** [DistilRobertaModel.forward] *)
Definition model_forward (self : DistilRobertaModel)
    (input_ids : option (list (list Z))) (attention_mask : option mask)
    (head_mask : option (list HM)) (inputs_embeds : option tensor)
    (output_attentions output_hidden_states : option bool)
    (args : interchange_args) : result BaseModelOutput :=
  let output_attentions := default (config_output_attentions self) output_attentions in
  let output_hidden_states := default (config_output_hidden_states self) output_hidden_states in
  input_shape ←
    match input_ids, inputs_embeds with
    | Some _, Some _ =>
        raise (ValueError "You cannot specify both input_ids and inputs_embeds at the same time")
    | Some ids, None => ret (length <$> ids)
    | None, Some embeds => ret (length <$> embeds)
    | None, None =>
        raise (ValueError "You have to specify either input_ids or inputs_embeds")
    end;
  let attention_mask :=
    default ((λ n, replicate n true) <$> input_shape) attention_mask in
  let head_mask := get_head_mask self head_mask in
  let inputs_embeds :=
    match inputs_embeds, input_ids with
    | Some embeds, _ => embeds
    | None, Some ids => embeddings self ids
    | None, None => []
    end in
  transformer_forward (transformer self) inputs_embeds attention_mask head_mask
    output_attentions output_hidden_states args.

End Model.

End Encoder.

(** ** The masked-LM head and the distillation losses:
    [DistilRobertaForMaskedLM.forward] *)

#[global] Instance Rlt_decision (x y : R) : Decision (x < y)%R := Rlt_dec x y.

Module Loss.

Local Open Scope R_scope.

(** A loss value.  Every mean divides a sum over [n] rows by [n]; over no
    rows this is zero divided by zero, the floating-point NaN. *)
Inductive scalar : Type :=
  | Num (r : R)
  | NaN.

Definition div_count (total : R) (n : nat) : scalar :=
  if decide (n = 0%nat) then NaN else Num (total / INR n).

Definition scale (s : scalar) (c : R) : scalar :=
  match s with
  | Num r => Num (r * c)
  | NaN => NaN
  end.

Definition sum_R (l : list R) : R := foldr Rplus 0 l.

(** [nn.functional.softmax(x, dim=-1)] and [log_softmax], on one row. *)
Definition softmax (x : list R) : list R :=
  (λ xi, exp xi / sum_R (exp <$> x)) <$> x.

Definition log_softmax (x : list R) : list R :=
  (λ xi, xi - ln (sum_R (exp <$> x))) <$> x.

(** [nn.KLDivLoss(reduction="batchmean")]: the pointwise terms
    [target * (log target - input)], summed over all entries and divided
    by the number of rows of the input. *)
Definition kl_pointwise (x y : R) : R := y * (ln y - x).

Definition ce_loss_fct (input target : list (list R)) : scalar :=
  div_count (sum_R (zip_with (λ xr yr, sum_R (zip_with kl_pointwise xr yr)) input target))
            (length input).

(** [nn.CrossEntropyLoss(ignore_index=-100)], which is also the default of
    [nn.CrossEntropyLoss()]: the mean, over the rows whose target is not
    ignored, of minus the log-probability of the target class. *)
Definition nll_row (row : list R) (t : Z) : result (option R) :=
  if decide (t = -100)%Z then ret None
  else if decide (0 ≤ t < Z.of_nat (length row))%Z
       then ret (Some (- default 0 (log_softmax row !! Z.to_nat t)))
       else raise IndexError.

Definition lm_loss_fct (input : list (list R)) (target : list Z) : result scalar :=
  if decide (length input = length target) then
    terms ← mapM (λ p : list R * Z, nll_row p.1 p.2) (zip input target);
    let kept : list R := omap (λ o : option R, o) terms in
    ret (div_count (sum_R kept) (length kept))
  else raise (ValueError "Expected input batch_size to match target batch_size").

(** [self.mlm_loss_fct = nn.CrossEntropyLoss()], with the same default
    [ignore_index]. *)
Definition mlm_loss_fct (input : list (list R)) (target : list Z) : result scalar :=
  lm_loss_fct input target.

(** [nn.MSELoss(reduction="sum")] *)
Definition mse_loss_fct (input target : list (list R)) : R :=
  sum_R (zip_with (λ xr yr, sum_R (zip_with (λ x y, (x - y) * (x - y)) xr yr)) input target).

(** A tensor [(bs, seq_length, features)] and a mask over its positions. *)
Abbreviation tensor := (list (list (list R))).
Abbreviation mask := (list (list bool)).

(** [t.size()], as the nested sizes of the lists. *)
Definition size (t : tensor) : list (list nat) :=
  (λ e : list (list R), length <$> e) <$> t.

(** [t.size(-1)] *)
Definition size_last (t : tensor) : nat :=
  match t with
  | (row :: _) :: _ => length row
  | _ => 0
  end.

(** [m.unsqueeze(-1).expand_as(t)], for a mask of the shape of the
    positions of [t]. *)
Definition expand_as (m : mask) (t : tensor) : result (list (list (list bool))) :=
  if decide (length m = length t ∧ Forall2 (λ r s, length r = length s) m t)
  then ret (zip_with (zip_with (λ b row, replicate (length row) b)) m t)
  else raise RuntimeError.

(** [torch.masked_select(t, m)]: the marked entries, flattened. *)
Definition masked_select (t : tensor) (m : list (list (list bool))) : list R :=
  select (mjoin (mjoin m)) (mjoin (mjoin t)).

(** [l.view(-1, n)] of a flat tensor. *)
Definition view (n : nat) (l : list R) : result (list (list R)) :=
  if decide (n = 0%nat) then raise RuntimeError
  else if decide (length l mod n = 0)%nat
       then ret (reshape (replicate (length l / n) n) l)
       else raise RuntimeError.

(** [torch.masked_select(t, mask).view(-1, n)] *)
Definition slct (t : tensor) (m : list (list (list bool))) (n : nat) : result (list (list R)) :=
  view n (masked_select t m).

(** The soft-target term:
    [ce_loss_fct(log_softmax(s / T), softmax(t / T)) * T ** 2]. *)
Definition soft_target (s_logits_slct t_logits_slct : list (list R)) (temperature : R) : scalar :=
  scale (ce_loss_fct
           ((λ row, log_softmax ((λ x, x / temperature) <$> row)) <$> s_logits_slct)
           ((λ row, softmax ((λ x, x / temperature) <$> row)) <$> t_logits_slct))
        (temperature * temperature).

(** The mask of the soft-target term: [lm_labels > -1] over the
    positions when [restrict_ce_to_mask] holds, else the attention mask. *)
Definition ce_mask (restrict_ce_to_mask : option bool) (lm_labels : option (list (list Z)))
    (attention_mask : option mask) : result mask :=
  if default false restrict_ce_to_mask then
    labels ← from_option ret (raise TypeError) lm_labels;
    ret ((λ e : list Z, (λ l, bool_decide (-1 < l)%Z) <$> e) <$> labels)
  else from_option ret (raise AttributeError) attention_mask.

(** Selection and soft-target loss, shared by the plain and the causal
    branch: the selected student and teacher rows and the loss. *)
Definition soft_target_block (restrict_ce_to_mask : option bool)
    (lm_labels : option (list (list Z))) (attention_mask : option mask)
    (s_logits t_logits : tensor) (temperature : option R)
    : result (list (list R) * list (list R) * scalar) :=
  m ← ce_mask restrict_ce_to_mask lm_labels attention_mask;
  m ← expand_as m s_logits;
  s_logits_slct ← slct s_logits m (size_last s_logits);
  t_logits_slct ← slct t_logits m (size_last s_logits);
  _ ← assert (bool_decide (length <$> t_logits_slct = length <$> s_logits_slct));
  temperature ← from_option ret (raise TypeError) temperature;
  ret (s_logits_slct, t_logits_slct, soft_target s_logits_slct t_logits_slct temperature).

(** The soft-target loss in the words of the specification, to compare
    with [soft_target_block]: over the positions the mask selects, the
    Kullback-Leibler divergence of the teacher distribution
    [softmax(t / T)] from the student log-distribution
    [log_softmax(s / T)], averaged over those positions and multiplied by
    the square of the temperature. *)
Definition kl_divergence (log_q p : list R) : R :=
  sum_R (zip_with (λ lq pi, pi * (ln pi - lq)) log_q p).

Definition spec_soft_target_loss (s_logits t_logits : tensor) (m : mask) (T : R) : scalar :=
  let s_rows := select (mjoin m) (mjoin s_logits) in
  let t_rows := select (mjoin m) (mjoin t_logits) in
  scale (div_count
           (sum_R (zip_with
                     (λ sp tp, kl_divergence (log_softmax ((λ x, x / T) <$> sp))
                                             (softmax ((λ x, x / T) <$> tp)))
                     s_rows t_rows))
           (length s_rows))
        (T * T).

(** The positions that carry a gold label. *)
Definition gold_mask (lm_labels : list (list Z)) : mask :=
  (λ e : list Z, (λ l, bool_decide (-1 < l)%Z) <$> e) <$> lm_labels.

(** [hs[-1]] of a tuple of hidden states. *)
Definition last_state (hs : list tensor) : result tensor :=
  from_option ret (raise IndexError) (last hs).

Section Forward.

Context {W HM : Type}.

Record DistilRobertaForMaskedLM : Type := mkMaskedLM {
  distilroberta : Encoder.DistilRobertaModel (A := R) (W := W) (HM := HM);
  (** [vocab_transform], [gelu], [vocab_layer_norm], [vocab_projector] *)
  prediction_head : tensor → tensor;
  (** [nn.CosineEmbeddingLoss(reduction="mean")] *)
  cosine_loss_fct : list (list R) → list (list R) → list R → scalar;
  config_use_return_dict : bool
}.

(** [MaskedLMOutput]: its four fields, and the keys later assignments
    [student_outputs[key] = value] add. *)
Record MaskedLMOutput : Type := mkLMOutput {
  loss : option scalar;
  logits : tensor;
  hidden_states : option (list tensor);
  attentions : option (list W);
  extra : gmap string scalar
}.

Definition set_item (key : string) (value : scalar) (o : MaskedLMOutput) : MaskedLMOutput :=
  {| loss := loss o; logits := logits o; hidden_states := hidden_states o;
     attentions := attentions o; extra := <[key := value]> (extra o) |}.

(** What [forward] returns: the tuple of the branch [not return_dict], or
    [student_outputs]. *)
Inductive output : Type :=
  | Tuple (mlm_loss : option scalar) (prediction_logits : tensor)
          (hidden_states : option (list tensor)) (attentions : option (list W))
  | Dict (student_outputs : MaskedLMOutput).

Record loss_args : Type := mkLossArgs {
  t_logits : option tensor;
  t_hidden_states : option (list tensor);
  causal_t_logits : option tensor;
  causal_t_hidden_states : option (list tensor);
  s_logits : option tensor;
  s_hidden_states : option (list tensor);
  temperature : option R;
  restrict_ce_to_mask : option bool;
  lm_labels : option (list (list Z));
  alpha_mlm : R;
  alpha_clm : R;
  alpha_mse : R;
  alpha_cos : R
}.

(** The cosine term on the last hidden states, shared by both branches. *)
Definition cosine_block (self : DistilRobertaForMaskedLM) (attention_mask : option mask)
    (s_hidden_states t_hidden_states : list tensor) : result scalar :=
  s_hidden_states ← last_state s_hidden_states;
  t_hidden_states ← last_state t_hidden_states;
  m ← from_option ret (raise AttributeError) attention_mask;
  m ← expand_as m s_hidden_states;
  _ ← assert (bool_decide (size s_hidden_states = size t_hidden_states));
  let dim := size_last s_hidden_states in
  s_hidden_states_slct ← slct s_hidden_states m dim;
  t_hidden_states_slct ← slct t_hidden_states m dim;
  let target := replicate (length s_hidden_states_slct) 1 in
  ret (cosine_loss_fct self s_hidden_states_slct t_hidden_states_slct target).

(** [t.view(-1, n)] of a tensor [(bs, seq_length, n)] *)
Definition rows (n : nat) (t : tensor) : result (list (list R)) :=
  view n (mjoin (mjoin t)).

(** The branch [causal_t_logits is None] with teacher logits. *)
Definition regular_losses (self : DistilRobertaForMaskedLM) (attention_mask : option mask)
    (a : loss_args) (t_logits : tensor) (student_outputs : MaskedLMOutput)
    : result MaskedLMOutput :=
  t_hidden_states ← from_option ret (raise AssertionError) (t_hidden_states a);
  let s_logits := logits student_outputs in
  s_hidden_states ← from_option ret (raise KeyError) (hidden_states student_outputs);
  _ ← assert (bool_decide (size s_logits = size t_logits));
  '(s_logits_slct, t_logits_slct, loss_ce) ←
    soft_target_block (restrict_ce_to_mask a) (lm_labels a) attention_mask
      s_logits t_logits (temperature a);
  let student_outputs := set_item "loss_ce" loss_ce student_outputs in
  student_outputs ←
    (if decide (0 < alpha_mlm a) then
       input ← rows (size_last s_logits) s_logits;
       labels ← from_option ret (raise AttributeError) (lm_labels a);
       loss_mlm ← lm_loss_fct input (mjoin labels);
       ret (set_item "loss_mlm" loss_mlm student_outputs)
     else ret student_outputs);
  student_outputs ←
    (if decide (0 < alpha_clm a) then
       labels ← from_option ret (raise TypeError) (lm_labels a);
       let shift_logits := (λ e : list (list R), removelast e) <$> s_logits in
       let shift_labels := (λ e : list Z, drop 1 e) <$> labels in
       (* slicing the positions keeps the last dimension of [s_logits] *)
       input ← rows (size_last s_logits) shift_logits;
       loss_clm ← lm_loss_fct input (mjoin shift_labels);
       ret (set_item "loss_mlm" loss_clm student_outputs)
     else ret student_outputs);
  let student_outputs :=
    if decide (0 < alpha_mse a) then
      let loss_mse :=
        div_count (mse_loss_fct s_logits_slct t_logits_slct) (length s_logits_slct) in
      set_item "loss_mse" loss_mse student_outputs
    else student_outputs in
  if decide (0 < alpha_cos a) then
    loss_cos ← cosine_block self attention_mask s_hidden_states t_hidden_states;
    ret (set_item "loss_cos" loss_cos student_outputs)
  else ret student_outputs.

(** The branch [causal_t_logits is not None]. *)
Definition causal_losses (self : DistilRobertaForMaskedLM) (attention_mask : option mask)
    (a : loss_args) (causal_t_logits : tensor) (student_outputs : MaskedLMOutput)
    : result MaskedLMOutput :=
  _ ← assert (bool_decide (is_Some (t_logits a)));
  _ ← assert (bool_decide (is_Some (t_hidden_states a)));
  _ ← assert (bool_decide (is_Some (s_logits a)));
  _ ← assert (bool_decide (is_Some (s_hidden_states a)));
  causal_t_hidden_states ← from_option ret (raise AssertionError) (causal_t_hidden_states a);
  let causal_s_logits := logits student_outputs in
  causal_s_hidden_states ← from_option ret (raise KeyError) (hidden_states student_outputs);
  _ ← assert (bool_decide (size causal_s_logits = size causal_t_logits));
  '(_, _, causal_loss_ce) ←
    soft_target_block (restrict_ce_to_mask a) (lm_labels a) attention_mask
      causal_s_logits causal_t_logits (temperature a);
  let student_outputs := set_item "causal_loss_ce" causal_loss_ce student_outputs in
  causal_loss_cos ←
    cosine_block self attention_mask causal_s_hidden_states causal_t_hidden_states;
  ret (set_item "causal_loss_cos" causal_loss_cos student_outputs).

(** The loss composition: everything [forward] does after the first
    construction of [student_outputs]. *)
Definition distillation_losses (self : DistilRobertaForMaskedLM) (attention_mask : option mask)
    (a : loss_args) (student_outputs : MaskedLMOutput) : result MaskedLMOutput :=
  match causal_t_logits a with
  | None =>
      match t_logits a with
      | Some t_logits => regular_losses self attention_mask a t_logits student_outputs
      | None => ret student_outputs
      end
  | Some causal_t_logits => causal_losses self attention_mask a causal_t_logits student_outputs
  end.

(** [DistilRobertaForMaskedLM.forward] *)
Definition forward (self : DistilRobertaForMaskedLM)
    (input_ids : option (list (list Z))) (attention_mask : option mask)
    (head_mask : option (list HM)) (inputs_embeds : option tensor)
    (labels : option (list (list Z)))
    (output_attentions output_hidden_states return_dict : option bool)
    (args : Encoder.interchange_args (A := R)) (a : loss_args) : result output :=
  let return_dict := default (config_use_return_dict self) return_dict in
  dlbrt_output ←
    Encoder.model_forward (distilroberta self) input_ids attention_mask head_mask
      inputs_embeds output_attentions output_hidden_states args;
  let hidden_states := Encoder.last_hidden_state dlbrt_output in
  let prediction_logits := prediction_head self hidden_states in
  mlm_loss ←
    match labels with
    | Some labels =>
        input ← rows (size_last prediction_logits) prediction_logits;
        Some <$> mlm_loss_fct input (mjoin labels)
    | None => ret None
    end;
  if negb return_dict then
    ret (Tuple mlm_loss prediction_logits
           (Encoder.hidden_states dlbrt_output) (Encoder.attentions dlbrt_output))
  else
    let student_outputs :=
      {| loss := mlm_loss;
         logits := prediction_logits;
         hidden_states := Encoder.hidden_states dlbrt_output;
         attentions := Encoder.attentions dlbrt_output;
         extra := ∅ |} in
    Dict <$> distillation_losses self attention_mask a student_outputs.

End Forward.

End Loss.

(** ** Small models and inputs for the examples *)

Module Toy.

(** Attention modules of 16 and 8 dimensions, as [__init__] builds them. *)
Definition four_heads : Prune.MultiHeadSelfAttention :=
  Prune.mkAttention 4 16 (Prune.mkLinear 16 16) (Prune.mkLinear 16 16)
    (Prune.mkLinear 16 16) (Prune.mkLinear 16 16) ∅.

Definition two_heads : Prune.MultiHeadSelfAttention :=
  Prune.mkAttention 2 8 (Prune.mkLinear 8 8) (Prune.mkLinear 8 8)
    (Prune.mkLinear 8 8) (Prune.mkLinear 8 8) ∅.

(** One block that returns its input, over two heads of two dimensions. *)
Definition one_block : Encoder.Transformer (A := nat) (W := unit) (HM := unit) :=
  {| Encoder.layer := [λ h _ _, (tt, h)]; Encoder.head_dimension := 2 |}.

(** An interchange after block 0 of the first head, with masks that
    select nothing. *)
Definition nothing_selected : Encoder.interchange_args (A := nat) :=
  {| Encoder.interchanged_variables := Some {[0 := [[[7; 8]]]]};
     Encoder.variable_names := Some (Encoder.Layers {[0 := [(0, 0%Z, Encoder.mkSlice 0 2)]]});
     Encoder.interchange_mask := [[false]];
     Encoder.dual_interchange_mask := [[false]] |}.

Definition toy_encoder : Encoder.DistilRobertaModel (A := R) (W := unit) (HM := unit) :=
  {| Encoder.embeddings := λ _, [[[1; 2]; [3; 4]]]%R;
     Encoder.get_head_mask := λ _ _, tt;
     Encoder.transformer :=
       {| Encoder.layer := [λ h _ _, (tt, h)]; Encoder.head_dimension := 1 |};
     Encoder.config_output_attentions := false;
     Encoder.config_output_hidden_states := false |}.

Definition toy_model : Loss.DistilRobertaForMaskedLM (W := unit) (HM := unit) :=
  {| Loss.distilroberta := toy_encoder;
     Loss.prediction_head := λ h, h;
     Loss.cosine_loss_fct := λ _ _ _, Loss.Num 0;
     Loss.config_use_return_dict := true |}.

(** Teacher logits and hidden states for one example of two positions,
    labels for both positions, and the weights of the two LM terms. *)
Definition toy_args (alpha_mlm alpha_clm : R) : Loss.loss_args :=
  {| Loss.t_logits := Some [[[1; 2]; [3; 4]]]%R;
     Loss.t_hidden_states := Some [[[[1; 2]; [3; 4]]]]%R;
     Loss.causal_t_logits := None;
     Loss.causal_t_hidden_states := None;
     Loss.s_logits := None;
     Loss.s_hidden_states := None;
     Loss.temperature := Some 1%R;
     Loss.restrict_ce_to_mask := None;
     Loss.lm_labels := Some [[0; 1]]%Z;
     Loss.alpha_mlm := alpha_mlm;
     Loss.alpha_clm := alpha_clm;
     Loss.alpha_mse := 0%R;
     Loss.alpha_cos := 0%R |}.

Definition toy_forward (alpha_mlm alpha_clm : R) : result Loss.output :=
  Loss.forward toy_model (Some [[5; 6]]%Z) (Some [[true; true]]) None None None
    None (Some true) None (Encoder.mkArgs None None [] []) (toy_args alpha_mlm alpha_clm).

End Toy.

(** ** Pruning the heads of a stack of blocks: [_prune_heads] *)

Module Stack.

Import Prune.

(** [nn.ModuleList.__getitem__] for an integer: the position of the
    module, counted from the end when the index is negative, or an
    [IndexError] outside [-len .. len - 1]. *)
Definition position (n : nat) (idx : Z) : option nat :=
  if decide (- Z.of_nat n ≤ idx < Z.of_nat n)%Z
  then Some (Z.to_nat (if decide (idx < 0)%Z then idx + Z.of_nat n else idx))
  else None.

Definition abs_index (n : nat) (idx : Z) : result nat :=
  from_option ret (raise IndexError) (position n idx).

(** One turn of the loop of [_prune_heads]:
    [self.transformer.layer[layer].attention.prune_heads(heads)].  The
    stack of blocks is given by the attention module of each block. *)
Definition prune_layer (layer : list MultiHeadSelfAttention) (item : Z * list nat)
    : result (list MultiHeadSelfAttention) :=
  i ← abs_index (length layer) item.1;
  attention ← from_option ret (raise IndexError) (layer !! i);
  attention ← prune_heads item.2 attention;
  ret (<[i := attention]> layer).

(** [DistilRobertaModel._prune_heads]; [heads_to_prune.items()] is the
    list of the entries of the dict, in the order of their insertion. *)
Definition _prune_heads (heads_to_prune : list (Z * list nat))
    (layer : list MultiHeadSelfAttention) : result (list MultiHeadSelfAttention) :=
  foldM prune_layer layer heads_to_prune.

(** The heads an entry list asks to prune in the block at position [i],
    in the order of the entries. *)
Definition calls_for (n i : nat) (heads_to_prune : list (Z * list nat)) : list (list nat) :=
  (filter (λ item : Z * list nat, position n item.1 = Some i) heads_to_prune).*2.

End Stack.

(** ** What the interchange leaves of a hidden state *)

Module Frame.
Import Encoder.

(** What an assignment to the columns [a:b] of a row leaves of the row:
    its length and every entry outside the slice; a row that is not
    selected is left as it is. *)
Definition kept {A} (a b : Z) (selected : bool) (r r' : list A) : Prop :=
  length r' = length r
  ∧ (selected = false → r' = r)
  ∧ ∀ c, ¬ ((slice_bounds (length r) a b).1 ≤ c < (slice_bounds (length r) a b).2) →
         r' !! c = r !! c.

(** The same without the slice. *)
Definition kept_row {A} (selected : bool) (r r' : list A) : Prop :=
  length r' = length r ∧ (selected = false → r' = r).

End Frame.

(** ** The embedding layer: [Embeddings.forward] *)

Module Embed.

Local Open Scope R_scope.

(** A tensor [(bs, seq_length, dim)]. *)
Abbreviation tensor := (list (list (list R))).

(** [nn.Embedding.forward] on indices [(bs, seq_length)]: the rows of the
    weight at the indices; an index outside [0 .. num_embeddings - 1] is
    an [IndexError]. *)
Definition embedding_row (weight : list (list R)) (i : Z) : result (list R) :=
  if decide (0 ≤ i)%Z then from_option ret (raise IndexError) (weight !! Z.to_nat i)
  else raise IndexError.

Definition embedding (weight : list (list R)) (ids : list (list Z)) : result tensor :=
  mapM (mapM (embedding_row weight)) ids.

(** Two operands of an operation along one dimension: entry by entry when
    the sizes agree, one entry against all when a size is 1, and the "size
    of tensor a must match the size of tensor b" [RuntimeError]
    otherwise. *)
Definition broadcast2 {X Y V} (f : X → Y → result V) (l : list X) (k : list Y)
    : result (list V) :=
  if decide (length l = length k) then mapM (λ p : X * Y, f p.1 p.2) (zip l k)
  else match l, k with
       | [x], _ => mapM (f x) k
       | _, [y] => mapM (λ x, f x y) l
       | _, _ => raise RuntimeError
       end.

(** [s + t] of two tensors of three dimensions. *)
Definition add (s t : tensor) : result tensor :=
  broadcast2 (broadcast2 (broadcast2 (λ x y : R, ret (x + y)))) s t.

(** [torch.arange(n)] *)
Definition arange (n : nat) : list Z := Z.of_nat <$> seq 0 n.

(** [ids.size(1)] of indices [(bs, seq_length)] with at least one row. *)
Definition size1 (ids : list (list Z)) : nat :=
  match ids with
  | row :: _ => length row
  | [] => 0
  end.

(** The embedding layer: the weights of its two [nn.Embedding], the
    modules [LayerNorm] and [dropout], and the buffer [position_ids] of
    shape [(1, max_position_embeddings)] that [__init__] registers under a
    torch later than 1.6.0. *)
Record Embeddings : Type := mkEmbeddings {
  word_embeddings : list (list R);
  position_embeddings : Sinusoid.weight;
  LayerNorm : tensor → tensor;
  dropout : tensor → tensor;
  position_ids : option (list (list Z))
}.

(** [Embeddings.forward] *)
Definition forward (self : Embeddings) (input_ids : list (list Z)) : result tensor :=
  let seq_length := size1 input_ids in
  let position_ids :=
    match position_ids self with
    | Some buffer => (λ row : list Z, take seq_length row) <$> buffer
    | None => (λ _ : list Z, arange seq_length) <$> input_ids
    end in
  word_embeddings ← embedding (word_embeddings self) input_ids;
  position_embeddings ← embedding (Sinusoid.data (position_embeddings self)) position_ids;
  embeddings ← add word_embeddings position_embeddings;
  let embeddings := LayerNorm self embeddings in
  let embeddings := dropout self embeddings in
  ret embeddings.

End Embed.

(** ** Resizing the position table: [resize_position_embeddings] *)

Module Resize.

Import Embed.

(** The entries of the configuration the method reads and writes. *)
Record Config : Type := mkConfig {
  max_position_embeddings : Z;
  hidden_size : nat;
  sinusoidal_pos_embds : bool
}.

Record DistilRobertaModel : Type := mkModel {
  config : Config;
  embeddings : Embeddings
}.

(** A table of [n] rows of [d] entries drawn at random: [init i j] is the
    draw for the entry [(i, j)]. *)
Definition drawn (init : nat → nat → R) (n d : nat) : list (list R) :=
  (λ i, init i <$> seq 0 d) <$> seq 0 n.

(** [nn.Embedding(num_embeddings, embedding_dim)]: a weight of that shape
    under gradient updates, with entries drawn at random; a negative size
    is the "negative dimension" [RuntimeError]. *)
Definition new_embedding (init : nat → nat → R) (num_embeddings : Z) (embedding_dim : nat)
    : result Sinusoid.weight :=
  if decide (num_embeddings < 0)%Z then raise RuntimeError
  else ret {| Sinusoid.data := drawn init (Z.to_nat num_embeddings) embedding_dim;
              Sinusoid.requires_grad := true |}.

(** [weight[a:b] = src] on the rows of a weight: [src] is broadcast to the
    rows of the slice and to the width of each. *)
Definition assign_rows (weight : list (list R)) (a b : Z) (src : list (list R))
    : result (list (list R)) :=
  let bounds := Encoder.slice_bounds (length weight) a b in
  let dst := take (bounds.2 - bounds.1) (drop bounds.1 weight) in
  src ← broadcast_to (length dst) src;
  src ← mapM (λ p : list R * list R, broadcast_to (length p.1) p.2) (zip dst src);
  ret (Encoder.slice_set weight a b src).

Definition set_max (new : Z) (self : DistilRobertaModel) : DistilRobertaModel :=
  {| config := {| max_position_embeddings := new;
                  hidden_size := hidden_size (config self);
                  sinusoidal_pos_embds := sinusoidal_pos_embds (config self) |};
     embeddings := embeddings self |}.

Definition set_position_embeddings (w : Sinusoid.weight) (self : DistilRobertaModel)
    : DistilRobertaModel :=
  {| config := config self;
     embeddings := {| word_embeddings := word_embeddings (embeddings self);
                      position_embeddings := w;
                      LayerNorm := LayerNorm (embeddings self);
                      dropout := dropout (embeddings self);
                      position_ids := position_ids (embeddings self) |} |}.

(** [DistilRobertaModel.resize_position_embeddings]: the model as the call
    leaves it, and the exception that ended the call, if any.  The argument
    of [create_sinusoidal_embeddings] is [self.position_embeddings.weight],
    and the model has no attribute [position_embeddings] (the table is
    [self.embeddings.position_embeddings]): evaluating it is an
    [AttributeError]. *)
Definition resize_position_embeddings (init : nat → nat → R)
    (new_num_position_embeddings : Z) (self : DistilRobertaModel)
    : DistilRobertaModel * option exn :=
  let num_position_embeds_diff :=
    (new_num_position_embeddings - max_position_embeddings (config self))%Z in
  if decide (num_position_embeds_diff = 0)%Z then (self, None)
  else
    let self := set_max new_num_position_embeddings self in
    let old_position_embeddings_weight :=
      Sinusoid.data (position_embeddings (embeddings self)) in
    match new_embedding init (max_position_embeddings (config self))
            (hidden_size (config self)) with
    | inl e => (self, Some e)
    | inr fresh =>
        let self := set_position_embeddings fresh self in
        if sinusoidal_pos_embds (config self) then (self, Some AttributeError)
        else if decide (0 < num_position_embeds_diff)%Z then
          match assign_rows (Sinusoid.data fresh) 0 (- num_position_embeds_diff)
                  old_position_embeddings_weight with
          | inl e => (self, Some e)
          | inr d =>
              (set_position_embeddings
                 {| Sinusoid.data := d;
                    Sinusoid.requires_grad := Sinusoid.requires_grad fresh |} self,
               None)
          end
        else
          let bounds :=
            Encoder.slice_bounds (length old_position_embeddings_weight) 0
              num_position_embeds_diff in
          (set_position_embeddings
             {| Sinusoid.data :=
                  take (bounds.2 - bounds.1) (drop bounds.1 old_position_embeddings_weight);
                Sinusoid.requires_grad := true |} self,
           None)
    end.

(** The state the constructor leaves the table in, and every resize that
    returns keeps: as many rows as the configuration says, each of the
    hidden size. *)
Definition consistent (self : DistilRobertaModel) : Prop :=
  Z.of_nat (length (Sinusoid.data (position_embeddings (embeddings self))))
  = max_position_embeddings (config self)
  ∧ Forall (λ row, length row = hidden_size (config self))
      (Sinusoid.data (position_embeddings (embeddings self))).

End Resize.

(** ** Scaled dot-product attention: [MultiHeadSelfAttention.forward] *)

Module Attention.

Import Loss.

Local Open Scope R_scope.

(** A tensor [(bs, length, dim)], and a tensor [(bs, n_heads, length, _)]
    with entries in [X].  A nested list does not record the sizes inside
    an empty dimension: the model is that of the code on tensors with at
    least one entry along every dimension. *)
Abbreviation tensor := (list (list (list R))).
Abbreviation per_head X := (list (list (list (list X)))).

(** An [nn.Linear] layer with its parameters: the weight
    [(out_features, in_features)] and the bias [(out_features)]. *)
Record Linear : Type := mkLinear {
  in_features : nat;
  weight : list (list R);
  bias : list R
}.

Definition dot (x y : list R) : R := sum_R (zip_with Rmult x y).

(** [F.linear] on the features of one position; features of another
    width are the "shapes cannot be multiplied" [RuntimeError]. *)
Definition linear_row (l : Linear) (x : list R) : result (list R) :=
  if decide (length x = in_features l)
  then ret (zip_with (λ w b, dot w x + b) (weight l) (bias l))
  else raise RuntimeError.

Definition linear (l : Linear) (t : tensor) : result tensor :=
  mapM (mapM (linear_row l)) t.

(** Entries after [masked_fill_(mask, -inf)], and entries that may be NaN
    with the arithmetic that keeps NaN. *)
Inductive score : Type :=
  | Finite (r : R)
  | MinusInf.

Definition smul (s : scalar) (c : R) : scalar :=
  match s with
  | Num r => Num (r * c)
  | NaN => NaN
  end.

Definition sadd (s t : scalar) : scalar :=
  match s, t with
  | Num a, Num b => Num (a + b)
  | _, _ => NaN
  end.

Definition ssum (l : list scalar) : scalar := foldr sadd (Num 0) l.

(** The module: its hyper-parameters, [nn.Dropout] as the function it
    applies to the attention weights, and the four projections. *)
Record MultiHeadSelfAttention : Type := mkAttention {
  num_attention_heads : nat;
  dim : nat;
  dropout : per_head scalar → per_head scalar;
  q_lin : Linear;
  k_lin : Linear;
  v_lin : Linear;
  out_lin : Linear
}.

(** [rows] of [n] entries each, turned into [n] lists of one entry per
    row. *)
Definition transpose {X} (n : nat) (rows : list (list X)) : list (list X) :=
  (λ h, omap (λ row : list X, row !! h) rows) <$> seq 0 n.

(** [shape]: [x.view(bs, -1, n_heads, dim_per_head).transpose(1, 2)],
    with the [bs] of the query.  The view reads the entries in row-major
    order; it needs a batch, heads of at least one dimension, and as many
    entries as fill whole positions of every sequence. *)
Definition shape (bs n d : nat) (x : tensor) : result (per_head R) :=
  let flat := mjoin (mjoin <$> x) in
  if decide (bs * (n * d) = 0)%nat then raise RuntimeError
  else if decide (length flat mod (bs * (n * d)) = 0)%nat then
    let per := (length flat / bs)%nat in
    ret ((λ fb : list R,
            let chunks := reshape (replicate (per / d) d) fb in
            transpose n (reshape (replicate (per / (n * d)) n) chunks))
         <$> reshape (replicate bs per) flat)
  else raise RuntimeError.

(** [unshape]: [x.transpose(1, 2).contiguous().view(bs, -1, n_heads * dim_per_head)] *)
Definition unshape {X} (x : per_head X) : list (list (list X)) :=
  (λ xb : list (list (list X)),
     let q_length := match xb with h :: _ => length h | [] => 0%nat end in
     (λ position : list (list X), mjoin position) <$> transpose q_length xb)
  <$> x.

(** [q / math.sqrt(dim_per_head)] *)
Definition scale_queries (d : nat) (q : per_head R) : per_head R :=
  (λ qb : list (list (list R)),
     (λ qh : list (list R),
        (λ row : list R, (λ x, x / sqrt (INR d)) <$> row) <$> qh) <$> qb) <$> q.

(** [torch.matmul(q, k.transpose(2, 3))] *)
Definition scores_of (q k : per_head R) : per_head R :=
  zip_with (zip_with (λ qh kh : list (list R),
                        (λ qrow : list R, (λ krow, dot qrow krow) <$> kh) <$> qh)) q k.

(** [(mask == 0).view(bs, 1, 1, k_length)]: one row of [k_length] entries
    per sequence; an entry is [true] where the mask is not zero.  Without
    a mask, [None == 0] is a bool, which has no [view]. *)
Definition view_mask (bs k_length : nat) (mask : option (list (list bool)))
    : result (list (list bool)) :=
  match mask with
  | None => raise AttributeError
  | Some mask =>
      if decide (length (mjoin mask) = bs * k_length)%nat
      then ret (reshape (replicate bs k_length) (mjoin mask))
      else raise RuntimeError
  end.

(** [scores.masked_fill_(mask.expand_as(scores), -inf)]: the row of the
    mask of a sequence, broadcast to each row of its scores. *)
Definition fill (s : R) (keep : bool) : score :=
  if keep then Finite s else MinusInf.

Definition fill_row (mask : list bool) (row : list R) : result (list score) :=
  m ← broadcast_to (length row) mask;
  ret (zip_with fill row m).

Definition masked_fill (scores : per_head R) (mask : list (list bool))
    : result (per_head score) :=
  mapM (λ p : list (list (list R)) * list bool, mapM (mapM (fill_row p.2)) p.1)
       (zip scores mask).

(** [nn.Softmax(dim=-1)] on one row: an entry [-inf] gets the weight 0,
    and a row of nothing but [-inf] is a row of NaN. *)
Definition is_minus_inf (s : score) : bool :=
  match s with
  | Finite _ => false
  | MinusInf => true
  end.

Definition exps (row : list score) : list R :=
  omap (λ s, match s with Finite r => Some (exp r) | MinusInf => None end) row.

Definition softmax_row (row : list score) : list scalar :=
  if forallb is_minus_inf row then (λ _, NaN) <$> row
  else
    let total := sum_R (exps row) in
    (λ s, match s with Finite r => Num (exp r / total) | MinusInf => Num 0 end) <$> row.

Definition softmax_last (scores : per_head score) : per_head scalar :=
  (λ sb : list (list (list score)),
     (λ sh : list (list score), softmax_row <$> sh) <$> sb) <$> scores.

(** [weights * head_mask], for a head mask of one factor per head, as
    [get_head_mask] makes it: shape [(1, n_heads, 1, 1)]. *)
Definition mask_heads (weights : per_head scalar) (head_mask : list R)
    : result (per_head scalar) :=
  mapM (λ wb : list (list (list scalar)),
          factors ← broadcast_to (length wb) head_mask;
          ret (zip_with (λ (wh : list (list scalar)) (c : R),
                           (λ row : list scalar, (λ w, smul w c) <$> row) <$> wh)
                        wb factors))
       weights.

(** [torch.matmul(weights, v)]: each row of weights against the columns
    of the values of its head. *)
Definition weighted_sum (row : list scalar) (vh : list (list R)) (d : nat) : list scalar :=
  (λ j, ssum (zip_with (λ w (vrow : list R), smul w (default 0 (vrow !! j))) row vh))
  <$> seq 0 d.

Definition context_of (d : nat) (weights : per_head scalar) (v : per_head R)
    : result (per_head scalar) :=
  mapM (λ p : list (list (list scalar)) * list (list (list R)),
          mapM (λ ph : list (list scalar) * list (list R),
                  mapM (λ row : list scalar,
                          if decide (length row = length ph.2)
                          then ret (weighted_sum row ph.2 d)
                          else raise RuntimeError)
                       ph.1)
               (zip p.1 p.2))
       (zip weights v).

(** [self.out_lin(context)], on entries that may be NaN. *)
Definition out_row (l : Linear) (x : list scalar) : result (list scalar) :=
  if decide (length x = in_features l)
  then ret (zip_with (λ (w : list R) (b : R),
                        sadd (ssum (zip_with smul x w)) (Num b)) (weight l) (bias l))
  else raise RuntimeError.

(** [t.size(1)] *)
Definition size1 (t : tensor) : nat :=
  match t with
  | tb :: _ => length tb
  | [] => 0%nat
  end.

(** [MultiHeadSelfAttention.forward]: the context, and the weights when
    [output_attentions] holds. *)
Definition forward (self : MultiHeadSelfAttention) (query key value : tensor)
    (mask : option (list (list bool))) (head_mask : option (list R))
    (output_attentions : bool)
    : result (list (list (list scalar)) * option (per_head scalar)) :=
  let bs := length query in
  let k_length := size1 key in
  dim_per_head ← floordiv (dim self) (num_attention_heads self);
  let shape := shape bs (num_attention_heads self) dim_per_head in
  q ← linear (q_lin self) query ≫= shape;
  k ← linear (k_lin self) key ≫= shape;
  v ← linear (v_lin self) value ≫= shape;
  let q := scale_queries dim_per_head q in
  let scores := scores_of q k in
  mask ← view_mask bs k_length mask;
  scores ← masked_fill scores mask;
  let weights := softmax_last scores in
  let weights := dropout self weights in
  weights ← match head_mask with
            | Some head_mask => mask_heads weights head_mask
            | None => ret weights
            end;
  context ← context_of dim_per_head weights v;
  let context := unshape context in
  context ← mapM (mapM (out_row (out_lin self))) context;
  ret (context, if output_attentions then Some weights else None).

(** The key and value projections give [dim] features per position, and
    [dim] is a whole number of heads: what [__init__] asserts and
    [prune_heads] keeps. *)
Definition whole_heads (self : MultiHeadSelfAttention) : Prop :=
  (dim self mod num_attention_heads self = 0)%nat
  ∧ length (weight (k_lin self)) = dim self ∧ length (bias (k_lin self)) = dim self
  ∧ length (weight (v_lin self)) = dim self ∧ length (bias (v_lin self)) = dim self.

(** Two tensors of the shape of the mask, with features of the same width
    at every position, and the same features at every position the mask
    keeps. *)
Definition agree (kept : bool) (x x' : list R) : Prop :=
  length x = length x' ∧ (kept = true → x = x').

Definition same_where_kept (mask : list (list bool)) (t t' : tensor) : Prop :=
  Forall3 (Forall3 agree) mask t t'.

(** The heads of one sequence of [n * d] features per position: what
    [shape] gives for a tensor of that width. *)
Definition split_heads (n d : nat) (tb : list (list R)) : list (list (list R)) :=
  (λ h, (λ row : list R, take d (drop (h * d) row)) <$> tb) <$> seq 0 n.


(** A row of weights with nothing but 0 or NaN at the positions the mask
    drops. *)
Definition masked_zero (mask : list bool) (row : list scalar) : Prop :=
  ∀ j w, mask !! j = Some false → row !! j = Some w → w = NaN ∨ w = Num 0.

End Attention.

(** ** The feed-forward network: [FFN] *)

Module FeedForward.

Import Attention.

Local Open Scope R_scope.

(** The module: [nn.Dropout] as the function it applies, the chunk size of
    the configuration, the two projections, and the activation ([gelu] or
    [nn.ReLU()]) as the function it applies to each entry.
    [seq_len_dim] is always 1. *)
Record FFN : Type := mkFFN {
  dropout : tensor → tensor;
  chunk_size_feed_forward : Z;
  lin1 : Linear;
  lin2 : Linear;
  activation : R → R
}.

(** [FFN.ff_chunk] *)
Definition ff_chunk (self : FFN) (input : tensor) : result tensor :=
  x ← linear (lin1 self) input;
  let x := (λ xb : list (list R),
              (λ row : list R, activation self <$> row) <$> xb) <$> x in
  x ← linear (lin2 self) x;
  let x := dropout self x in
  ret x.

(** [input.chunk(chunks, dim=1)]: pieces of [ceil(L / chunks)] positions,
    as many as cover the [L] positions; [chunks] empty pieces when there
    is no position. *)
Definition chunk (chunks : nat) (input : tensor) : result (list tensor) :=
  if decide (chunks = 0)%nat then raise RuntimeError
  else
    let split_size := ((size1 input + chunks - 1) / chunks)%nat in
    let pieces :=
      if decide (split_size = 0)%nat then chunks
      else ((size1 input + split_size - 1) / split_size)%nat in
    ret ((λ j, (λ xb : list (list R), take split_size (drop (j * split_size) xb)) <$> input)
         <$> seq 0 pieces).

(** [torch.cat(output_chunks, dim=1)] *)
Definition cat (output_chunks : list tensor) : result tensor :=
  match output_chunks with
  | [] => raise RuntimeError
  | first :: _ =>
      ret ((λ pieces : list (list (list R)), mjoin pieces)
           <$> transpose (length first) output_chunks)
  end.

(** [transformers.modeling_utils.apply_chunking_to_forward] for one input
    tensor and [chunk_dim = 1].  The exception for a length that is not a
    multiple of the chunk size is an assertion in some releases of the
    library and a [ValueError] in others: it is the parameter
    [not_a_multiple]. *)
Definition apply_chunking_to_forward (not_a_multiple : exn)
    (forward_fn : tensor → result tensor) (chunk_size : Z) (input : tensor)
    : result tensor :=
  if decide (0 < chunk_size)%Z then
    if decide (Z.of_nat (size1 input) mod chunk_size = 0)%Z then
      let num_chunks := Z.to_nat (Z.of_nat (size1 input) / chunk_size) in
      input_tensors_chunks ← chunk num_chunks input;
      output_chunks ← mapM forward_fn input_tensors_chunks;
      cat output_chunks
    else raise not_a_multiple
  else forward_fn input.

(** [FFN.forward] *)
Definition forward (not_a_multiple : exn) (self : FFN) (input : tensor) : result tensor :=
  apply_chunking_to_forward not_a_multiple (ff_chunk self)
    (chunk_size_feed_forward self) input.

(** The steps of [ff_chunk] on the features of one position. *)
Definition ff_row (self : FFN) (x : list R) : result (list R) :=
  y ← linear_row (lin1 self) x;
  linear_row (lin2 self) (activation self <$> y).


(** [n] pieces of [c] positions each. *)
Definition split_positions (c n : nat) (t : tensor) : list tensor :=
  (λ j, (λ xb : list (list R), take c (drop (j * c) xb)) <$> t) <$> seq 0 n.

End FeedForward.

(** ** More small modules and inputs for the examples *)

Module Samples.

(** [Toy.four_heads] after pruning head 1, and after pruning heads 1 and 3. *)
Definition three_of_four : Prune.MultiHeadSelfAttention :=
  Prune.mkAttention 3 12 (Prune.mkLinear 16 12) (Prune.mkLinear 16 12)
    (Prune.mkLinear 16 12) (Prune.mkLinear 12 16) {[1]}.

Definition two_of_four : Prune.MultiHeadSelfAttention :=
  Prune.mkAttention 2 8 (Prune.mkLinear 16 8) (Prune.mkLinear 16 8)
    (Prune.mkLinear 16 8) (Prune.mkLinear 8 16) {[1; 3]}.

(** What [Toy.toy_encoder] returns for one sequence of two tokens when
    hidden states are asked for. *)
Definition toy_output : Encoder.BaseModelOutput (A := R) (W := unit) :=
  {| Encoder.last_hidden_state := [[[1; 2]; [3; 4]]]%R;
     Encoder.hidden_states := Some [[[[1; 2]; [3; 4]]]; [[[1; 2]; [3; 4]]]]%R;
     Encoder.attentions := None |}.



(** An interchange of the second of two positions, in the columns 1 and 2
    of head 0. *)
Definition second_position : Encoder.interchange_args (A := nat) :=
  {| Encoder.interchanged_variables := Some {[0 := [[[7; 8]; [9; 10]]]]};
     Encoder.variable_names := Some (Encoder.Layers {[0 := [(0, 0%Z, Encoder.mkSlice 1 2)]]});
     Encoder.interchange_mask := [[false; true]];
     Encoder.dual_interchange_mask := [[true; false]] |}.

(** Arguments of the causal branch for the toy model, and a call of it. *)
Definition causal_args : Loss.loss_args :=
  {| Loss.t_logits := Some [[[0; 0]; [0; 0]]]%R;
     Loss.t_hidden_states := Some [];
     Loss.causal_t_logits := Some [[[1; 2]; [3; 4]]]%R;
     Loss.causal_t_hidden_states := Some [[[[1; 2]; [3; 4]]]]%R;
     Loss.s_logits := Some [[[0; 0]; [0; 0]]]%R;
     Loss.s_hidden_states := Some [];
     Loss.temperature := Some 1%R;
     Loss.restrict_ce_to_mask := None;
     Loss.lm_labels := None;
     Loss.alpha_mlm := 0%R;
     Loss.alpha_clm := 0%R;
     Loss.alpha_mse := 0%R;
     Loss.alpha_cos := 0%R |}.

Definition causal_forward : result Loss.output :=
  Loss.forward Toy.toy_model (Some [[5; 6]]%Z) (Some [[true; true]]) None None None
    None (Some true) None (Encoder.mkArgs None None [] []) causal_args.

(** The toy model called for a tuple, with labels that are all ignored. *)
Definition ignored_forward : result Loss.output :=
  Loss.forward Toy.toy_model (Some [[5; 6]]%Z) (Some [[true; true]]) None None
    (Some [[-100; -100]]%Z) None None (Some false) (Encoder.mkArgs None None [] [])
    (Toy.toy_args 0 0).

(** An embedding layer of three tokens and two positions in two
    dimensions, whose [LayerNorm] and [dropout] return their input; the
    same without the buffer of position ids; and models around them with a
    learned and with a sinusoidal table. *)
Definition small_embeddings : Embed.Embeddings :=
  {| Embed.word_embeddings := [[1; 2]; [3; 4]; [5; 6]]%R;
     Embed.position_embeddings := Sinusoid.mkWeight [[10; 20]; [30; 40]]%R true;
     Embed.LayerNorm := λ t, t;
     Embed.dropout := λ t, t;
     Embed.position_ids := Some [Embed.arange 2] |}.

Definition no_buffer_embeddings : Embed.Embeddings :=
  {| Embed.word_embeddings := [[1; 2]; [3; 4]; [5; 6]]%R;
     Embed.position_embeddings := Sinusoid.mkWeight [[10; 20]; [30; 40]]%R true;
     Embed.LayerNorm := λ t, t;
     Embed.dropout := λ t, t;
     Embed.position_ids := None |}.

Definition learned_model : Resize.DistilRobertaModel :=
  {| Resize.config := Resize.mkConfig 2 2 false;
     Resize.embeddings := small_embeddings |}.

Definition sinusoidal_model : Resize.DistilRobertaModel :=
  {| Resize.config := Resize.mkConfig 2 2 true;
     Resize.embeddings := small_embeddings |}.

(** Draws that are all zero. *)
Definition zeros : nat → nat → R := λ _ _, 0%R.

(** An attention module of two heads of one dimension each, whose four
    projections are the identity and whose dropout returns its input; a
    sequence of two positions, a mask that drops the second, and the same
    sequence with other features there. *)
Definition identity_linear : Attention.Linear :=
  Attention.mkLinear 2 [[1; 0]; [0; 1]]%R [0; 0]%R.

Definition identity_attention : Attention.MultiHeadSelfAttention :=
  {| Attention.num_attention_heads := 2;
     Attention.dim := 2;
     Attention.dropout := λ w, w;
     Attention.q_lin := identity_linear;
     Attention.k_lin := identity_linear;
     Attention.v_lin := identity_linear;
     Attention.out_lin := identity_linear |}.

Definition two_positions : list (list (list R)) := [[[1; 0]; [0; 1]]]%R.

Definition other_second_position : list (list (list R)) := [[[1; 0]; [5; 7]]]%R.

Definition first_kept : list (list bool) := [[true; false]].

(** A feed-forward network of identity projections with ReLU and no
    dropout, which works on one position at a time. *)
Definition one_by_one : FeedForward.FFN :=
  {| FeedForward.dropout := λ x, x;
     FeedForward.chunk_size_feed_forward := 1;
     FeedForward.lin1 := identity_linear;
     FeedForward.lin2 := identity_linear;
     FeedForward.activation := λ x, Rmax 0 x |}.

End Samples.

(** * Properties *)

(** ** The error monad and lists *)

Lemma bind_inr {X Y} (x : X) (f : X → result Y) : (inr x : result X) ≫= f = f x.
Proof. done. Qed.

Lemma fmap_inr_inv {X Y} (f : X → Y) (r : result X) (y : Y) :
  f <$> r = ret y → ∃ x, r = ret x ∧ y = f x.
Proof. destruct r as [e|x]; [done|]. intros [= <-]. by exists x. Qed.

Lemma mapM_ret_fmap {X Y} (f : X → result Y) (g : X → Y) (l : list X) :
  (∀ x, x ∈ l → f x = ret (g x)) → mapM f l = ret (g <$> l).
Proof.
  induction l as [|x l IH]; intros Hf; [done|].
  cbn. rewrite (Hf x) by left. cbn. rewrite IH by (intros; apply Hf; by right). done.
Qed.

Lemma broadcast_to_same {X} (n : nat) (l : list X) :
  length l = n → broadcast_to n l = ret l.
Proof. intros Hl. unfold broadcast_to. by rewrite decide_True. Qed.

(** A run that raised did not return. *)
Ltac raised H := exfalso; cbv [mbind result_bind bind] in H; discriminate H.

(** Case analysis on the first computation of a run that returned. *)
Ltac step H :=
  lazymatch type of H with
  | (assert ?c ≫= _) = _ =>
      let Hc := fresh "Hc" in
      destruct c eqn:Hc; [cbn [assert] in H; rewrite bind_inr in H | raised H]
  | (from_option ret (raise _) ?x ≫= _) = _ =>
      destruct x eqn:?; [cbn [from_option] in H; rewrite ?bind_inr in H | raised H]
  | ((?r ≫= _) ≫= _) = _ =>
      destruct r eqn:?; [raised H | rewrite ?bind_inr in H]
  | (?r ≫= _) = _ =>
      destruct r eqn:?; [raised H | rewrite ?bind_inr in H]
  end.

Lemma reshape_join {X} (ls : list (list X)) : reshape (length <$> ls) (mjoin ls) = ls.
Proof.
  induction ls as [|l ls IH]; [done|].
  csimpl. by rewrite take_app_length, drop_app_length, IH.
Qed.

Lemma length_join_rows {X} (n : nat) (m : list (list X)) :
  Forall (λ r, length r = n) m → length (mjoin m) = n * length m.
Proof. intros Hm. rewrite length_join, (sum_list_fmap_same n) by done. lia. Qed.

Lemma zip_with_fmap_both {X Y Z1 Z2} (f : Y → Z1 → Z2) (g : X → Y) (h : X → Z1)
    (l k : list X) :
  zip_with f (g <$> l) (h <$> k) = zip_with (λ x y, f (g x) (h y)) l k.
Proof.
  revert k. induction l as [|x l IH]; intros [|y k]; try done. csimpl. by rewrite IH.
Qed.

Lemma zip_with_diag {X Y} (f : X → X → Y) (l : list X) :
  zip_with f l l = (λ x, f x x) <$> l.
Proof. induction l as [|x l IH]; [done|]. csimpl. by rewrite IH. Qed.

(** *** Selection by a mask *)

Lemma select_cons {X} (b : bool) (m : list bool) (x : X) (l : list X) :
  select (b :: m) (x :: l) = if b then x :: select m l else select m l.
Proof.
  unfold select. cbn [zip_with]. rewrite filter_cons. cbn [snd].
  destruct b; [by rewrite decide_True|by rewrite decide_False].
Qed.

Lemma select_nil_l {X} (l : list X) : select [] l = [].
Proof. by destruct l. Qed.

Lemma select_nil_r {X} (m : list bool) : select m ([] : list X) = [].
Proof. by destruct m. Qed.

Lemma select_all_false {X} (m : list bool) (l : list X) :
  Forall (λ b, b = false) m → select m l = [].
Proof.
  intros Hm. revert l. induction Hm as [|b m -> _ IH]; intros [|x l]; try done.
  by rewrite select_cons.
Qed.

Lemma select_app {X} (m1 m2 : list bool) (l1 l2 : list X) :
  length m1 = length l1 → select (m1 ++ m2) (l1 ++ l2) = select m1 l1 ++ select m2 l2.
Proof.
  revert l1. induction m1 as [|b m1 IH]; intros [|x l1] Hlen; simplify_eq/=; [done|].
  rewrite !select_cons, IH by done. by destruct b.
Qed.

Lemma select_replicate {X} (b : bool) (l : list X) :
  select (replicate (length l) b) l = if b then l else [].
Proof.
  induction l as [|x l IH]; [by destruct b|].
  cbn [length replicate]. rewrite select_cons, IH. by destruct b.
Qed.

Lemma select_fmap {X Y} (f : X → Y) (m : list bool) (l : list X) :
  f <$> select m l = select m (f <$> l).
Proof.
  revert l. induction m as [|b m IH]; intros [|x l]; try done.
  rewrite fmap_cons, !select_cons, <- IH. by destruct b.
Qed.

Lemma select_Forall {X} (Q : X → Prop) (m : list bool) (l : list X) :
  Forall Q l → Forall Q (select m l).
Proof.
  intros Hl. revert m. induction Hl as [|x l Hx _ IH]; intros [|b m]; try done.
  rewrite select_cons. destruct b; [constructor|]; auto.
Qed.

(** *** Strided slices *)

Lemma stride_lookup {X} (now : bool) (l : list X) (k : nat) :
  stride now l !! k = l !! (2 * k + if now then 0 else 1).
Proof.
  revert now k. induction l as [|x l IH]; intros now k; [by destruct now|].
  destruct now; simpl.
  - destruct k as [|k]; [done|]. simpl. rewrite IH.
    replace (k + S (k + 0) + 0) with (2 * k + 1) by lia. done.
  - rewrite IH. replace (k + (k + 0) + 1) with (S (2 * k + 0)) by lia. done.
Qed.

Lemma stride_length {X} (now : bool) (l : list X) :
  length (stride now l) = (length l + if now then 1 else 0) / 2.
Proof.
  revert now. induction l as [|x l IH]; intros now; [by destruct now|].
  destruct now; cbn [stride length]; rewrite IH.
  - replace (S (length l) + 1) with (length l + 0 + 1 * 2) by lia.
    rewrite Nat.div_add by lia. lia.
  - f_equal. lia.
Qed.

Lemma assign_stride_length {X} (now : bool) (l vals : list X) :
  length (assign_stride now l vals) = length l.
Proof.
  revert now vals. induction l as [|x l IH]; intros now vals; [done|].
  destruct now; simpl; [destruct vals; simpl|]; by rewrite ?IH.
Qed.

Lemma succ_div2_even (j : nat) : Nat.even j = true → S j / 2 = j / 2.
Proof.
  intros Hj. apply Nat.even_spec in Hj as [k ->].
  replace (S (2 * k)) with (1 + k * 2) by lia.
  rewrite Nat.div_add by lia. rewrite Nat.mul_comm, Nat.div_mul by lia. done.
Qed.

Lemma succ_div2_odd (j : nat) : Nat.even j = false → S j / 2 = S (j / 2).
Proof.
  intros Hj. apply (f_equal negb) in Hj. rewrite Nat.negb_even in Hj.
  apply Nat.odd_spec in Hj as [k ->].
  replace (S (2 * k + 1)) with ((k + 1) * 2) by lia.
  rewrite Nat.div_mul by lia.
  replace (2 * k + 1) with (1 + k * 2) by lia.
  rewrite Nat.div_add by lia. rewrite (Nat.div_small 1 2) by lia. lia.
Qed.

Lemma even_succ_negb (j : nat) : Nat.even (S j) = negb (Nat.even j).
Proof. by rewrite Nat.even_succ, <- Nat.negb_even. Qed.

Lemma double_div2_even (j : nat) : Nat.even j = true → 2 * (j / 2) + 0 = j.
Proof.
  intros Hj. apply Nat.even_spec in Hj as [k ->].
  rewrite (Nat.mul_comm 2 k), Nat.div_mul by lia. lia.
Qed.

Lemma double_div2_odd (j : nat) : Nat.even j = false → 2 * (j / 2) + 1 = j.
Proof.
  intros Hj. apply (f_equal negb) in Hj. rewrite Nat.negb_even in Hj.
  apply Nat.odd_spec in Hj as [k ->].
  replace (2 * k + 1) with (1 + k * 2) at 1 by lia.
  rewrite Nat.div_add by lia. rewrite (Nat.div_small 1 2) by lia. lia.
Qed.

(** An entry of the slice comes from [vals], any other from [l]. *)
Lemma assign_stride_lookup {X} (now : bool) (l vals : list X) (j : nat) :
  assign_stride now l vals !! j =
    if decide (Nat.even j = now)
    then match vals !! (j / 2) with Some v => l !! j ≫= λ _, Some v | None => l !! j end
    else l !! j.
Proof.
  revert now vals j. induction l as [|x l IH]; intros now vals j.
  { cbn [assign_stride]. rewrite lookup_nil.
    destruct (decide _); [destruct (vals !! (j / 2))|]; done. }
  destruct now; cbn [assign_stride].
  - destruct vals as [|v vals].
    { rewrite lookup_nil. by destruct (decide _). }
    destruct j as [|j]; [done|].
    rewrite !(lookup_cons _ _ (S j)), IH, even_succ_negb.
    destruct (Nat.even j) eqn:Hj; cbn [negb].
    + by rewrite decide_False, decide_False.
    + rewrite !decide_True by done. by rewrite (succ_div2_odd j Hj).
  - destruct j as [|j]; [done|].
    rewrite !(lookup_cons _ _ (S j)), IH, even_succ_negb.
    destruct (Nat.even j) eqn:Hj; cbn [negb].
    + rewrite !decide_True by done. by rewrite (succ_div2_even j Hj).
    + by rewrite decide_False, decide_False.
Qed.

(** *** Counting in lists without duplicates *)

Lemma sum_indicator (Q : nat → Prop) `{!∀ x, Decision (Q x)} (l : list nat) :
  sum_list ((λ x, if decide (Q x) then 1 else 0) <$> l) = length (filter Q l).
Proof.
  induction l as [|x l IH]; [done|].
  csimpl. rewrite filter_cons. destruct (decide (Q x)); simpl; lia.
Qed.

Lemma NoDup_range_length (l : list nat) (a b : nat) :
  NoDup l → Forall (λ p, a ≤ p < b) l → length l ≤ b - a.
Proof.
  intros Hnd Hall.
  rewrite <- (size_list_to_set (C := gset nat) l) by done.
  rewrite <- (size_set_seq (C := gset nat) a (b - a)).
  apply subseteq_size. intros x Hx. apply elem_of_list_to_set in Hx.
  rewrite Forall_forall in Hall. apply elem_of_set_seq.
  specialize (Hall x Hx). lia.
Qed.

Lemma filter_split_length (Q1 Q2 : nat → Prop)
    `{!∀ x, Decision (Q1 x)} `{!∀ x, Decision (Q2 x)} (l : list nat) :
  (∀ x, Q1 x → Q2 x → False) →
  length (filter (λ x, Q1 x ∨ Q2 x) l) = length (filter Q1 l) + length (filter Q2 l).
Proof.
  intros Hex. induction l as [|x l IH]; [done|].
  rewrite !filter_cons.
  destruct (decide (Q1 x)), (decide (Q2 x)), (decide (Q1 x ∨ Q2 x)); simpl;
    first [lia | exfalso; tauto | exfalso; eauto].
Qed.

Lemma filter_ext_in (Q1 Q2 : nat → Prop)
    `{!∀ x, Decision (Q1 x)} `{!∀ x, Decision (Q2 x)} (l : list nat) :
  (∀ x, x ∈ l → Q1 x ↔ Q2 x) → filter Q1 l = filter Q2 l.
Proof.
  induction l as [|x l IH]; intros Hext; [done|].
  rewrite !filter_cons, IH by (intros; apply Hext; by right).
  pose proof (Hext x (list_elem_of_here x l)).
  destruct (decide (Q1 x)), (decide (Q2 x)); first [done | exfalso; tauto].
Qed.

Lemma filter_all (Q : nat → Prop) `{!∀ x, Decision (Q x)} (l : list nat) :
  (∀ x, x ∈ l → Q x) → filter Q l = l.
Proof.
  induction l as [|x l IH]; intros Hall; [done|].
  rewrite filter_cons, IH by (intros; apply Hall; by right).
  destruct (decide (Q x)) as [|[]]; [done|]. apply Hall. by left.
Qed.

Lemma filter_range_length (l : list nat) (a b : nat) :
  NoDup l → length (filter (λ p, a ≤ p < b) l) ≤ b - a.
Proof.
  intros Hnd. apply NoDup_range_length.
  - by apply NoDup_filter.
  - apply Forall_forall. intros x Hx. by apply list_elem_of_filter in Hx as [? _].
Qed.

(** ** Head pruning *)

Module PruneFacts.

Import Prune.

Lemma pruned_before_filter (P : gset nat) (h : nat) :
  pruned_before P h = length (filter (λ p, p < h) (elements P)).
Proof. apply (sum_indicator (λ p, p < h)). Qed.

Lemma pruned_before_le (P : gset nat) (h : nat) : pruned_before P h ≤ h.
Proof.
  rewrite pruned_before_filter.
  pose proof (filter_range_length (elements P) 0 h (NoDup_elements P)) as Hle.
  erewrite filter_ext_in; [etrans; [exact Hle|lia]|]. intros x _; simpl. lia.
Qed.

(** Between two heads that are not pruned lie fewer pruned heads than
    indices, so the shifted indices keep their order. *)
Lemma pruned_before_mono (P : gset nat) (h1 h2 : nat) :
  h1 ∉ P → h1 < h2 → pruned_before P h2 + 1 + h1 ≤ pruned_before P h1 + h2.
Proof.
  intros Hh1 Hlt. rewrite !pruned_before_filter.
  assert (length (filter (λ p, p < h2) (elements P))
          = length (filter (λ p, p < h1) (elements P))
            + length (filter (λ p, h1 + 1 ≤ p < h2) (elements P))) as ->.
  { rewrite <- filter_split_length by (intros; lia).
    f_equal. apply filter_ext_in. intros x Hx.
    assert (x ≠ h1) by (intros ->; by apply elem_of_elements in Hx). lia. }
  pose proof (filter_range_length (elements P) (h1 + 1) h2 (NoDup_elements P)). lia.
Qed.

Lemma pruned_before_bound (P : gset nat) (N h : nat) :
  (∀ p, p ∈ P → p < N) → h ∉ P → h < N →
  size P + h + 1 ≤ pruned_before P h + N.
Proof.
  intros HP Hh Hlt. rewrite pruned_before_filter.
  assert (size P = length (filter (λ p, p < h) (elements P))
            + length (filter (λ p, h + 1 ≤ p < N) (elements P))) as ->.
  { rewrite <- filter_split_length by (intros; lia).
    unfold size, set_size; simpl. symmetry. f_equal.
    apply filter_all. intros x Hx.
    assert (x ≠ h) by (intros ->; by apply elem_of_elements in Hx).
    apply elem_of_elements, HP in Hx. lia. }
  pose proof (filter_range_length (elements P) (h + 1) N (NoDup_elements P)). lia.
Qed.

Lemma shifted_head_inj (P : gset nat) (x y : nat) :
  x ∉ P → y ∉ P → x - pruned_before P x = y - pruned_before P y → x = y.
Proof.
  intros Hx Hy Heq.
  pose proof (pruned_before_le P x). pose proof (pruned_before_le P y).
  destruct (Nat.lt_trichotomy x y) as [Hlt|[->|Hlt]]; [|done|].
  - pose proof (pruned_before_mono P x y Hx Hlt). lia.
  - pose proof (pruned_before_mono P y x Hy Hlt). lia.
Qed.

(** No more heads can be pruned than the module still has. *)
Lemma pruneable_size (P : gset nat) (heads : list nat) (n : nat) :
  (∀ p, p ∈ P → p < n + size P) →
  (∀ h, h ∈ heads → h < n + size P) →
  size (list_to_set heads ∖ P : gset nat) ≤ n.
Proof.
  intros HP Hheads.
  assert (size ((list_to_set heads ∖ P) ∪ P : gset nat) ≤ n + size P) as Hle.
  { rewrite <- (size_set_seq (C := gset nat) 0 (n + size P)).
    apply subseteq_size. intros x Hx. apply elem_of_set_seq.
    apply elem_of_union in Hx as [Hx|Hx].
    - apply elem_of_difference in Hx as [Hx _].
      apply elem_of_list_to_set in Hx. apply Hheads in Hx. lia.
    - apply HP in Hx. lia. }
  rewrite size_union in Hle by apply disjoint_difference_l1, reflexivity. lia.
Qed.

(** *** The mask of [find_pruneable_heads_and_indices] *)

Lemma filter_zip_snd_length {X} (xs : list X) (l : list bool) :
  length xs = length l →
  length (filter (λ p : X * bool, p.2 = true) (zip xs l)) = length (filter (λ b, b = true) l).
Proof.
  revert xs. induction l as [|b l IH]; intros [|x xs] Hlen; simplify_eq/=; [done|].
  rewrite !filter_cons; simpl.
  destruct (decide (b = true)); simpl; by rewrite (IH xs).
Qed.

Lemma masked_arange_length (l : list bool) :
  length (masked_arange l) = length (filter (λ b, b = true) l).
Proof.
  unfold masked_arange. rewrite length_fmap.
  apply filter_zip_snd_length. by rewrite length_seq.
Qed.

Lemma masked_arange_lt (l : list bool) : Forall (λ i, i < length l) (masked_arange l).
Proof.
  apply Forall_forall. intros i Hi. unfold masked_arange in Hi.
  apply list_elem_of_fmap in Hi as ([j b] & -> & Hin).
  apply list_elem_of_filter in Hin as [_ Hin].
  apply elem_of_zip_l in Hin. apply elem_of_seq in Hin. simpl. lia.
Qed.

Lemma filter_true_replicate (n : nat) (b : bool) :
  length (filter (λ c, c = true) (replicate n b)) = if b then n else 0.
Proof.
  induction n as [|n IH]; simpl; [by destruct b|].
  rewrite filter_cons. destruct b, (decide _); simpl; try congruence; lia.
Qed.

Lemma live_replicate (n hs : nat) :
  length (filter (λ c, c = true) (mjoin (replicate n (replicate hs true)))) = hs * n.
Proof.
  induction n as [|n IH]; simpl; [lia|].
  rewrite filter_app, length_app, IH, filter_true_replicate. lia.
Qed.

(** Zeroing a row that was all ones removes [hs] ones. *)
Lemma live_insert (hs i : nat) (m : list (list bool)) :
  m !! i = Some (replicate hs true) →
  length (filter (λ c, c = true) (mjoin (<[i := replicate hs false]> m))) + hs
  = length (filter (λ c, c = true) (mjoin m)).
Proof.
  intros Hi. pose proof (lookup_lt_Some _ _ _ Hi).
  rewrite insert_take_drop by done.
  rewrite <- (take_drop_middle m i _ Hi) at 3.
  rewrite !join_app; simpl. rewrite !filter_app, !length_app, !filter_true_replicate. lia.
Qed.

(** The loop over the heads to prune, when they fall on distinct rows
    that are still all ones. *)
Lemma mask_out_fold (hs : nat) (P : gset nat) (l : list nat) (m : list (list bool)) :
  NoDup ((λ h, h - pruned_before P h) <$> l) →
  (∀ h, h ∈ l → m !! (h - pruned_before P h) = Some (replicate hs true)) →
  Forall (λ r, length r = hs) m →
  ∃ m', foldl (mask_out hs P) (ret m) l = ret m'
      ∧ length m' = length m
      ∧ Forall (λ r, length r = hs) m'
      ∧ length (filter (λ c, c = true) (mjoin m')) + hs * length l
        = length (filter (λ c, c = true) (mjoin m)).
Proof.
  revert m. induction l as [|h l IH]; intros m Hnd Hlive Hrows.
  { exists m. simpl. repeat split; [done|lia]. }
  apply NoDup_cons in Hnd as [Hh Hnd].
  assert (m !! (h - pruned_before P h) = Some (replicate hs true)) as Hm
    by (apply Hlive; by left).
  pose proof (lookup_lt_Some _ _ _ Hm) as Hlt.
  destruct (IH (<[h - pruned_before P h := replicate hs false]> m))
    as (m' & Hm' & Hlen & Hrows' & Hcount).
  - done.
  - intros h' Hh'. rewrite list_lookup_insert_ne; [apply Hlive; by right|].
    intros Heq. apply Hh. rewrite Heq.
    by apply (list_elem_of_fmap_2 (λ h, h - pruned_before P h)).
  - apply Forall_insert; [done|]. by rewrite length_replicate.
  - exists m'. split; [|split; [|split]].
    + assert (mask_out hs P (ret m) h
              = ret (<[h - pruned_before P h := replicate hs false]> m)) as Hstep.
      { unfold mask_out; cbn. by rewrite decide_True. }
      cbn [foldl]. by rewrite Hstep.
    + by rewrite Hlen, length_insert.
    + done.
    + rewrite <- (live_insert hs _ m Hm). simpl. lia.
Qed.

Lemma find_pruneable_spec (heads : list nat) (n hs : nat) (P : gset nat) :
  (∀ p, p ∈ P → p < n + size P) →
  (∀ h, h ∈ heads → h < n + size P) →
  ∃ index,
    find_pruneable_heads_and_indices heads n hs P = ret ((list_to_set heads ∖ P), index)
    ∧ length index = hs * (n - size (list_to_set heads ∖ P : gset nat))
    ∧ Forall (λ i, i < hs * n) index.
Proof.
  intros HP Hheads. set (H' := list_to_set heads ∖ P : gset nat).
  assert (∀ h, h ∈ elements H' → (h ∉ P) ∧ h < n + size P) as HH'.
  { intros h Hh. apply elem_of_elements, elem_of_difference in Hh as [Hh ?].
    apply elem_of_list_to_set in Hh. auto. }
  destruct (mask_out_fold hs P (elements H') (replicate n (replicate hs true)))
    as (m' & Hfold & Hlen & Hrows & Hcount).
  - apply NoDup_fmap_2_strong; [|apply NoDup_elements].
    intros x y Hx Hy. apply shifted_head_inj; by apply HH'.
  - intros h Hh. apply HH' in Hh as [Hh Hlt]. apply lookup_replicate_2.
    pose proof (pruned_before_bound P (n + size P) h HP Hh Hlt).
    pose proof (pruned_before_le P h). lia.
  - apply Forall_replicate. by rewrite length_replicate.
  - exists (masked_arange (mjoin m')). rewrite length_replicate in Hlen.
    split; [|split].
    + unfold find_pruneable_heads_and_indices. fold H'. by rewrite Hfold.
    + rewrite masked_arange_length. rewrite live_replicate in Hcount.
      pose proof (pruneable_size P heads n HP Hheads) as Hsz. fold H' in Hsz.
      change (length (elements H')) with (size H') in Hcount. nia.
    + rewrite <- Hlen, <- (length_join_rows hs m') by done. apply masked_arange_lt.
Qed.

(** *** [prune_heads] on a well-formed module *)

Lemma prune_heads_spec (m : MultiHeadSelfAttention) (heads : list nat) :
  wf m → 0 < num_attention_heads m → valid_heads m heads → heads ≠ [] →
  let hs := dim m / num_attention_heads m in
  let pruned : gset nat := list_to_set heads ∖ pruned_heads m in
  let n := num_attention_heads m - size pruned in
  prune_heads heads m =
    ret {| num_attention_heads := n;
           dim := hs * n;
           q_lin := mkLinear (in_features (q_lin m)) (hs * n);
           k_lin := mkLinear (in_features (k_lin m)) (hs * n);
           v_lin := mkLinear (in_features (v_lin m)) (hs * n);
           out_lin := mkLinear (hs * n) (out_features (out_lin m));
           pruned_heads := pruned_heads m ∪ pruned |}.
Proof.
  intros Hwf Hn Hvalid Hne hs pruned n.
  destruct (find_pruneable_spec heads (num_attention_heads m) hs (pruned_heads m))
    as (index & Hfind & Hlen & Hidx); [apply Hwf|exact Hvalid|].
  assert (hs * num_attention_heads m ≤ dim m) as Hle
    by (unfold hs; rewrite Nat.mul_comm; apply Nat.Div0.mul_div_le).
  assert (Forall (λ i, i < dim m) index) as Hdim
    by (eapply Forall_impl; [exact Hidx|]; simpl; lia).
  unfold prune_heads, floordiv.
  rewrite decide_False by lia. cbn.
  rewrite decide_False by (by destruct heads).
  fold hs. rewrite Hfind. cbn.
  unfold prune_linear_layer.
  rewrite (wf_q m Hwf), (wf_k m Hwf), (wf_v m Hwf), (wf_o m Hwf).
  rewrite !decide_True by done. cbn. by rewrite Hlen.
Qed.

Lemma prune_heads_nil (m : MultiHeadSelfAttention) :
  0 < num_attention_heads m → prune_heads [] m = ret m.
Proof. intros Hn. unfold prune_heads, floordiv. by rewrite decide_False by lia. Qed.

(** [__init__] builds a well-formed module with at least one head. *)
Lemma init_wf (hidden_size heads : nat) (m : MultiHeadSelfAttention) :
  init hidden_size heads = ret m → wf m ∧ 0 < num_attention_heads m.
Proof.
  unfold init. destruct (decide (heads = 0)); [done|].
  destruct (bool_decide (hidden_size mod heads = 0)) eqn:Hdiv; [|done].
  apply bool_decide_eq_true in Hdiv. cbn. intros [= <-].
  split; [split; simpl; try done|simpl; lia].
Qed.

(** [prune_heads] keeps the module well formed, and the heads it knows. *)
Lemma prune_heads_wf (m m' : MultiHeadSelfAttention) (heads : list nat) :
  wf m → 0 < num_attention_heads m → valid_heads m heads →
  prune_heads heads m = ret m' →
  wf m' ∧ valid_heads m' heads
  ∧ num_attention_heads m' + size (pruned_heads m')
    = num_attention_heads m + size (pruned_heads m).
Proof.
  intros Hwf Hn Hvalid Hrun.
  destruct (decide (heads = [])) as [->|Hne].
  { rewrite prune_heads_nil in Hrun by done. by injection Hrun as <-. }
  rewrite prune_heads_spec in Hrun by done. injection Hrun as <-.
  pose proof (pruneable_size (pruned_heads m) heads (num_attention_heads m)
                (wf_pruned m Hwf) Hvalid) as Hsz.
  set (pruned := list_to_set heads ∖ pruned_heads m : gset nat) in *.
  assert (size (pruned_heads m ∪ pruned) = size (pruned_heads m) + size pruned) as Hsize
    by (apply size_union, disjoint_difference_r1; done).
  split; [split|split]; simpl; try done.
  - apply Nat.Div0.mod_mul.
  - intros p Hp. rewrite Hsize.
    apply elem_of_union in Hp as [Hp|Hp].
    + apply (wf_pruned m Hwf) in Hp. lia.
    + apply elem_of_difference in Hp as [Hp _].
      apply elem_of_list_to_set, Hvalid in Hp. lia.
  - intros h Hh. simpl. rewrite Hsize. apply Hvalid in Hh. lia.
  - rewrite Hsize. lia.
Qed.

(** C4, amended: for a well-formed attention module and head indices it
    knows, of which at least one stays unpruned, [prune_heads] succeeds and
    a second call with the same heads returns the module unchanged: the
    same pruned-heads set, head count, width and projection shapes. *)
Theorem prune_heads_idempotent (m : MultiHeadSelfAttention) (heads : list nat) :
  wf m → 0 < num_attention_heads m → valid_heads m heads →
  size (list_to_set heads ∖ pruned_heads m : gset nat) < num_attention_heads m →
  ∃ m1, prune_heads heads m = ret m1 ∧ prune_heads heads m1 = ret m1.
Proof.
  intros Hwf Hn Hvalid Hleft.
  destruct (decide (heads = [])) as [->|Hne].
  { exists m. by rewrite prune_heads_nil. }
  eexists. split; [by apply prune_heads_spec|].
  edestruct (prune_heads_wf m) as (Hwf1 & Hvalid1 & _);
    [done..|by apply prune_heads_spec|].
  rewrite prune_heads_spec; [|done|simpl; lia|done|done]. simpl.
  set (pruned := list_to_set heads ∖ pruned_heads m : gset nat) in *.
  assert (list_to_set heads ∖ (pruned_heads m ∪ pruned) = (∅ : gset nat)) as ->.
  { unfold pruned. apply set_eq. intros x.
    rewrite !elem_of_difference, elem_of_union, elem_of_difference, elem_of_empty.
    destruct (decide (x ∈ pruned_heads m)); tauto. }
  rewrite size_empty, Nat.sub_0_r, union_empty_r_L.
  rewrite Nat.div_mul by lia. done.
Qed.

Lemma four_heads_wf : wf Toy.four_heads.
Proof. split; try reflexivity. intros p Hp. by apply not_elem_of_empty in Hp. Qed.

Lemma two_heads_wf : wf Toy.two_heads.
Proof. split; try reflexivity. intros p Hp. by apply not_elem_of_empty in Hp. Qed.

Lemma four_heads_valid : valid_heads Toy.four_heads [1; 3].
Proof.
  intros h Hh. change (h < 4 + 0).
  apply elem_of_cons in Hh as [->|Hh]; [lia|].
  apply elem_of_cons in Hh as [->|Hh]; [lia|]. by apply not_elem_of_nil in Hh.
Qed.

Lemma two_heads_valid : valid_heads Toy.two_heads [0; 1].
Proof.
  intros h Hh. change (h < 2 + 0).
  apply elem_of_cons in Hh as [->|Hh]; [lia|].
  apply elem_of_cons in Hh as [->|Hh]; [lia|]. by apply not_elem_of_nil in Hh.
Qed.

Lemma prune_heads_idempotent_witness :
  ∃ m1, prune_heads [1; 3] Toy.four_heads = ret m1 ∧ prune_heads [1; 3] m1 = ret m1.
Proof.
  apply prune_heads_idempotent.
  - exact four_heads_wf.
  - cbn. lia.
  - exact four_heads_valid.
  - vm_compute. lia.
Defined.

(** C4 as stated fails when the heads to prune are all the heads of the
    module: the first call leaves no head, and the second call divides the
    width by the head count before it looks at the heads. *)
Lemma prune_all_heads_twice_raises :
  wf Toy.two_heads ∧ valid_heads Toy.two_heads [0; 1]
  ∧ ∃ m1, prune_heads [0; 1] Toy.two_heads = ret m1
        ∧ num_attention_heads m1 = 0
        ∧ prune_heads [0; 1] m1 = raise ZeroDivisionError.
Proof.
  split; [exact two_heads_wf|]. split; [exact two_heads_valid|].
  eexists. split; [vm_compute; reflexivity|]. split; reflexivity.
Qed.

(** C5: for a well-formed attention module with [n] heads and head indices
    it knows, none of them pruned yet, [prune_heads] leaves [n - |H|] heads
    and the width [old_width * (n - |H|) / n], a division without
    remainder. *)
Theorem prune_heads_width (m : MultiHeadSelfAttention) (heads : list nat) :
  wf m → 0 < num_attention_heads m → valid_heads m heads →
  (∀ h, h ∈ heads → h ∉ pruned_heads m) →
  let n := num_attention_heads m in
  let k := size (list_to_set heads : gset nat) in
  ∃ m', prune_heads heads m = ret m'
      ∧ num_attention_heads m' = n - k
      ∧ dim m' = dim m * (n - k) / n
      ∧ (dim m * (n - k)) mod n = 0.
Proof.
  intros Hwf Hn Hvalid Hfresh n k.
  assert (dim m = n * (dim m / n)) as Hdim.
  { apply Nat.Div0.div_exact. apply Hwf. }
  assert ((dim m * (n - k)) mod n = 0) as Hmod.
  { rewrite Hdim, <- Nat.mul_assoc. rewrite Nat.mul_comm. apply Nat.Div0.mod_mul. }
  assert (dim m * (n - k) / n = dim m / n * (n - k)) as Hdiv.
  { rewrite Hdim at 1. rewrite <- Nat.mul_assoc, Nat.mul_comm, Nat.div_mul by lia. done. }
  destruct (decide (heads = [])) as [->|Hne].
  { exists m. rewrite prune_heads_nil by done.
    assert (k = 0) as Hk by apply size_empty.
    rewrite Hk, Nat.sub_0_r in *. rewrite Nat.div_mul by lia. done. }
  eexists. split; [by apply prune_heads_spec|]. simpl.
  assert (list_to_set heads ∖ pruned_heads m = (list_to_set heads : gset nat)) as ->.
  { apply set_eq. intros x. rewrite elem_of_difference, elem_of_list_to_set.
    split; [tauto|]. intros Hx. split; [done|]. by apply Hfresh. }
  fold k. fold n. rewrite Hdiv. done.
Qed.

Lemma prune_heads_width_witness :
  ∃ m', prune_heads [1; 3] Toy.four_heads = ret m'
      ∧ num_attention_heads m' = 4 - size (list_to_set [1; 3] : gset nat)
      ∧ dim m' = 16 * (4 - size (list_to_set [1; 3] : gset nat)) / 4
      ∧ (16 * (4 - size (list_to_set [1; 3] : gset nat))) mod 4 = 0.
Proof.
  apply (prune_heads_width Toy.four_heads [1; 3]).
  - exact four_heads_wf.
  - cbn. lia.
  - exact four_heads_valid.
  - intros h _. apply not_elem_of_empty.
Defined.

End PruneFacts.

(** ** The sinusoidal position table *)

Module SinusoidFacts.

Import Sinusoid.

Lemma assign_columns_exact (now : bool) (out src : list (list R)) :
  Forall2 (λ r v, length (stride now r) = length v) out src →
  assign_columns now out src
  = ret ((λ p : list R * list R, assign_stride now p.1 p.2) <$> zip out src).
Proof.
  intros Hshape. unfold assign_columns.
  rewrite broadcast_to_same by (symmetry; by eapply Forall2_length). cbn.
  apply (mapM_ret_fmap _ (λ p : list R * list R, assign_stride now p.1 p.2)).
  intros [r v] Hin. apply list_elem_of_lookup in Hin as [i Hi].
  apply lookup_zip_with_Some in Hi as (r' & v' & [= <- <-] & Hr & Hv).
  cbn. rewrite broadcast_to_same; [done|].
  symmetry. exact (Forall2_lookup_lr _ out src i r v Hshape Hr Hv).
Qed.

Lemma assign_columns_lookup (now : bool) (out src : list (list R)) (i : nat) (r v : list R) :
  out !! i = Some r → src !! i = Some v →
  ((λ p : list R * list R, assign_stride now p.1 p.2) <$> zip out src) !! i
  = Some (assign_stride now r v).
Proof.
  intros Hr Hv. rewrite list_lookup_fmap.
  rewrite (lookup_zip_with pair out src i), Hr, Hv. done.
Qed.

Lemma position_enc_lookup (n_pos dim pos : nat) :
  pos < n_pos → position_enc n_pos dim !! pos = Some (angle dim pos <$> seq 0 dim).
Proof.
  intros Hpos. unfold position_enc.
  by rewrite list_lookup_fmap, lookup_seq_lt.
Qed.

Lemma angle_row_lookup (dim pos j : nat) :
  j < dim → (angle dim pos <$> seq 0 dim) !! j = Some (angle dim pos j).
Proof. intros Hj. by rewrite list_lookup_fmap, lookup_seq_lt. Qed.

(** C9: called on a weight of shape [(n_pos, dim)] with at least one
    position, [_create_sinusoidal_embeddings] returns a table whose entry
    at position [pos] and index [j] is [sin(pos / 10000^(2*(j//2)/dim))]
    for even [j] and the cosine of the same angle for odd [j], over the
    real numbers, and the weight no longer requires a gradient. *)
Theorem sinusoidal_table (n_pos dim : nat) (out : weight) :
  0 < n_pos → length (data out) = n_pos → Forall (λ r, length r = dim) (data out) →
  ∃ w, _create_sinusoidal_embeddings n_pos dim out = ret w
     ∧ requires_grad w = false
     ∧ ∀ pos j, pos < n_pos → j < dim →
         data w !! pos ≫= (.!! j)
         = Some (if Nat.even j
                 then sin (INR pos / Rpower 10000 (2 * INR (j / 2) / INR dim))
                 else cos (INR pos / Rpower 10000 (2 * INR (j / 2) / INR dim))).
Proof.
  intros Hpos Hrows Hcols.
  set (S := (λ row, sin <$> stride true row) <$> position_enc n_pos dim).
  set (C := (λ row, cos <$> stride false row) <$> position_enc n_pos dim).
  set (d1 := (λ p : list R * list R, assign_stride true p.1 p.2) <$> zip (data out) S).
  set (d2 := (λ p : list R * list R, assign_stride false p.1 p.2) <$> zip d1 C).
  assert (∀ pos, pos < n_pos → ∃ r, data out !! pos = Some r ∧ length r = dim) as Hout.
  { intros pos Hlt. destruct (lookup_lt_is_Some_2 (data out) pos) as [r Hr]; [lia|].
    exists r. split; [done|]. exact (Forall_lookup_1 _ _ _ _ Hcols Hr). }
  assert (∀ pos r, pos < n_pos → data out !! pos = Some r →
            d1 !! pos
            = Some (assign_stride true r
                      (sin <$> stride true (angle dim pos <$> seq 0 dim))))
    as Hd1.
  { intros pos r Hlt Hr. apply assign_columns_lookup; [done|].
    unfold S. by rewrite list_lookup_fmap, position_enc_lookup. }
  assert (assign_columns true (data out) S = ret d1) as Hstep1.
  { apply assign_columns_exact. apply Forall2_same_length_lookup. split.
    - unfold S, position_enc. by rewrite !length_fmap, length_seq.
    - intros i r v Hr Hv. assert (i < n_pos) as Hi by (apply lookup_lt_Some in Hr; lia).
      unfold S in Hv. rewrite list_lookup_fmap, position_enc_lookup in Hv by done.
      injection Hv as <-. destruct (Hout i Hi) as (r' & Hr' & Hlen).
      rewrite Hr in Hr'. injection Hr' as <-.
      by rewrite length_fmap, !stride_length, Hlen, length_fmap, length_seq. }
  assert (assign_columns false d1 C = ret d2) as Hstep2.
  { apply assign_columns_exact. apply Forall2_same_length_lookup. split.
    - unfold d1, C, S, position_enc.
      rewrite !length_fmap, length_zip, !length_fmap, length_seq. lia.
    - intros i r v Hr Hv. assert (i < n_pos) as Hi.
      { apply lookup_lt_Some in Hv. unfold C, position_enc in Hv.
        by rewrite !length_fmap, length_seq in Hv. }
      unfold C in Hv. rewrite list_lookup_fmap, position_enc_lookup in Hv by done.
      injection Hv as <-. destruct (Hout i Hi) as (r' & Hr' & Hlen).
      rewrite (Hd1 i r' Hi Hr') in Hr. injection Hr as <-.
      by rewrite length_fmap, !stride_length, assign_stride_length, Hlen,
           length_fmap, length_seq. }
  exists {| data := d2; requires_grad := false |}. split; [|split; [done|]].
  { unfold _create_sinusoidal_embeddings. rewrite decide_False by lia. cbn.
    fold S. rewrite Hstep1. cbn. fold C. rewrite Hstep2. done. }
  intros pos j Hp Hj. cbn [data].
  destruct (Hout pos Hp) as (r & Hr & Hlen).
  assert (d2 !! pos = Some (assign_stride false
            (assign_stride true r (sin <$> stride true (angle dim pos <$> seq 0 dim)))
            (cos <$> stride false (angle dim pos <$> seq 0 dim)))) as ->.
  { apply assign_columns_lookup; [by apply Hd1|].
    unfold C. by rewrite list_lookup_fmap, position_enc_lookup. }
  cbn -[Nat.div]. destruct (lookup_lt_is_Some_2 r j) as [x Hx]; [lia|].
  rewrite !assign_stride_lookup, Hx.
  rewrite !list_lookup_fmap, !stride_lookup.
  destruct (Nat.even j) eqn:Hev.
  - rewrite decide_False by done. rewrite decide_True by done.
    rewrite (double_div2_even j Hev), angle_row_lookup by done. done.
  - rewrite decide_True by done.
    rewrite (double_div2_odd j Hev), angle_row_lookup by done. done.
Qed.

Lemma sinusoidal_table_witness :
  ∃ w, _create_sinusoidal_embeddings 2 3 (mkWeight [[0; 0; 0]; [0; 0; 0]]%R true) = ret w
     ∧ requires_grad w = false
     ∧ ∀ pos j, pos < 2 → j < 3 →
         data w !! pos ≫= (.!! j)
         = Some (if Nat.even j
                 then sin (INR pos / Rpower 10000 (2 * INR (j / 2) / INR 3))
                 else cos (INR pos / Rpower 10000 (2 * INR (j / 2) / INR 3))).
Proof.
  apply (sinusoidal_table 2 3).
  - lia.
  - reflexivity.
  - repeat constructor.
Defined.

End SinusoidFacts.

(** ** The encoder and the interchange *)

Module EncoderFacts.

Import Encoder.

Lemma scatter_all_false {X} (a b : Z) (sel : list bool) (rows vals : list (list X)) :
  Forall (λ b, b = false) sel → scatter a b sel rows vals = rows.
Proof.
  intros Hsel. revert rows. induction Hsel as [|c sel -> _ IH]; intros [|r rows]; try done.
  cbn. by rewrite IH.
Qed.

Lemma slice_bounds_inside (n : nat) (a b : Z) :
  (0 ≤ a)%Z → (a ≤ b)%Z → (b ≤ Z.of_nat n)%Z →
  slice_bounds n a b = (Z.to_nat a, Z.to_nat b).
Proof.
  intros Ha Hab Hb. unfold slice_bounds.
  rewrite !decide_False by lia. f_equal; lia.
Qed.

(** Inside the row, the slice the code writes starts at
    [head * head_dimension + start] and is [stop] entries wide. *)
Lemma interchange_width (n head_dimension : nat) (head : Z) (offsets : py_slice) :
  let start_index := (head * Z.of_nat head_dimension + start offsets)%Z in
  let stop_index := (start_index + stop offsets)%Z in
  (0 ≤ start_index)%Z → (0 ≤ stop offsets)%Z → (stop_index ≤ Z.of_nat n)%Z →
  slice_width n start_index stop_index = Z.to_nat (stop offsets).
Proof.
  intros a b Ha Hs Hb. unfold slice_width.
  rewrite slice_bounds_inside by lia. cbn. lia.
Qed.

Section Facts.

Context {A W HM : Type}.

Implicit Types (t : list (list (list A))) (m : list (list bool)).

Lemma index_put_all_false t (a b : Z) m (v : list (list A)) t' :
  Forall (Forall (λ b, b = false)) m →
  index_put t a b m v = ret t' → t' = t.
Proof.
  intros Hm Hput. unfold index_put in Hput.
  destruct (decide (same_shape m t)); [|done].
  assert (Forall (λ b, b = false) (mjoin m)) as Hflat by by apply Forall_join.
  rewrite select_all_false in Hput by done. cbn in Hput.
  destruct (broadcast_to 0 v) as [e|v'] eqn:Hb; [done|].
  assert (v' = []) as ->.
  { unfold broadcast_to in Hb. destruct (decide (length v = 0)) as [Hl|Hl].
    - injection Hb as <-. by destruct v.
    - destruct v as [|x [|??]]; [done| |done]. by injection Hb as <-. }
  cbn in Hput. injection Hput as <-.
  by rewrite scatter_all_false, reshape_join.
Qed.

Lemma interchange_all_false (hd : nat) (ivs : gmap nat (list (list (list A)))) m m' t
    (v : variable) t' :
  Forall (Forall (λ b, b = false)) m → Forall (Forall (λ b, b = false)) m' →
  interchange hd ivs m m' t v = ret t' → t' = t.
Proof.
  intros Hm Hm' Hrun. destruct v as [[key head] offsets]. unfold interchange in Hrun.
  destruct (ivs !! key) as [donor|]; [|done]. cbn in Hrun.
  unfold index_mask in Hrun. destruct (decide (same_shape m' donor)); [|done].
  rewrite select_all_false in Hrun by by apply Forall_join.
  cbn in Hrun. eapply index_put_all_false; [exact Hm|exact Hrun].
Qed.

Lemma interchanges_all_false (hd : nat) (ivs : gmap nat (list (list (list A)))) m m'
    (vars : list variable) t t' :
  Forall (Forall (λ b, b = false)) m → Forall (Forall (λ b, b = false)) m' →
  foldM (interchange hd ivs m m') t vars = ret t' → t' = t.
Proof.
  intros Hm Hm'. revert t. induction vars as [|v vars IH]; intros t Hrun.
  { by injection Hrun as <-. }
  cbn in Hrun. destruct (interchange hd ivs m m' t v) as [e|t1] eqn:Hv; [done|].
  simpl in Hrun. apply IH in Hrun as ->.
  exact (interchange_all_false _ _ _ _ _ _ _ Hm Hm' Hv).
Qed.

Lemma layer_step_all_false (self : Transformer (A := A) (W := W) (HM := HM))
    m (hm : nat → HM) (oa ohs : bool) (args : interchange_args)
    (st st' : loop_state) (il : nat * block) :
  Forall (Forall (λ b, b = false)) (interchange_mask args) →
  Forall (Forall (λ b, b = false)) (dual_interchange_mask args) →
  layer_step self m hm oa ohs args st il = ret st' →
  layer_step self m hm oa ohs (mkArgs None None [] []) st il = ret st'.
Proof.
  intros Hm Hm' Hrun. destruct st as [[h hs] ats], il as [i f].
  unfold layer_step in *. cbn in *.
  destruct (variable_names args) as [[|d]|]; [done| |done].
  destruct (d !! i) as [vars|]; [|done].
  destruct (interchanged_variables args) as [ivs|]; [|done]. cbn in Hrun.
  destruct (foldM _ _ vars) as [e|t'] eqn:Hfold; [done|].
  apply interchanges_all_false in Hfold as ->; [exact Hrun|done..].
Qed.

Lemma layers_all_false (self : Transformer (A := A) (W := W) (HM := HM))
    m (hm : nat → HM) (oa ohs : bool) (args : interchange_args)
    (l : list (nat * block)) (st st' : loop_state) :
  Forall (Forall (λ b, b = false)) (interchange_mask args) →
  Forall (Forall (λ b, b = false)) (dual_interchange_mask args) →
  foldM (layer_step self m hm oa ohs args) st l = ret st' →
  foldM (layer_step self m hm oa ohs (mkArgs None None [] [])) st l = ret st'.
Proof.
  intros Hm Hm'. revert st. induction l as [|il l IH]; intros st Hrun; [done|].
  cbn in *. destruct (layer_step self m hm oa ohs args st il) as [e|st1] eqn:Hstep; [done|].
  rewrite (layer_step_all_false _ _ _ _ _ _ _ _ _ Hm Hm' Hstep). cbn in *. by apply IH.
Qed.

(** C3: when the destination mask and the donor mask are false everywhere,
    a forward pass that returns with the interchange specification returns
    what the same forward pass returns with no specification: the last
    hidden state, all hidden states and the attentions. *)
Theorem all_false_masks_leave_hidden_states
    (self : Transformer (A := A) (W := W) (HM := HM))
    (x : list (list (list A))) m (hm : nat → HM) (oa ohs : bool)
    (args : interchange_args) (out : BaseModelOutput) :
  Forall (Forall (λ b, b = false)) (interchange_mask args) →
  Forall (Forall (λ b, b = false)) (dual_interchange_mask args) →
  transformer_forward self x m hm oa ohs args = ret out →
  transformer_forward self x m hm oa ohs (mkArgs None None [] []) = ret out.
Proof.
  intros Hm Hm' Hrun. unfold transformer_forward in *.
  destruct (foldM (layer_step self m hm oa ohs args) _ _) as [e|st] eqn:Hloop; [done|].
  by rewrite (layers_all_false _ _ _ _ _ _ _ _ _ Hm Hm' Hloop).
Qed.

(** C7: the encoder raises a [ValueError] when both the token ids and the
    embeddings are given, and when neither is; nothing is computed from
    either input before. *)
Theorem forward_rejects_both_or_neither
    (self : DistilRobertaModel (A := A) (W := W) (HM := HM))
    (input_ids : option (list (list Z))) (attention_mask : option (list (list bool)))
    (head_mask : option (list HM)) (inputs_embeds : option (list (list (list A))))
    (oa ohs : option bool) (args : interchange_args) :
  (is_Some input_ids ∧ is_Some inputs_embeds) ∨ (input_ids = None ∧ inputs_embeds = None) →
  ∃ msg, model_forward self input_ids attention_mask head_mask inputs_embeds oa ohs args
         = raise (ValueError msg).
Proof.
  intros [[[ids ->] [embeds ->]]|[-> ->]]; eexists; reflexivity.
Qed.

(** With as many donor rows as destination rows, each of the width of the
    slice, the interchange is the scatter of the donor rows, in order,
    into the columns [start_index : stop_index] of the destination rows. *)
Lemma interchange_scatter (head_dimension : nat) (ivs : gmap nat (list (list (list A))))
    (im dm : list (list bool)) (hidden donor : list (list (list A)))
    (key : nat) (head : Z) (offsets : py_slice) :
  let start_index := (head * Z.of_nat head_dimension + start offsets)%Z in
  let stop_index := (start_index + stop offsets)%Z in
  ivs !! key = Some donor →
  same_shape dm donor → same_shape im hidden →
  Forall2 (λ r v, length v = slice_width (length r) start_index stop_index)
    (select (mjoin im) (mjoin hidden)) (select (mjoin dm) (mjoin donor)) →
  interchange head_dimension ivs im dm hidden (key, head, offsets)
  = ret (reshape (length <$> hidden)
           (scatter start_index stop_index (mjoin im) (mjoin hidden)
              (select (mjoin dm) (mjoin donor)))).
Proof.
  intros a b Hkey Hdm Him Hrows. unfold interchange. rewrite Hkey. cbn.
  unfold index_mask. rewrite decide_True by done. cbn.
  unfold index_put. rewrite decide_True by done.
  rewrite broadcast_to_same by (symmetry; by eapply Forall2_length). cbn.
  fold a b.
  rewrite (mapM_ret_fmap _ snd).
  - cbn. rewrite snd_zip; [done|]. apply Forall2_length in Hrows. lia.
  - intros [r v] Hin. apply list_elem_of_lookup in Hin as [i Hi].
    apply lookup_zip_with_Some in Hi as (r' & v' & [= <- <-] & Hr & Hv).
    cbn. apply broadcast_to_same.
    exact (Forall2_lookup_lr _ _ _ i r v Hrows Hr Hv).
Qed.




End Facts.

Lemma all_false_masks_leave_hidden_states_witness :
  transformer_forward Toy.one_block [[[1; 2; 3; 4]]] [[true]] (λ _, tt) false true
    (mkArgs None None [] [])
  = ret {| last_hidden_state := [[[1; 2; 3; 4]]];
           hidden_states := Some [[[[1; 2; 3; 4]]]; [[[1; 2; 3; 4]]]];
           attentions := None |}.
Proof.
  apply (all_false_masks_leave_hidden_states Toy.one_block _ _ _ _ _ Toy.nothing_selected).
  - repeat constructor.
  - repeat constructor.
  - vm_compute. reflexivity.
Defined.

Lemma forward_rejects_both_or_neither_witness :
  ∃ msg, model_forward Toy.toy_encoder (Some [[5; 6]]%Z) None None
           (Some [[[1; 2]; [3; 4]]]%R) None None (mkArgs None None [] [])
         = raise (ValueError msg).
Proof.
  apply forward_rejects_both_or_neither. left. split; by eexists.
Defined.

(** C1 at the variable [(0, 0, slice(1, 3))] with heads of four
    dimensions: the slice holds the two offsets 1 and 2 of head 0, yet the
    three columns 1, 2 and 3 are overwritten, and donor activations as
    wide as the slice are refused. *)
Theorem interchange_counts_start_twice :
  interchange (A := nat) 4 {[0 := [[[10; 11; 12]]]]} [[true]] [[true]]
    [[[0; 1; 2; 3; 4; 5; 6; 7]]] (0, 0%Z, mkSlice 1%Z 3%Z)
  = ret [[[0; 10; 11; 12; 4; 5; 6; 7]]]
  ∧ interchange (A := nat) 4 {[0 := [[[10; 11]]]]} [[true]] [[true]]
      [[[0; 1; 2; 3; 4; 5; 6; 7]]] (0, 0%Z, mkSlice 1%Z 3%Z)
    = raise RuntimeError.
Proof. split; vm_compute; reflexivity. Qed.

End EncoderFacts.

(** ** The distillation losses *)

Module LossFacts.

Import Loss.

Local Open Scope R_scope.

(** *** Masked selection of rows *)

(** Selecting entries with a mask that repeats the bit of each position
    over its row selects whole rows. *)
Lemma select_expanded (V : nat) (bits : list bool) (rows : list (list R)) :
  Forall (λ row, length row = V) rows →
  select (mjoin (replicate V <$> bits)) (mjoin rows) = mjoin (select bits rows).
Proof.
  intros Hrows. revert bits. induction Hrows as [|row rows Hrow _ IH]; intros [|b bits].
  - by rewrite select_nil_l.
  - csimpl. by rewrite select_nil_r.
  - csimpl. by rewrite select_nil_l.
  - rewrite fmap_cons. csimpl. rewrite select_app by (by rewrite length_replicate).
    rewrite select_cons, IH, <- Hrow, select_replicate. by destruct b.
Qed.

Lemma expand_row_flat (V : nat) (mr : list bool) (tr : list (list R)) :
  length mr = length tr → Forall (λ row, length row = V) tr →
  zip_with (λ (b : bool) (row : list R), replicate (length row) b) mr tr = replicate V <$> mr.
Proof.
  intros Hlen Htr. revert mr Hlen.
  induction Htr as [|row tr Hrow _ IH]; intros [|b mr] Hlen; simplify_eq/=; [done|].
  by rewrite IH.
Qed.

Lemma expand_flat (V : nat) (m : list (list bool)) (t : list (list (list R))) :
  Forall2 (λ r s, length r = length s) m t →
  Forall (Forall (λ row, length row = V)) t →
  mjoin (mjoin (zip_with (zip_with (λ (b : bool) (row : list R), replicate (length row) b)) m t))
  = mjoin (replicate V <$> mjoin m).
Proof.
  intros Hshape. induction Hshape as [|mr tr m t Hlen _ IH]; intros Ht; [done|].
  apply Forall_cons in Ht as [Htr Ht].
  csimpl. rewrite !join_app, fmap_app, join_app, IH by done.
  by rewrite (expand_row_flat V).
Qed.

Lemma view_join (V : nat) (rows : list (list R)) :
  (0 < V)%nat → Forall (λ row, length row = V) rows → view V (mjoin rows) = ret rows.
Proof.
  intros HV Hrows. unfold view. rewrite decide_False by lia.
  rewrite (length_join_rows V) by done.
  rewrite decide_True by (rewrite Nat.mul_comm; apply Nat.Div0.mod_mul).
  rewrite Nat.mul_comm, Nat.div_mul by lia.
  assert (replicate (length rows) V = length <$> rows) as ->.
  { clear HV. induction Hrows as [|row rows Hrow _ IH]; [done|]. csimpl. by rewrite IH, Hrow. }
  by rewrite reshape_join.
Qed.

(** [masked_select] with the expanded mask, viewed as rows of [V]
    entries, is the selection of the positions. *)
Lemma slct_expanded (V : nat) (m : list (list bool)) (s t : list (list (list R))) :
  (0 < V)%nat → Forall2 (λ r e, length r = length e) m s →
  Forall (Forall (λ row, length row = V)) s →
  Forall (Forall (λ row, length row = V)) t →
  slct t (zip_with (zip_with (λ (b : bool) (row : list R), replicate (length row) b)) m s) V
  = ret (select (mjoin m) (mjoin t)).
Proof.
  intros HV Hshape Hs Ht. unfold slct, masked_select.
  rewrite (expand_flat V) by done.
  rewrite (select_expanded V) by by apply Forall_join.
  apply view_join; [done|]. apply select_Forall. by apply Forall_join.
Qed.

Lemma size_join (t : list (list (list R))) :
  length <$> mjoin t = mjoin (size t).
Proof.
  induction t as [|e t IH]; [done|]. csimpl. by rewrite fmap_app, IH.
Qed.

Lemma size_rect (V : nat) (s t : list (list (list R))) :
  size s = size t → Forall (Forall (λ row, length row = V)) s →
  Forall (Forall (λ row, length row = V)) t.
Proof.
  revert t. induction s as [|e s IH]; intros [|e' t] Hsize Hs; simplify_eq/=; [done|].
  apply Forall_cons in Hs as [He Hs]. constructor; [|by apply IH].
  clear IH Hs. rename H into Hrow. revert e' Hrow.
  induction He as [|row e Hrow _ IH]; intros [|row' e'] Heq;
    simplify_eq/=; [done|]. constructor; [congruence|by apply IH].
Qed.

(** *** The soft-target term *)

Lemma soft_target_spec (ss ts : list (list R)) (T : R) :
  soft_target ss ts T
  = scale (div_count
             (sum_R (zip_with
                       (λ sp tp, kl_divergence (log_softmax ((λ x, x / T) <$> sp))
                                               (softmax ((λ x, x / T) <$> tp)))
                       ss ts))
             (length ss))
          (T * T).
Proof.
  unfold soft_target, ce_loss_fct. by rewrite zip_with_fmap_both, length_fmap.
Qed.

Lemma ce_mask_cases (restrict : option bool) (lm_labels : option (list (list Z)))
    (am : option mask) (m : mask) :
  (restrict = Some true ∧ ∃ labels, lm_labels = Some labels ∧ m = gold_mask labels)
  ∨ (restrict ≠ Some true ∧ am = Some m) →
  ce_mask restrict lm_labels am = ret m.
Proof.
  intros [(-> & labels & -> & ->)|[Hr ->]]; [done|].
  unfold ce_mask. by destruct restrict as [[]|].
Qed.

(** C2: with [m] the gold-label mask when [restrict_ce_to_mask] holds and
    the attention mask otherwise, of the shape of the positions of the
    student logits, which have [V > 0] entries per position and the size of
    the teacher logits, the soft-target loss the code computes is the
    Kullback-Leibler divergence between [log_softmax(s / T)] and
    [softmax(t / T)] over the positions [m] selects, averaged over those
    positions and multiplied by [T * T]. *)
Theorem soft_target_is_masked_kl (restrict : option bool) (lm_labels : option (list (list Z)))
    (attention_mask : option mask) (s_logits t_logits : tensor) (T : R) (m : mask) :
  (restrict = Some true ∧ ∃ labels, lm_labels = Some labels ∧ m = gold_mask labels)
  ∨ (restrict ≠ Some true ∧ attention_mask = Some m) →
  length m = length s_logits →
  Forall2 (λ r e, length r = length e) m s_logits →
  (0 < size_last s_logits)%nat →
  Forall (Forall (λ row, length row = size_last s_logits)) s_logits →
  size s_logits = size t_logits →
  ∃ ss ts,
    soft_target_block restrict lm_labels attention_mask s_logits t_logits (Some T)
    = ret (ss, ts, spec_soft_target_loss s_logits t_logits m T).
Proof.
  intros Hmask Hlen Hshape HV Hs Hsize.
  pose proof (size_rect _ _ _ Hsize Hs) as Ht.
  exists (select (mjoin m) (mjoin s_logits)), (select (mjoin m) (mjoin t_logits)).
  unfold soft_target_block. rewrite (ce_mask_cases _ _ _ m Hmask). cbn.
  unfold expand_as. rewrite decide_True by done. cbn.
  rewrite !(slct_expanded (size_last s_logits)) by done. cbn.
  rewrite !select_fmap, !size_join, Hsize, bool_decide_eq_true_2 by done. cbn.
  by rewrite soft_target_spec.
Qed.

Lemma soft_target_is_masked_kl_witness :
  ∃ ss ts,
    soft_target_block None None (Some [[true; false]])
      [[[1; 2]; [3; 4]]] [[[0; 0]; [1; 1]]] (Some 2)
    = ret (ss, ts,
           spec_soft_target_loss [[[1; 2]; [3; 4]]] [[[0; 0]; [1; 1]]] [[true; false]] 2).
Proof.
  apply soft_target_is_masked_kl.
  - right. by split.
  - reflexivity.
  - repeat constructor.
  - cbn. lia.
  - repeat constructor.
  - reflexivity.
Defined.

Lemma sum_R_cons (a : R) (l : list R) : sum_R (a :: l) = a + sum_R l.
Proof. done. Qed.

Lemma sum_exp_pos (x : list R) : x ≠ [] → 0 < sum_R (exp <$> x).
Proof.
  assert (∀ l : list R, 0 <= sum_R (exp <$> l)) as Hnn.
  { induction l as [|a l IH]; [cbv; lra|].
    rewrite fmap_cons, sum_R_cons. pose proof (exp_pos a). lra. }
  destruct x as [|a x]; [done|]. intros _.
  rewrite fmap_cons, sum_R_cons. pose proof (exp_pos a). pose proof (Hnn x). lra.
Qed.

Lemma sum_R_fmap_zero {X} (f : X → R) (l : list X) :
  (∀ x, x ∈ l → f x = 0) → sum_R (f <$> l) = 0.
Proof.
  induction l as [|x l IH]; intros Hf; [done|].
  rewrite fmap_cons, sum_R_cons, IH, Hf; [lra|by left|]. intros; apply Hf; by right.
Qed.

(** A distribution has no divergence from itself. *)
Lemma kl_self (x : list R) :
  sum_R (zip_with kl_pointwise (log_softmax x) (softmax x)) = 0.
Proof.
  unfold log_softmax, softmax. rewrite zip_with_fmap_both, zip_with_diag.
  apply sum_R_fmap_zero. intros a Ha.
  assert (0 < sum_R (exp <$> x)) as Hpos by (apply sum_exp_pos; by intros ->; inversion Ha).
  unfold kl_pointwise. unfold Rdiv at 2. rewrite ln_mult, ln_Rinv, ln_exp.
  - ring.
  - done.
  - apply exp_pos.
  - by apply Rinv_0_lt_compat.
Qed.

Lemma soft_target_self (rows : list (list R)) (T : R) :
  rows ≠ [] → soft_target rows rows T = Num 0.
Proof.
  intros Hne. unfold soft_target, ce_loss_fct.
  rewrite zip_with_fmap_both, zip_with_diag, length_fmap.
  rewrite sum_R_fmap_zero by (intros; apply kl_self).
  unfold div_count. rewrite decide_False by (by destruct rows).
  cbn. f_equal. unfold Rdiv. ring.
Qed.

(** C6, amended: when the teacher logits are the student logits, the
    temperature is 1 and the mask selects at least one position, the
    soft-target loss is zero over the real numbers. *)
Theorem equal_logits_give_zero_loss (restrict : option bool)
    (lm_labels : option (list (list Z))) (attention_mask : option mask)
    (s_logits : tensor) (ss ts : list (list R)) (v : scalar) :
  soft_target_block restrict lm_labels attention_mask s_logits s_logits (Some 1)
  = ret (ss, ts, v) →
  ss ≠ [] → v = Num 0.
Proof.
  unfold soft_target_block. intros Hrun Hne.
  destruct (ce_mask restrict lm_labels attention_mask) as [e|m]; [done|]. cbn in Hrun.
  destruct (expand_as m s_logits) as [e|M]; [done|]. cbn in Hrun.
  destruct (slct s_logits M (size_last s_logits)) as [e|rows]; [done|]. cbn in Hrun.
  destruct (assert _) as [e|[]]; [done|]. cbn in Hrun.
  injection Hrun as <- <- <-. by apply soft_target_self.
Qed.

Lemma equal_logits_give_zero_loss_witness :
  soft_target [[1; 2]] [[1; 2]] 1 = Num 0.
Proof.
  apply (equal_logits_give_zero_loss None None (Some [[true]]) [[[1; 2]]] [[1; 2]] [[1; 2]]).
  - reflexivity.
  - done.
Defined.

(** C6 as stated fails when the mask selects no position: the batch mean
    divides by the number of selected rows, and the loss is NaN. *)
Lemma no_position_selected_gives_nan :
  soft_target_block None None (Some [[false]]) [[[1; 2]]] [[[1; 2]]] (Some 1)
  = ret ([], [], NaN)
  ∧ NaN ≠ Num 0.
Proof. split; [reflexivity|discriminate]. Qed.

(** *** The keys of [student_outputs] *)

Section Keys.

Context {W HM : Type}.

Implicit Types (self : DistilRobertaForMaskedLM (W := W) (HM := HM)).

Implicit Types (o st : MaskedLMOutput (W := W)).

Lemma set_item_overwrite (k : string) (v v' : scalar) st :
  set_item k v' (set_item k v st) = set_item k v' st.
Proof. unfold set_item. cbn. by rewrite insert_insert_eq. Qed.

Lemma set_item_loss (k : string) (v : scalar) st : loss (set_item k v st) = loss st.
Proof. done. Qed.

Lemma set_item_lookup_ne (k k' : string) (v : scalar) st :
  k ≠ k' → extra (set_item k v st) !! k' = extra st !! k'.
Proof. intros Hne. cbn. by rewrite lookup_insert_ne. Qed.

(** The two assignments after the causal-LM term keep every key but
    their own. *)
Lemma tail_keeps self (am : option mask) (a : loss_args) (ss ts : list (list R))
    (shs ths : list tensor) st o (k : string) :
  (if decide (0 < alpha_cos a) then
     loss_cos ← cosine_block self am shs ths;
     ret (set_item "loss_cos" loss_cos
            (if decide (0 < alpha_mse a)
             then set_item "loss_mse" (div_count (mse_loss_fct ss ts) (length ss)) st
             else st))
   else ret (if decide (0 < alpha_mse a)
             then set_item "loss_mse" (div_count (mse_loss_fct ss ts) (length ss)) st
             else st)) = ret o →
  k ≠ "loss_mse" → k ≠ "loss_cos" →
  logits o = logits st ∧ extra o !! k = extra st !! k.
Proof.
  intros Hrun Hk1 Hk2.
  destruct (decide (0 < alpha_cos a)), (decide (0 < alpha_mse a)).
  - destruct (cosine_block self am shs ths); [done|]. injection Hrun as <-.
    cbn. by rewrite !lookup_insert_ne.
  - destruct (cosine_block self am shs ths); [done|]. injection Hrun as <-.
    cbn. by rewrite !lookup_insert_ne.
  - injection Hrun as <-. cbn. by rewrite !lookup_insert_ne.
  - by injection Hrun as <-.
Qed.

(** With both LM weights positive, the plain branch leaves the causal-LM
    loss under ["loss_mlm"], and returns what it returns without the
    masked-LM weight. *)
Lemma regular_losses_clm self (am : option mask) (a : loss_args) (t : tensor) st o :
  regular_losses self am a t st = ret o →
  0 < alpha_mlm a → 0 < alpha_clm a →
  logits o = logits st
  ∧ (extra st !! "loss_clm" = None → extra o !! "loss_clm" = None)
  ∧ (∃ labels input v,
       lm_labels a = Some labels
       ∧ rows (size_last (logits st)) ((λ e : list (list R), removelast e) <$> logits st)
         = ret input
       ∧ lm_loss_fct input (mjoin ((λ e : list Z, drop 1 e) <$> labels)) = ret v
       ∧ extra o !! "loss_mlm" = Some v)
  ∧ regular_losses self am
      {| t_logits := t_logits a; t_hidden_states := t_hidden_states a;
         causal_t_logits := causal_t_logits a;
         causal_t_hidden_states := causal_t_hidden_states a;
         s_logits := s_logits a; s_hidden_states := s_hidden_states a;
         temperature := temperature a; restrict_ce_to_mask := restrict_ce_to_mask a;
         lm_labels := lm_labels a;
         alpha_mlm := 0; alpha_clm := alpha_clm a;
         alpha_mse := alpha_mse a; alpha_cos := alpha_cos a |} t st = ret o.
Proof.
  unfold regular_losses. cbn [t_hidden_states restrict_ce_to_mask lm_labels temperature
    alpha_mlm alpha_clm alpha_mse alpha_cos].
  intros Hrun Hmlm Hclm.
  destruct (t_hidden_states a) as [ths|]; [|done]. cbn [from_option] in *.
  rewrite bind_inr in Hrun |- *.
  destruct (hidden_states st) as [shs|]; [|done]. cbn [from_option] in *.
  rewrite bind_inr in Hrun |- *.
  destruct (assert _) as [?|[]]; [done|]. rewrite bind_inr in Hrun |- *.
  destruct (soft_target_block _ _ _ _ _ _) as [?|[[ss ts] loss_ce]]; [done|].
  rewrite bind_inr in Hrun |- *.
  rewrite (decide_False (P := 0 < 0)) by lra.
  rewrite (decide_True (P := 0 < alpha_mlm a)) in Hrun by done.
  destruct (rows (size_last (logits st)) (logits st)) as [?|input]; [done|].
  rewrite bind_inr in Hrun.
  destruct (lm_labels a) as [labels|]; [|done]. cbn [from_option] in *.
  rewrite bind_inr in Hrun.
  destruct (lm_loss_fct input (mjoin labels)) as [?|loss_mlm]; [done|].
  rewrite !bind_inr in Hrun. rewrite !bind_inr.
  rewrite (decide_True (P := 0 < alpha_clm a)) in Hrun |- * by done.
  cbn [logits set_item] in Hrun |- *.
  destruct (rows _ _) as [?|input'] eqn:Hrows; [done|]. rewrite bind_inr in Hrun |- *.
  destruct (lm_loss_fct input' _) as [?|loss_clm] eqn:Hclm'; [done|].
  rewrite !bind_inr in Hrun. rewrite !bind_inr.
  change {| loss := loss st; logits := logits st; hidden_states := hidden_states st;
            attentions := attentions st; extra := <["loss_ce":=loss_ce]> (extra st) |}
    with (set_item "loss_ce" loss_ce st) in *.
  change {| loss := loss st; logits := logits st; hidden_states := hidden_states st;
            attentions := attentions st;
            extra := <["loss_mlm":=loss_mlm]> (extra (set_item "loss_ce" loss_ce st)) |}
    with (set_item "loss_mlm" loss_mlm (set_item "loss_ce" loss_ce st)) in *.
  rewrite set_item_overwrite in Hrun.
  split; [|split; [|split]]; [| | |exact Hrun].
  - by destruct (tail_keeps _ _ _ _ _ _ _ _ _ "loss_mlm" Hrun) as [-> _].
  - intros Hst. destruct (tail_keeps _ _ _ _ _ _ _ _ _ "loss_clm" Hrun) as [_ ->]; [done..|].
    cbn. by rewrite !lookup_insert_ne.
  - exists labels, input', loss_clm. repeat split; [done..|].
    destruct (tail_keeps _ _ _ _ _ _ _ _ _ "loss_mlm" Hrun) as [_ ->]; [done..|].
    cbn. by rewrite lookup_insert_eq.
Qed.

(** A call that returns [student_outputs] has run the loss composition
    on the freshly built output. *)
Lemma forward_dict self (input_ids : option (list (list Z))) (am : option mask)
    (hm : option (list HM)) (embeds : option tensor) (labels : option (list (list Z)))
    (oa ohs rd : option bool) (args : Encoder.interchange_args) (a : loss_args) o :
  forward self input_ids am hm embeds labels oa ohs rd args a = ret (Dict o) →
  ∃ st, extra st = ∅
      ∧ (labels = None → loss st = None)
      ∧ distillation_losses self am a st = ret o
      ∧ ∀ a', distillation_losses self am a' st = ret o →
              forward self input_ids am hm embeds labels oa ohs rd args a' = ret (Dict o).
Proof.
  unfold forward. intros Hrun.
  destruct (Encoder.model_forward _ _ _ _ _ _ _ _) as [?|out]; [done|].
  rewrite bind_inr in Hrun.
  destruct (match labels with Some _ => _ | None => _ end) as [?|mlm_loss] eqn:Hmlm; [done|].
  rewrite bind_inr in Hrun.
  destruct (negb _); [done|].
  apply fmap_inr_inv in Hrun as (o' & Hrun & [= ->]).
  eexists. split; [|split; [|split; [exact Hrun|]]].
  - done.
  - intros ->. by injection Hmlm as <-.
  - intros a' Ha'. rewrite bind_inr, Hmlm, bind_inr. by rewrite Ha'.
Qed.

(** C10: in the plain branch with teacher logits and both LM weights
    positive, the returned mapping has no key ["loss_clm"]; under
    ["loss_mlm"] it holds the cross-entropy of the logits without the last
    position against the labels without the first; and the call returns the
    same mapping with a zero masked-LM weight: the masked-LM loss is gone. *)
Theorem clm_overwrites_mlm self (input_ids : option (list (list Z))) (am : option mask)
    (hm : option (list HM)) (embeds : option tensor) (labels : option (list (list Z)))
    (oa ohs rd : option bool) (args : Encoder.interchange_args) (a : loss_args) o :
  forward self input_ids am hm embeds labels oa ohs rd args a = ret (Dict o) →
  causal_t_logits a = None → is_Some (t_logits a) →
  0 < alpha_mlm a → 0 < alpha_clm a →
  extra o !! "loss_clm" = None
  ∧ (∃ lm input v,
       lm_labels a = Some lm
       ∧ rows (size_last (logits o)) ((λ e : list (list R), removelast e) <$> logits o)
         = ret input
       ∧ lm_loss_fct input (mjoin ((λ e : list Z, drop 1 e) <$> lm)) = ret v
       ∧ extra o !! "loss_mlm" = Some v)
  ∧ forward self input_ids am hm embeds labels oa ohs rd args
      {| t_logits := t_logits a; t_hidden_states := t_hidden_states a;
         causal_t_logits := causal_t_logits a;
         causal_t_hidden_states := causal_t_hidden_states a;
         s_logits := s_logits a; s_hidden_states := s_hidden_states a;
         temperature := temperature a; restrict_ce_to_mask := restrict_ce_to_mask a;
         lm_labels := lm_labels a;
         alpha_mlm := 0; alpha_clm := alpha_clm a;
         alpha_mse := alpha_mse a; alpha_cos := alpha_cos a |} = ret (Dict o).
Proof.
  intros Hrun Hcausal [t Ht] Hmlm Hclm.
  apply forward_dict in Hrun as (st & Hextra & _ & Hrun & Hback).
  unfold distillation_losses in Hrun. rewrite Hcausal, Ht in Hrun.
  apply regular_losses_clm in Hrun as (Hlogits & Hkey & Hvalue & Hsame); [|done..].
  rewrite Hlogits. split; [|split; [done|]].
  - apply Hkey. by rewrite Hextra.
  - apply Hback. unfold distillation_losses. cbn [causal_t_logits t_logits].
    by rewrite Hcausal, Ht.
Qed.

(** The plain branch writes ["loss_ce"], and each further key only under
    a positive weight: ["loss_mlm"] under [alpha_mlm] or [alpha_clm],
    ["loss_mse"] under [alpha_mse], ["loss_cos"] under [alpha_cos]. *)
Lemma regular_losses_keys self (am : option mask) (a : loss_args) (t : tensor) st o (k : string) :
  regular_losses self am a t st = ret o →
  k ≠ "loss_ce" →
  (k = "loss_mlm" → ¬ 0 < alpha_mlm a ∧ ¬ 0 < alpha_clm a) →
  (k = "loss_mse" → ¬ 0 < alpha_mse a) →
  (k = "loss_cos" → ¬ 0 < alpha_cos a) →
  loss o = loss st ∧ extra o !! k = extra st !! k.
Proof.
  unfold regular_losses. intros Hrun Hce Hmlm Hmse Hcos.
  destruct (t_hidden_states a) as [ths|]; [|done]. cbn [from_option] in Hrun.
  rewrite ?bind_inr in Hrun.
  destruct (hidden_states st) as [shs|]; [|done]. cbn [from_option] in Hrun.
  rewrite ?bind_inr in Hrun.
  destruct (assert _) as [?|[]]; [done|]. rewrite ?bind_inr in Hrun.
  destruct (soft_target_block _ _ _ _ _ _) as [?|[[ss ts] loss_ce]]; [done|].
  rewrite ?bind_inr in Hrun.
  destruct (decide (0 < alpha_mlm a)) as [Ha1|Ha1].
  - destruct (rows (size_last (logits st)) (logits st)) as [?|input]; [done|].
    rewrite ?bind_inr in Hrun.
    destruct (lm_labels a) as [labels|]; [|done]. cbn [from_option] in Hrun.
    rewrite ?bind_inr in Hrun.
    destruct (lm_loss_fct input _) as [?|loss_mlm]; [done|]. rewrite ?bind_inr in Hrun.
    destruct (decide (0 < alpha_clm a)) as [Ha2|Ha2].
    + cbn [from_option] in Hrun. rewrite ?bind_inr in Hrun.
      destruct (rows _ (_ <$> logits st)) as [?|input']; [done|]. rewrite ?bind_inr in Hrun.
      destruct (lm_loss_fct input' _) as [?|loss_clm]; [done|]. rewrite ?bind_inr in Hrun.
      destruct (decide (0 < alpha_cos a)), (decide (0 < alpha_mse a));
        [destruct (cosine_block _ _ _ _) as [?|c]; [done|]; rewrite ?bind_inr in Hrun..| |];
        injection Hrun as <-; rewrite ?set_item_loss;
        (split; [done|]); rewrite ?set_item_lookup_ne; first [done | intros <-; tauto].
    + rewrite ?bind_inr in Hrun.
      destruct (decide (0 < alpha_cos a)), (decide (0 < alpha_mse a));
        [destruct (cosine_block _ _ _ _) as [?|c]; [done|]; rewrite ?bind_inr in Hrun..| |];
        injection Hrun as <-; rewrite ?set_item_loss;
        (split; [done|]); rewrite ?set_item_lookup_ne; first [done | intros <-; tauto].
  - rewrite ?bind_inr in Hrun.
    destruct (decide (0 < alpha_clm a)) as [Ha2|Ha2].
    + destruct (lm_labels a) as [labels|]; [|done]. cbn [from_option] in Hrun.
      rewrite ?bind_inr in Hrun.
      destruct (rows _ (_ <$> logits st)) as [?|input']; [done|]. rewrite ?bind_inr in Hrun.
      destruct (lm_loss_fct input' _) as [?|loss_clm]; [done|]. rewrite ?bind_inr in Hrun.
      destruct (decide (0 < alpha_cos a)), (decide (0 < alpha_mse a));
        [destruct (cosine_block _ _ _ _) as [?|c]; [done|]; rewrite ?bind_inr in Hrun..| |];
        injection Hrun as <-; rewrite ?set_item_loss;
        (split; [done|]); rewrite ?set_item_lookup_ne; first [done | intros <-; tauto].
    + rewrite ?bind_inr in Hrun.
      destruct (decide (0 < alpha_cos a)), (decide (0 < alpha_mse a));
        [destruct (cosine_block _ _ _ _) as [?|c]; [done|]; rewrite ?bind_inr in Hrun..| |];
        injection Hrun as <-; rewrite ?set_item_loss;
        (split; [done|]); rewrite ?set_item_lookup_ne; first [done | intros <-; tauto].
Qed.

(** The plain branch keeps the logits and leaves under ["loss_ce"] the
    soft-target loss of the student logits against the teacher logits. *)
Lemma regular_losses_ce self (am : option mask) (a : loss_args) (t : tensor) st o :
  regular_losses self am a t st = ret o →
  logits o = logits st
  ∧ ∃ ss ts v,
      soft_target_block (restrict_ce_to_mask a) (lm_labels a) am (logits st) t (temperature a)
      = ret (ss, ts, v)
      ∧ extra o !! "loss_ce" = Some v.
Proof.
  unfold regular_losses. intros Hrun.
  destruct (t_hidden_states a) as [ths|]; [|done]. cbn [from_option] in Hrun.
  rewrite ?bind_inr in Hrun.
  destruct (hidden_states st) as [shs|]; [|done]. cbn [from_option] in Hrun.
  rewrite ?bind_inr in Hrun.
  destruct (assert _) as [?|[]]; [done|]. rewrite ?bind_inr in Hrun.
  destruct (soft_target_block _ _ _ _ _ _) as [?|[[ss ts] loss_ce]]; [done|].
  rewrite ?bind_inr in Hrun.
  assert (∀ o' : MaskedLMOutput (W := W),
            logits o' = logits st → extra o' !! "loss_ce" = Some loss_ce →
            logits o' = logits st
            ∧ ∃ ss' ts' v, inr (ss, ts, loss_ce) = ret (ss', ts', v)
                         ∧ extra o' !! "loss_ce" = Some v) as Hdone.
  { intros o' ? ?. split; [done|]. by exists ss, ts, loss_ce. }
  destruct (decide (0 < alpha_mlm a)) as [Ha1|Ha1].
  - destruct (rows (size_last (logits st)) (logits st)) as [?|input]; [done|].
    rewrite ?bind_inr in Hrun.
    destruct (lm_labels a) as [labels|]; [|done]. cbn [from_option] in Hrun.
    rewrite ?bind_inr in Hrun.
    destruct (lm_loss_fct input _) as [?|loss_mlm]; [done|]. rewrite ?bind_inr in Hrun.
    destruct (decide (0 < alpha_clm a)) as [Ha2|Ha2].
    + cbn [from_option] in Hrun. rewrite ?bind_inr in Hrun.
      destruct (rows _ (_ <$> logits st)) as [?|input']; [done|]. rewrite ?bind_inr in Hrun.
      destruct (lm_loss_fct input' _) as [?|loss_clm]; [done|]. rewrite ?bind_inr in Hrun.
      destruct (decide (0 < alpha_cos a)), (decide (0 < alpha_mse a));
        [destruct (cosine_block _ _ _ _) as [?|c]; [done|]; rewrite ?bind_inr in Hrun..| |];
        injection Hrun as <-; (apply Hdone; [done|]);
        rewrite ?set_item_lookup_ne by done; cbn; by rewrite lookup_insert_eq.
    + rewrite ?bind_inr in Hrun.
      destruct (decide (0 < alpha_cos a)), (decide (0 < alpha_mse a));
        [destruct (cosine_block _ _ _ _) as [?|c]; [done|]; rewrite ?bind_inr in Hrun..| |];
        injection Hrun as <-; (apply Hdone; [done|]);
        rewrite ?set_item_lookup_ne by done; cbn; by rewrite lookup_insert_eq.
  - rewrite ?bind_inr in Hrun.
    destruct (decide (0 < alpha_clm a)) as [Ha2|Ha2].
    + destruct (lm_labels a) as [labels|]; [|done]. cbn [from_option] in Hrun.
      rewrite ?bind_inr in Hrun.
      destruct (rows _ (_ <$> logits st)) as [?|input']; [done|]. rewrite ?bind_inr in Hrun.
      destruct (lm_loss_fct input' _) as [?|loss_clm]; [done|]. rewrite ?bind_inr in Hrun.
      destruct (decide (0 < alpha_cos a)), (decide (0 < alpha_mse a));
        [destruct (cosine_block _ _ _ _) as [?|c]; [done|]; rewrite ?bind_inr in Hrun..| |];
        injection Hrun as <-; (apply Hdone; [done|]);
        rewrite ?set_item_lookup_ne by done; cbn; by rewrite lookup_insert_eq.
    + rewrite ?bind_inr in Hrun.
      destruct (decide (0 < alpha_cos a)), (decide (0 < alpha_mse a));
        [destruct (cosine_block _ _ _ _) as [?|c]; [done|]; rewrite ?bind_inr in Hrun..| |];
        injection Hrun as <-; (apply Hdone; [done|]);
        rewrite ?set_item_lookup_ne by done; cbn; by rewrite lookup_insert_eq.
Qed.

(** In the plain branch, the key ["loss_ce"] of the mapping [forward]
    returns holds the soft-target loss of its logits against the teacher
    logits. *)
Lemma forward_loss_ce self (input_ids : option (list (list Z))) (am : option mask)
    (hm : option (list HM)) (embeds : option tensor) (labels : option (list (list Z)))
    (oa ohs rd : option bool) (args : Encoder.interchange_args) (a : loss_args) o
    (t : tensor) :
  forward self input_ids am hm embeds labels oa ohs rd args a = ret (Dict o) →
  causal_t_logits a = None → t_logits a = Some t →
  ∃ ss ts v,
    soft_target_block (restrict_ce_to_mask a) (lm_labels a) am (logits o) t (temperature a)
    = ret (ss, ts, v)
    ∧ extra o !! "loss_ce" = Some v.
Proof.
  intros Hrun Hcausal Ht.
  apply forward_dict in Hrun as (st & _ & _ & Hrun & _).
  unfold distillation_losses in Hrun. rewrite Hcausal, Ht in Hrun.
  apply regular_losses_ce in Hrun as (-> & Hce). exact Hce.
Qed.

(** The causal branch needs teacher logits and writes only its two keys. *)
Lemma causal_losses_keys self (am : option mask) (a : loss_args) (t : tensor) st o (k : string) :
  causal_losses self am a t st = ret o →
  k ≠ "causal_loss_ce" → k ≠ "causal_loss_cos" →
  is_Some (t_logits a) ∧ loss o = loss st ∧ extra o !! k = extra st !! k.
Proof.
  unfold causal_losses. intros Hrun Hce Hcos.
  step Hrun. repeat step Hrun.
  destruct p as [[ss ts] loss_ce]. step Hrun.
  injection Hrun as <-. split; [by apply bool_decide_eq_true in Hc|]. split; [done|].
  by rewrite !set_item_lookup_ne.
Qed.

(** What the absence of an input or a zero weight leaves out of the
    returned [student_outputs]: the part of C8 on the loss terms that
    holds, the key ["loss_mlm"] being free only when both LM weights are
    zero. *)
Lemma absent_inputs_skip_terms self (input_ids : option (list (list Z))) (am : option mask)
    (hm : option (list HM)) (embeds : option tensor) (labels : option (list (list Z)))
    (oa ohs rd : option bool) (args : Encoder.interchange_args) (a : loss_args) o :
  forward self input_ids am hm embeds labels oa ohs rd args a = ret (Dict o) →
  (labels = None → loss o = None)
  ∧ (t_logits a = None → extra o !! "loss_ce" = None)
  ∧ (¬ 0 < alpha_mlm a → ¬ 0 < alpha_clm a → extra o !! "loss_mlm" = None)
  ∧ extra o !! "loss_clm" = None
  ∧ (¬ 0 < alpha_mse a → extra o !! "loss_mse" = None)
  ∧ (¬ 0 < alpha_cos a → extra o !! "loss_cos" = None).
Proof.
  intros Hrun. apply forward_dict in Hrun as (st & Hextra & Hloss & Hrun & _).
  unfold distillation_losses in Hrun.
  destruct (causal_t_logits a) as [ct|].
  - assert (∀ k, k ≠ "causal_loss_ce" → k ≠ "causal_loss_cos" →
              is_Some (t_logits a) ∧ loss o = loss st ∧ extra o !! k = None) as Hk.
    { intros k ??. destruct (causal_losses_keys _ _ _ _ _ _ k Hrun) as (? & ? & ->); [done..|].
      by rewrite Hextra. }
    split; [|split; [|repeat split; intros; by apply Hk]].
    + destruct (Hk "loss_ce") as (_ & -> & _); auto.
    + destruct (Hk "loss_ce") as ([? Ht] & _); [done..|]. congruence.
  - destruct (t_logits a) as [t|].
    + assert (∀ k, k ≠ "loss_ce" →
                (k = "loss_mlm" → ¬ 0 < alpha_mlm a ∧ ¬ 0 < alpha_clm a) →
                (k = "loss_mse" → ¬ 0 < alpha_mse a) →
                (k = "loss_cos" → ¬ 0 < alpha_cos a) →
                loss o = loss st ∧ extra o !! k = None) as Hk.
      { intros k ????. destruct (regular_losses_keys _ _ _ _ _ _ k Hrun) as (? & ->); [done..|].
        by rewrite Hextra. }
      split; [|split; [done|repeat split; intros; apply Hk; first [done | intros; tauto]]].
      destruct (Hk "loss_clm") as (-> & _); auto; done.
    + injection Hrun as <-. rewrite Hextra. repeat split; auto.
Qed.

End Keys.

(** *** The toy model *)

Ltac toy_prefix :=
  unfold Toy.toy_forward, forward; cbn;
  rewrite bool_decide_eq_true_2 by done; cbn;
  assert (expand_as [[true; true]] [[[1; 2]; [3; 4]]]
          = ret [[[true; true]; [true; true]]]) as -> by reflexivity;
  cbn;
  assert (slct [[[1; 2]; [3; 4]]] [[[true; true]; [true; true]]] 2
          = ret [[1; 2]; [3; 4]]) as -> by reflexivity;
  cbn; rewrite bool_decide_eq_true_2 by done; cbn.

Ltac toy_clm :=
  rewrite (decide_True (P := 0 < 1)) by lra;
  assert (rows 2 [[[1; 2]]] = ret [[1; 2]]) as -> by reflexivity;
  cbn;
  (let H := fresh in
   eassert (lm_loss_fct [[1; 2]] [1%Z] = ret _) as H by reflexivity;
   rewrite H; clear H);
  cbn; rewrite !(decide_False (P := 0 < 0)) by lra.

Lemma toy_forward_both : ∃ o, Toy.toy_forward 1 1 = ret (Dict o).
Proof.
  eexists. toy_prefix.
  rewrite (decide_True (P := 0 < 1)) by lra.
  assert (rows 2 [[[1; 2]; [3; 4]]] = ret [[1; 2]; [3; 4]]) as -> by reflexivity.
  cbn.
  (let H := fresh in
   eassert (lm_loss_fct [[1; 2]; [3; 4]] [0%Z; 1%Z] = ret _) as H by reflexivity;
   rewrite H; clear H).
  cbn. toy_clm. reflexivity.
Defined.

Lemma clm_overwrites_mlm_witness :
  ∃ o, Toy.toy_forward 1 1 = ret (Dict o) ∧ extra o !! "loss_clm" = None.
Proof.
  destruct toy_forward_both as [o Ho]. exists o. split; [exact Ho|].
  apply (clm_overwrites_mlm Toy.toy_model (Some [[5; 6]]%Z) (Some [[true; true]])
           None None None None (Some true) None (Encoder.mkArgs None None [] [])
           (Toy.toy_args 1 1) o Ho);
    cbn; [done|by eexists|lra|lra].
Defined.

(** C8 at a call with teacher logits, [alpha_mlm = 0] and [alpha_clm = 1]:
    the masked-LM weight is zero, yet the returned mapping has the key
    ["loss_mlm"]. *)
Theorem clm_weight_alone_writes_mlm_key :
  ∃ o, Toy.toy_forward 0 1 = ret (Dict o)
     ∧ alpha_mlm (Toy.toy_args 0 1) = 0
     ∧ is_Some (extra o !! "loss_mlm").
Proof.
  eexists. split; [|split; [reflexivity|]].
  - toy_prefix. rewrite (decide_False (P := 0 < 0)) by lra. cbn. toy_clm. reflexivity.
  - cbn. rewrite lookup_insert_eq. by eexists.
Qed.

End LossFacts.

(** ** More on the error monad *)

Lemma mapM_raises {X Y} (f : X → result Y) (l : list X) (e : exn) (x : X) :
  x ∈ l → f x = raise e → (∀ y e', y ∈ l → f y = raise e' → e' = e) →
  mapM f l = raise e.
Proof.
  intros Hx Hfx Honly. induction l as [|y l IH]; [by apply not_elem_of_nil in Hx|].
  cbn. destruct (f y) as [e'|z] eqn:Hy.
  { by rewrite (Honly y e' (list_elem_of_here _ _) Hy). }
  cbn. apply elem_of_cons in Hx as [->|Hx]; [by rewrite Hfx in Hy|].
  rewrite IH; [done..|]. intros y' e' Hy'. apply Honly. by right.
Qed.

Lemma mapM_length {X Y} (f : X → result Y) (l : list X) (k : list Y) :
  mapM f l = ret k → length k = length l.
Proof.
  revert k. induction l as [|x l IH]; intros k Hrun.
  { by injection Hrun as <-. }
  cbn in Hrun. destruct (f x) as [e|y]; [done|]. cbn in Hrun.
  destruct (mapM f l) as [e|ys]; [done|]. cbn in Hrun. injection Hrun as <-.
  cbn. f_equal. by apply IH.
Qed.

(** ** Outcomes and invariants of head pruning *)

Module PruneLaws.

Import Prune PruneFacts.

(** Once the mask is lost to an [IndexError], the loop has nothing to
    return. *)
Lemma mask_out_raised (hs : nat) (P : gset nat) (l : list nat) :
  foldl (mask_out hs P) (raise IndexError) l = raise IndexError.
Proof. induction l as [|h l IH]; [done|]. exact IH. Qed.

Lemma mask_out_unknown (hs : nat) (P : gset nat) (l : list nat) (m : list (list bool)) (h : nat) :
  h ∈ l → length m ≤ h - pruned_before P h →
  foldl (mask_out hs P) (ret m) l = raise IndexError.
Proof.
  revert m. induction l as [|x l IH]; intros m Hin Hout.
  { by apply not_elem_of_nil in Hin. }
  cbn [foldl]. unfold mask_out at 2. cbn.
  destruct (decide (x - pruned_before P x < length m)) as [Hx|Hx].
  - apply elem_of_cons in Hin as [->|Hin]; [lia|].
    apply IH; [done|]. by rewrite length_insert.
  - apply mask_out_raised.
Qed.

Lemma pruned_before_all (P : gset nat) (h : nat) :
  (∀ p, p ∈ P → p < h) → pruned_before P h = size P.
Proof.
  intros HP. rewrite pruned_before_filter. unfold size, set_size; simpl. f_equal.
  apply filter_all. intros x Hx. apply HP. by apply elem_of_elements.
Qed.

(** A head index the module never had stops [prune_heads]. *)
Lemma prune_heads_unknown (m : MultiHeadSelfAttention) (heads : list nat) (h : nat) :
  wf m → 0 < num_attention_heads m →
  h ∈ heads → num_attention_heads m + size (pruned_heads m) ≤ h →
  prune_heads heads m = raise IndexError.
Proof.
  intros Hwf Hn Hin Hh.
  assert (∀ p, p ∈ pruned_heads m → p < h) as HP.
  { intros p Hp. apply (wf_pruned m Hwf) in Hp. lia. }
  unfold prune_heads, floordiv. rewrite decide_False by lia. cbn.
  rewrite decide_False by (destruct heads; [by apply not_elem_of_nil in Hin|done]).
  unfold find_pruneable_heads_and_indices.
  rewrite (mask_out_unknown _ _ _ _ h); [done| |].
  - apply elem_of_elements, elem_of_difference. split; [by apply elem_of_list_to_set|].
    intros Hp. apply HP in Hp. lia.
  - rewrite length_replicate, pruned_before_all by done. lia.
Qed.

Lemma valid_heads_dec (m : MultiHeadSelfAttention) (heads : list nat) :
  valid_heads m heads
  ∨ ∃ h, h ∈ heads ∧ num_attention_heads m + size (pruned_heads m) ≤ h.
Proof.
  destruct (decide (Forall (λ h, h < num_attention_heads m + size (pruned_heads m)) heads))
    as [Hall|Hex].
  - left. intros h Hh. by eapply Forall_forall in Hall.
  - right. apply not_Forall_Exists in Hex; [|apply _].
    apply Exists_exists in Hex as (h & Hh & Hlt). exists h. split; [done|]. simpl in Hlt. lia.
Qed.

(** What a call that returns tells about its arguments. *)
Lemma prune_heads_returns (m m' : MultiHeadSelfAttention) (heads : list nat) :
  wf m → prune_heads heads m = ret m' →
  0 < num_attention_heads m ∧ valid_heads m heads.
Proof.
  intros Hwf Hrun.
  assert (0 < num_attention_heads m) as Hn.
  { destruct (num_attention_heads m) eqn:Hz; [|lia].
    unfold prune_heads, floordiv in Hrun. rewrite Hz in Hrun. done. }
  split; [done|].
  destruct (valid_heads_dec m heads) as [Hv|(h & Hh & Hout)]; [done|].
  by rewrite (prune_heads_unknown m heads h) in Hrun.
Qed.

(** The three outcomes of [prune_heads] on a module in the state
    [__init__] and earlier prunings leave it in: a module without heads
    divides by zero whatever the heads are, a head index the module never
    had is an [IndexError], and any list of known indices is pruned. *)
Theorem prune_heads_outcomes (m : MultiHeadSelfAttention) (heads : list nat) :
  wf m →
  (num_attention_heads m = 0 → prune_heads heads m = raise ZeroDivisionError)
  ∧ (0 < num_attention_heads m →
     (∃ h, h ∈ heads ∧ num_attention_heads m + size (pruned_heads m) ≤ h) →
     prune_heads heads m = raise IndexError)
  ∧ (0 < num_attention_heads m → valid_heads m heads →
     ∃ m', prune_heads heads m = ret m').
Proof.
  intros Hwf. split; [|split].
  - intros Hz. unfold prune_heads, floordiv. by rewrite Hz.
  - intros Hn (h & Hh & Hout). by apply (prune_heads_unknown m heads h).
  - intros Hn Hvalid. destruct (decide (heads = [])) as [->|Hne].
    + exists m. by apply prune_heads_nil.
    + eexists. by apply prune_heads_spec.
Qed.

Lemma prune_heads_outcomes_witness :
  (num_attention_heads Toy.four_heads = 0 →
   prune_heads [1; 4] Toy.four_heads = raise ZeroDivisionError)
  ∧ (0 < num_attention_heads Toy.four_heads →
     (∃ h, h ∈ [1; 4]
         ∧ num_attention_heads Toy.four_heads + size (pruned_heads Toy.four_heads) ≤ h) →
     prune_heads [1; 4] Toy.four_heads = raise IndexError)
  ∧ (0 < num_attention_heads Toy.four_heads → valid_heads Toy.four_heads [1; 4] →
     ∃ m', prune_heads [1; 4] Toy.four_heads = ret m').
Proof. apply (prune_heads_outcomes Toy.four_heads [1; 4]). exact four_heads_wf. Defined.

(** Whenever [prune_heads] returns, the module is again in that state:
    the projections have the width [dim], which is the old head size times
    the heads left; heads pruned before stay pruned; and the heads left and
    the heads pruned still add up to the heads of the construction. *)
Theorem prune_heads_keeps_invariant (m m' : MultiHeadSelfAttention) (heads : list nat) :
  wf m → prune_heads heads m = ret m' →
  wf m'
  ∧ pruned_heads m ⊆ pruned_heads m'
  ∧ num_attention_heads m' + size (pruned_heads m')
    = num_attention_heads m + size (pruned_heads m)
  ∧ dim m' = dim m / num_attention_heads m * num_attention_heads m'.
Proof.
  intros Hwf Hrun.
  destruct (prune_heads_returns m m' heads Hwf Hrun) as [Hn Hvalid].
  destruct (prune_heads_wf m m' heads Hwf Hn Hvalid Hrun) as (Hwf' & _ & Hsum).
  split; [done|]. split; [|split; [done|]].
  - destruct (decide (heads = [])) as [->|Hne].
    + rewrite prune_heads_nil in Hrun by done. by injection Hrun as <-.
    + rewrite prune_heads_spec in Hrun by done. injection Hrun as <-. simpl.
      apply union_subseteq_l.
  - destruct (decide (heads = [])) as [->|Hne].
    + rewrite prune_heads_nil in Hrun by done. injection Hrun as <-.
      pose proof (wf_div m Hwf) as Hdiv. apply Nat.Div0.div_exact in Hdiv. lia.
    + rewrite prune_heads_spec in Hrun by done. by injection Hrun as <-.
Qed.

Lemma prune_heads_keeps_invariant_witness :
  wf Samples.two_of_four
  ∧ pruned_heads Toy.four_heads ⊆ pruned_heads Samples.two_of_four
  ∧ num_attention_heads Samples.two_of_four + size (pruned_heads Samples.two_of_four)
    = num_attention_heads Toy.four_heads + size (pruned_heads Toy.four_heads)
  ∧ dim Samples.two_of_four
    = dim Toy.four_heads / num_attention_heads Toy.four_heads
      * num_attention_heads Samples.two_of_four.
Proof.
  apply (prune_heads_keeps_invariant Toy.four_heads Samples.two_of_four [1; 3]).
  - exact four_heads_wf.
  - vm_compute. reflexivity.
Defined.

(** Pruning in two calls is pruning the two lists of heads in one call:
    whenever both calls return, the single call returns the same module
    (head count, width, projection shapes and pruned heads). *)
Theorem prune_heads_compose (m m1 m2 : MultiHeadSelfAttention) (heads1 heads2 : list nat) :
  wf m → prune_heads heads1 m = ret m1 → prune_heads heads2 m1 = ret m2 →
  prune_heads (heads1 ++ heads2) m = ret m2.
Proof.
  intros Hwf Hrun1 Hrun2.
  destruct (prune_heads_returns m m1 heads1 Hwf Hrun1) as [Hn Hvalid1].
  destruct (prune_heads_wf m m1 heads1 Hwf Hn Hvalid1 Hrun1) as (Hwf1 & _ & Hsum).
  destruct (prune_heads_returns m1 m2 heads2 Hwf1 Hrun2) as [Hn1 Hvalid2].
  destruct (decide (heads1 = [])) as [->|Hne1].
  { rewrite prune_heads_nil in Hrun1 by done. injection Hrun1 as <-. exact Hrun2. }
  destruct (decide (heads2 = [])) as [->|Hne2].
  { rewrite prune_heads_nil in Hrun2 by done. injection Hrun2 as <-.
    by rewrite app_nil_r. }
  assert (valid_heads m (heads1 ++ heads2)) as Hvalid.
  { intros h Hh. apply elem_of_app in Hh as [Hh|Hh]; [by apply Hvalid1|].
    apply Hvalid2 in Hh. lia. }
  rewrite prune_heads_spec by (try done; by destruct heads1).
  rewrite prune_heads_spec in Hrun2 by done.
  rewrite prune_heads_spec in Hrun1 by done.
  injection Hrun1 as <-. injection Hrun2 as <-. simpl in *.
  set (P := pruned_heads m) in *.
  set (A := list_to_set heads1 ∖ P : gset nat) in *.
  set (B := list_to_set heads2 ∖ (P ∪ A) : gset nat) in *.
  assert (list_to_set (heads1 ++ heads2) ∖ P = A ∪ B) as ->.
  { rewrite list_to_set_app_L. unfold B, A. apply set_eq. intros x.
    repeat (rewrite elem_of_union || rewrite elem_of_difference).
    destruct (decide (x ∈ (list_to_set heads1 : gset nat))); tauto. }
  assert (size (A ∪ B) = size A + size B) as ->.
  { apply size_union. unfold B. intros x HA HB.
    apply elem_of_difference in HB as [_ HB]. apply HB, elem_of_union. by right. }
  rewrite Nat.div_mul by lia.
  rewrite (assoc_L (∪)), !Nat.sub_add_distr. done.
Qed.

Lemma prune_heads_compose_witness :
  prune_heads ([1] ++ [3]) Toy.four_heads = ret Samples.two_of_four.
Proof.
  apply (prune_heads_compose Toy.four_heads Samples.three_of_four).
  - exact four_heads_wf.
  - vm_compute. reflexivity.
  - vm_compute. reflexivity.
Defined.

(** The calls [attention.prune_heads(...)] made one after the other on a
    module. *)
Lemma pruning_calls_invariant (c total : nat) (m0 m : MultiHeadSelfAttention)
    (calls : list (list nat)) :
  wf m0 → dim m0 = c * num_attention_heads m0 →
  num_attention_heads m0 + size (pruned_heads m0) = total →
  foldM (λ m heads, prune_heads heads m) m0 calls = ret m →
  wf m
  ∧ dim m = c * num_attention_heads m
  ∧ num_attention_heads m + size (pruned_heads m) = total
  ∧ in_features (q_lin m) = in_features (q_lin m0)
  ∧ in_features (k_lin m) = in_features (k_lin m0)
  ∧ in_features (v_lin m) = in_features (v_lin m0)
  ∧ out_features (out_lin m) = out_features (out_lin m0).
Proof.
  revert m0. induction calls as [|heads calls IH]; intros m0 Hwf Hdim Htotal Hrun.
  { injection Hrun as <-. done. }
  cbn [foldM] in Hrun.
  destruct (prune_heads heads m0) as [e|m1] eqn:Hcall; [done|]. rewrite bind_inr in Hrun.
  destruct (prune_heads_returns m0 m1 heads Hwf Hcall) as [Hn Hvalid].
  destruct (prune_heads_wf m0 m1 heads Hwf Hn Hvalid Hcall) as (Hwf1 & _ & Hsum).
  assert (dim m1 = c * num_attention_heads m1
          ∧ in_features (q_lin m1) = in_features (q_lin m0)
          ∧ in_features (k_lin m1) = in_features (k_lin m0)
          ∧ in_features (v_lin m1) = in_features (v_lin m0)
          ∧ out_features (out_lin m1) = out_features (out_lin m0)) as (Hd & Hq & Hk & Hv & Ho).
  { destruct (decide (heads = [])) as [->|Hne].
    - rewrite prune_heads_nil in Hcall by done. by injection Hcall as <-.
    - rewrite prune_heads_spec in Hcall by done. injection Hcall as <-. simpl.
      rewrite Hdim, Nat.div_mul by lia. done. }
  destruct (IH m1) as (? & ? & ? & Hq' & Hk' & Hv' & Ho'); [done|done|lia|done|].
  rewrite Hq', Hk', Hv', Ho'. done.
Qed.

(** A module built by [__init__] and pruned any number of times: after
    the calls that return, the heads left and the heads pruned are the
    heads of the construction, the width is the head size of the
    construction times the heads left, the query, key and value
    projections map the hidden size to that width and the output projection
    maps it back to the hidden size. *)
Theorem pruning_keeps_head_size (hidden_size heads : nat) (m0 m : MultiHeadSelfAttention)
    (calls : list (list nat)) :
  init hidden_size heads = ret m0 →
  foldM (λ m heads, prune_heads heads m) m0 calls = ret m →
  num_attention_heads m + size (pruned_heads m) = heads
  ∧ dim m = hidden_size / heads * num_attention_heads m
  ∧ q_lin m = mkLinear hidden_size (dim m)
  ∧ k_lin m = mkLinear hidden_size (dim m)
  ∧ v_lin m = mkLinear hidden_size (dim m)
  ∧ out_lin m = mkLinear (dim m) hidden_size.
Proof.
  intros Hinit Hrun.
  destruct (init_wf hidden_size heads m0 Hinit) as [Hwf Hn].
  unfold init in Hinit. destruct (decide (heads = 0)); [done|].
  destruct (bool_decide (hidden_size mod heads = 0)) eqn:Hdiv; [|done].
  apply bool_decide_eq_true in Hdiv. cbn in Hinit. injection Hinit as <-.
  destruct (pruning_calls_invariant (hidden_size / heads) heads _ m calls Hwf)
    as (Hwf' & Hdim & Hsum & Hq & Hk & Hv & Ho); [| |exact Hrun|].
  - simpl. apply Nat.Div0.div_exact in Hdiv. lia.
  - cbn [pruned_heads num_attention_heads]. rewrite size_empty. lia.
  - simpl in *. split; [done|]. split; [done|].
    pose proof (wf_q m Hwf'). pose proof (wf_k m Hwf').
    pose proof (wf_v m Hwf'). pose proof (wf_o m Hwf').
    destruct (q_lin m), (k_lin m), (v_lin m), (out_lin m); simpl in *. by subst.
Qed.

Lemma pruning_keeps_head_size_witness :
  num_attention_heads Samples.two_of_four + size (pruned_heads Samples.two_of_four) = 4
  ∧ dim Samples.two_of_four = 16 / 4 * num_attention_heads Samples.two_of_four
  ∧ q_lin Samples.two_of_four = mkLinear 16 (dim Samples.two_of_four)
  ∧ k_lin Samples.two_of_four = mkLinear 16 (dim Samples.two_of_four)
  ∧ v_lin Samples.two_of_four = mkLinear 16 (dim Samples.two_of_four)
  ∧ out_lin Samples.two_of_four = mkLinear (dim Samples.two_of_four) 16.
Proof.
  apply (pruning_keeps_head_size 16 4 Toy.four_heads Samples.two_of_four [[1]; []; [3; 1]]).
  - vm_compute. reflexivity.
  - vm_compute. reflexivity.
Defined.

End PruneLaws.

(** ** Pruning a stack of blocks *)

Module StackFacts.

Import Prune PruneFacts Stack.

Lemma abs_index_position (n : nat) (idx : Z) (i : nat) :
  abs_index n idx = ret i → position n idx = Some i.
Proof. unfold abs_index. destruct (position n idx); [|done]. by intros [= ->]. Qed.

Lemma prune_layer_spec (layer layer' : list MultiHeadSelfAttention) (item : Z * list nat) :
  prune_layer layer item = ret layer' →
  ∃ i a a', position (length layer) item.1 = Some i
          ∧ layer !! i = Some a ∧ prune_heads item.2 a = ret a'
          ∧ layer' = <[i := a']> layer.
Proof.
  unfold prune_layer. intros Hrun.
  destruct (abs_index _ _) as [e|i] eqn:Hi; [done|]. rewrite bind_inr in Hrun.
  destruct (layer !! i) as [a|] eqn:Ha; [|done]. cbn [from_option] in Hrun.
  rewrite bind_inr in Hrun.
  destruct (prune_heads item.2 a) as [e|a'] eqn:Hp; [done|]. rewrite bind_inr in Hrun.
  injection Hrun as <-. apply abs_index_position in Hi. by exists i, a, a'.
Qed.

(** When [_prune_heads] returns, the stack has as many blocks as before,
    and the attention module of each block is the one it had, pruned by the
    calls the entries make for that block, in their order: a block no entry
    names is as it was. *)
Theorem _prune_heads_by_block (heads_to_prune : list (Z * list nat))
    (layer layer' : list MultiHeadSelfAttention) :
  _prune_heads heads_to_prune layer = ret layer' →
  length layer' = length layer
  ∧ ∀ i a, layer !! i = Some a →
      ∃ a', layer' !! i = Some a'
          ∧ foldM (λ m heads, prune_heads heads m) a
              (calls_for (length layer) i heads_to_prune) = ret a'.
Proof.
  unfold _prune_heads. revert layer.
  induction heads_to_prune as [|item items IH]; intros layer Hrun.
  { injection Hrun as <-. split; [done|]. intros i a Ha. by exists a. }
  cbn [foldM] in Hrun.
  destruct (prune_layer layer item) as [e|layer1] eqn:Hstep; [done|].
  rewrite bind_inr in Hrun.
  apply prune_layer_spec in Hstep as (k & b & b' & Hk & Hb & Hcall & ->).
  destruct (IH _ Hrun) as [Hlen Hall]. rewrite length_insert in Hlen, Hall.
  split; [done|]. intros i a Ha.
  unfold calls_for. rewrite filter_cons.
  destruct (decide (i = k)) as [->|Hne].
  - rewrite decide_True by done. rewrite Ha in Hb. injection Hb as <-.
    destruct (Hall k b') as (a' & Ha' & Hrest).
    { apply list_lookup_insert_eq. by apply lookup_lt_Some in Ha. }
    exists a'. split; [done|]. rewrite fmap_cons. cbn [foldM]. by rewrite Hcall.
  - rewrite decide_False by (rewrite Hk; intros [= ->]; done).
    apply Hall. by rewrite list_lookup_insert_ne.
Qed.

Lemma _prune_heads_by_block_witness :
  length [Samples.three_of_four; Samples.two_of_four]
  = length [Toy.four_heads; Toy.four_heads]
  ∧ ∀ i a, [Toy.four_heads; Toy.four_heads] !! i = Some a →
      ∃ a', [Samples.three_of_four; Samples.two_of_four] !! i = Some a'
          ∧ foldM (λ m heads, prune_heads heads m) a
              (calls_for (length [Toy.four_heads; Toy.four_heads]) i
                 [(0%Z, [1]); ((-1)%Z, [3]); (1%Z, [1])]) = ret a'.
Proof.
  apply (_prune_heads_by_block [(0%Z, [1]); ((-1)%Z, [3]); (1%Z, [1])]
           [Toy.four_heads; Toy.four_heads]).
  vm_compute. reflexivity.
Defined.

(** An entry for a block the stack does not have keeps [_prune_heads]
    from returning. *)
Theorem _prune_heads_unknown_block (heads_to_prune : list (Z * list nat))
    (layer : list MultiHeadSelfAttention) (idx : Z) (heads : list nat) :
  (idx, heads) ∈ heads_to_prune →
  ¬ (- Z.of_nat (length layer) ≤ idx < Z.of_nat (length layer))%Z →
  ∃ e, _prune_heads heads_to_prune layer = raise e.
Proof.
  unfold _prune_heads. revert layer.
  induction heads_to_prune as [|item items IH]; intros layer Hin Hout.
  { by apply not_elem_of_nil in Hin. }
  cbn [foldM].
  destruct (prune_layer layer item) as [e|layer1] eqn:Hstep; [by exists e|].
  rewrite bind_inr.
  apply prune_layer_spec in Hstep as (k & b & b' & Hk & Hb & Hcall & ->).
  apply elem_of_cons in Hin as [<-|Hin].
  - unfold position in Hk. simpl in Hk. by rewrite decide_False in Hk.
  - apply IH; [done|]. by rewrite length_insert.
Qed.

Lemma _prune_heads_unknown_block_witness :
  ∃ e, _prune_heads [(0%Z, [1]); (2%Z, [0])] [Toy.four_heads; Toy.four_heads] = raise e.
Proof.
  apply (_prune_heads_unknown_block _ _ 2%Z [0]).
  - apply elem_of_cons. right. apply elem_of_cons. by left.
  - cbn. lia.
Defined.

End StackFacts.

(** ** What the encoder returns and what the interchange keeps *)

Module EncoderLaws.

Import Encoder EncoderFacts Frame.

Lemma broadcast_to_length {X} (n : nat) (l l' : list X) :
  broadcast_to n l = ret l' → length l' = n.
Proof.
  unfold broadcast_to. destruct (decide (length l = n)) as [Hl|Hl].
  - by intros [= <-].
  - destruct l as [|x [|??]]; [done| |done]. intros [= <-]. by rewrite length_replicate.
Qed.

Lemma mapM_broadcast_widths {X} (f : list X → nat) (dst v v' : list (list X)) :
  length v = length dst →
  mapM (λ p : list X * list X, broadcast_to (f p.1) p.2) (zip dst v) = ret v' →
  Forall2 (λ r x, length x = f r) dst v'.
Proof.
  revert v v'. induction dst as [|r dst IH]; intros [|x v] v' Hlen Hrun; try done.
  { injection Hrun as <-. constructor. }
  cbn in Hrun, Hlen.
  destruct (broadcast_to (f r) x) as [e|x'] eqn:Hx; [done|]. cbn in Hrun.
  destruct (mapM _ (zip dst v)) as [e|v1] eqn:Hv; [done|]. cbn in Hrun.
  injection Hrun as <-. constructor; [by eapply broadcast_to_length|].
  eapply IH; [|exact Hv]. lia.
Qed.

Lemma slice_bounds_le (n : nat) (a b : Z) :
  (slice_bounds n a b).1 ≤ n ∧ (slice_bounds n a b).2 ≤ n.
Proof.
  unfold slice_bounds. cbn. split.
  - destruct (decide (a < 0)%Z); lia.
  - destruct (decide (b < 0)%Z); lia.
Qed.

Lemma slice_set_kept {X} (a b : Z) (r v : list X) :
  length v = slice_width (length r) a b → kept a b true r (slice_set r a b v).
Proof.
  intros Hv. unfold slice_set, slice_width in *.
  destruct (slice_bounds_le (length r) a b) as [Hlo Hhi].
  set (lo := (slice_bounds (length r) a b).1) in *.
  set (hi := (slice_bounds (length r) a b).2) in *.
  split; [|split; [done|]].
  - rewrite !length_app, length_take, length_drop. lia.
  - intros c Hc. destruct (decide (c < lo)) as [Hlt|Hge].
    + rewrite lookup_app_l by (rewrite length_take; lia). by rewrite lookup_take_lt.
    + rewrite lookup_app_r by (rewrite length_take; lia).
      rewrite length_take, Nat.min_l by lia.
      rewrite lookup_app_r by lia. rewrite lookup_drop. f_equal. lia.
Qed.

Lemma kept_refl {X} (a b : Z) (s : bool) (r : list X) : kept a b s r r.
Proof. by split. Qed.

Lemma scatter_kept {X} (a b : Z) (sel : list bool) (rows vals : list (list X)) :
  length sel = length rows →
  Forall2 (λ r v, length v = slice_width (length r) a b) (select sel rows) vals →
  Forall2 (λ (p : bool * list X) r', kept a b p.1 p.2 r') (zip sel rows)
    (scatter a b sel rows vals).
Proof.
  revert rows vals. induction sel as [|s sel IH]; intros [|r rows] vals Hlen Hv;
    simplify_eq/=; [constructor|].
  rewrite select_cons in Hv. destruct s.
  - destruct vals as [|v vals]; [by inversion Hv|].
    apply Forall2_cons in Hv as [Hv Hvs].
    constructor; [by apply slice_set_kept|by apply IH].
  - constructor; [apply kept_refl|by apply IH].
Qed.

Lemma reshape_Forall2 {X Y} (R : X → Y → Prop) (ls : list (list X)) (flat : list Y) :
  Forall2 R (mjoin ls) flat → Forall2 (Forall2 R) ls (reshape (length <$> ls) flat).
Proof.
  revert flat. induction ls as [|l ls IH]; intros flat Hall; [constructor|].
  csimpl in *. apply Forall2_app_inv_l in Hall as (f1 & f2 & H1 & H2 & ->).
  pose proof (Forall2_length _ _ _ H1) as Hlen.
  rewrite Hlen, take_app_length, drop_app_length. constructor; [done|by apply IH].
Qed.

Lemma join_zip {X Y} (ls : list (list X)) (ks : list (list Y)) :
  Forall2 (λ l k, length l = length k) ls ks →
  mjoin (zip_with zip ls ks) = zip (mjoin ls) (mjoin ks).
Proof.
  induction 1 as [|l k ls ks Hlen _ IH]; [done|].
  csimpl. rewrite IH. by rewrite zip_with_app.
Qed.

Lemma Forall2_zip_lookup {X Y} (R : bool * X → Y → Prop) (mr : list bool)
    (e : list X) (e' : list Y) (j : nat) (r : X) :
  length mr = length e →
  Forall2 R (zip mr e) e' → e !! j = Some r →
  ∃ s r', mr !! j = Some s ∧ e' !! j = Some r' ∧ R (s, r) r'.
Proof.
  intros Hlen Hall Hr.
  destruct (lookup_lt_is_Some_2 mr j) as [s Hs].
  { rewrite Hlen. by eapply lookup_lt_Some. }
  assert (zip mr e !! j = Some (s, r)) as Hz.
  { rewrite (lookup_zip_with pair mr e j), Hs. cbn. by rewrite Hr. }
  destruct (Forall2_lookup_l _ _ _ _ _ Hall Hz) as (r' & Hr' & HR).
  by exists s, r'.
Qed.

Section Laws.

Context {A W HM : Type}.

Implicit Types (t : list (list (list A))) (m : list (list bool)).

(** *** What the loop collects *)

Lemma layers_collect (self : Transformer (A := A) (W := W) (HM := HM))
    m (hm : nat → HM) (oa ohs : bool) (args : interchange_args)
    (l : list (nat * block)) h hs ats h' hs' ats' :
  foldM (layer_step self m hm oa ohs args) (h, hs, ats) l = ret (h', hs', ats') →
  (if ohs then
     ∀ l0, hs = Some l0 →
       ∃ pre, hs' = Some (l0 ++ pre) ∧ length pre = length l
            ∧ head (pre ++ [h']) = Some h
   else hs' = hs)
  ∧ (if oa then
       ∀ w0, ats = Some w0 → ∃ ws, ats' = Some (w0 ++ ws) ∧ length ws = length l
     else ats' = ats).
Proof.
  revert h hs ats. induction l as [|[i f] l IH]; intros h hs ats Hrun.
  { injection Hrun as <- <- <-. split.
    - destruct ohs; [|done]. intros l0 ->. exists []. by rewrite app_nil_r.
    - destruct oa; [|done]. intros w0 ->. exists []. by rewrite app_nil_r. }
  cbn [foldM] in Hrun.
  destruct (layer_step self m hm oa ohs args (h, hs, ats) (i, f)) as [e|[[h1 hs1] ats1]] eqn:Hstep;
    [done|].
  rewrite bind_inr in Hrun. apply IH in Hrun as [Hhs Hats].
  unfold layer_step in Hstep. cbn in Hstep.
  destruct (match variable_names args with Some _ => _ | None => _ end) as [e|h1'];
    [done|].
  rewrite bind_inr in Hstep. injection Hstep as -> <- <-.
  split.
  - destruct ohs; [|done]. intros l0 ->.
    destruct (Hhs (l0 ++ [h])) as (pre & -> & Hlen & Hhead); [done|].
    exists (h :: pre). rewrite <- app_assoc. split; [done|]. split; [simpl; lia|done].
  - destruct oa; [|done]. intros w0 ->.
    destruct (Hats (w0 ++ [(f h m (hm i)).1])) as (ws & -> & Hlen); [done|].
    exists ((f h m (hm i)).1 :: ws). rewrite <- app_assoc. split; [done|]. simpl; lia.
Qed.

Lemma transformer_forward_collects (self : Transformer (A := A) (W := W) (HM := HM))
    (x : list (list (list A))) m (hm : nat → HM) (oa ohs : bool)
    (args : interchange_args) (out : BaseModelOutput) :
  transformer_forward self x m hm oa ohs args = ret out →
  (if ohs then
     ∃ hs, hidden_states out = Some hs ∧ length hs = S (length (layer self))
         ∧ head hs = Some x ∧ last hs = Some (last_hidden_state out)
   else hidden_states out = None)
  ∧ (if oa then ∃ ws, attentions out = Some ws ∧ length ws = length (layer self)
     else attentions out = None).
Proof.
  unfold transformer_forward. intros Hrun.
  destruct (foldM _ _ _) as [e|[[h' hs'] ats']] eqn:Hloop; [done|].
  rewrite bind_inr in Hrun. injection Hrun as <-. cbn.
  apply layers_collect in Hloop as [Hhs Hats].
  rewrite length_zip, length_seq, Nat.min_id in Hhs, Hats.
  split.
  - destruct ohs; [|done].
    destruct (Hhs [] eq_refl) as (pre & -> & Hlen & Hhead). cbn.
    exists (pre ++ [h']). split; [done|]. rewrite length_app, last_snoc. simpl.
    split; [lia|done].
  - destruct oa; [|done].
    destruct (Hats [] eq_refl) as (ws & -> & Hlen). by exists ws.
Qed.

Lemma model_forward_inv (self : DistilRobertaModel (A := A) (W := W) (HM := HM))
    (input_ids : option (list (list Z))) (attention_mask : option (list (list bool)))
    (head_mask : option (list HM)) (inputs_embeds : option (list (list (list A))))
    (oa ohs : option bool) (args : interchange_args) (out : BaseModelOutput) :
  model_forward self input_ids attention_mask head_mask inputs_embeds oa ohs args = ret out →
  ∃ x am,
    match inputs_embeds with Some e => Some e | None => embeddings self <$> input_ids end
    = Some x
    ∧ transformer_forward (transformer self) x am (get_head_mask self head_mask)
        (default (config_output_attentions self) oa)
        (default (config_output_hidden_states self) ohs) args = ret out.
Proof.
  unfold model_forward. intros Hrun.
  destruct input_ids as [ids|], inputs_embeds as [embeds|]; try done;
    rewrite bind_inr in Hrun; by eexists _, _.
Qed.

(** An encoder call that returns hands back, when hidden states are
    asked for (by the argument, or else by the configuration), one hidden
    state more than there are blocks, the first being the embeddings that
    entered the stack and the last the last hidden state; when attentions
    are asked for, one per block; and [None] for what is not asked for. *)
Theorem forward_output_counts (self : DistilRobertaModel (A := A) (W := W) (HM := HM))
    (input_ids : option (list (list Z))) (attention_mask : option (list (list bool)))
    (head_mask : option (list HM)) (inputs_embeds : option (list (list (list A))))
    (oa ohs : option bool) (args : interchange_args) (out : BaseModelOutput) :
  model_forward self input_ids attention_mask head_mask inputs_embeds oa ohs args = ret out →
  (if default (config_output_hidden_states self) ohs then
     ∃ hs, hidden_states out = Some hs
         ∧ length hs = S (length (layer (transformer self)))
         ∧ head hs = match inputs_embeds with
                     | Some e => Some e
                     | None => embeddings self <$> input_ids
                     end
         ∧ last hs = Some (last_hidden_state out)
   else hidden_states out = None)
  ∧ (if default (config_output_attentions self) oa then
       ∃ ws, attentions out = Some ws ∧ length ws = length (layer (transformer self))
     else attentions out = None).
Proof.
  intros Hrun. apply model_forward_inv in Hrun as (x & am & Hx & Hrun).
  apply transformer_forward_collects in Hrun as [Hhs Hats]. split; [|done].
  destruct (default _ ohs); [|done]. destruct Hhs as (hs & ? & ? & ? & ?).
  exists hs. by rewrite Hx.
Qed.

Lemma index_put_kept t (a b : Z) m (v : list (list A)) t' :
  index_put t a b m v = ret t' →
  same_shape m t
  ∧ Forall2 (Forall2 (λ (p : bool * list A) r', kept a b p.1 p.2 r')) (zip_with zip m t) t'.
Proof.
  unfold index_put. intros Hrun.
  destruct (decide (same_shape m t)) as [[Hlen Hshape]|]; [|done].
  split; [done|].
  destruct (broadcast_to _ v) as [e|v1] eqn:Hv1; [done|]. rewrite bind_inr in Hrun.
  destruct (mapM _ _) as [e|v2] eqn:Hv2; [done|]. rewrite bind_inr in Hrun.
  injection Hrun as <-.
  apply broadcast_to_length in Hv1.
  apply (mapM_broadcast_widths (λ r, slice_width (length r) a b)) in Hv2; [|done].
  assert (length (mjoin m) = length (mjoin t)) as Hflat.
  { rewrite !length_join. f_equal. clear -Hshape.
    induction Hshape as [|???? Hl _ IH]; [done|]. csimpl. by rewrite Hl, IH. }
  pose proof (scatter_kept a b (mjoin m) (mjoin t) v2 Hflat Hv2) as Hflat'.
  rewrite <- join_zip in Hflat' by done.
  apply reshape_Forall2 in Hflat'.
  assert (length <$> zip_with zip m t = length <$> t) as Hsizes.
  { clear -Hshape. induction Hshape as [|???? Hl _ IH]; [done|].
    csimpl. rewrite IH, length_zip. f_equal. lia. }
  by rewrite Hsizes in Hflat'.
Qed.

(** One variable of the interchange: the hidden state keeps its shape;
    a position the mask does not select keeps its activations, and a
    position it selects keeps them outside the columns
    [start_index : stop_index]. *)
Theorem interchange_writes_inside_slice (head_dimension : nat)
    (ivs : gmap nat (list (list (list A)))) (im dm : list (list bool))
    t t' (key : nat) (head : Z) (offsets : py_slice) :
  interchange head_dimension ivs im dm t (key, head, offsets) = ret t' →
  let start_index := (head * Z.of_nat head_dimension + start offsets)%Z in
  let stop_index := (start_index + stop offsets)%Z in
  length t' = length t
  ∧ ∀ i j r, t !! i ≫= (.!! j) = Some r →
      ∃ s r', im !! i ≫= (.!! j) = Some s
            ∧ t' !! i ≫= (.!! j) = Some r'
            ∧ kept start_index stop_index s r r'.
Proof.
  intros Hrun a b. unfold interchange in Hrun.
  destruct (ivs !! key) as [donor|]; [|done]. cbn [from_option] in Hrun.
  rewrite bind_inr in Hrun.
  destruct (index_mask donor dm) as [e|rep]; [done|]. rewrite bind_inr in Hrun.
  apply index_put_kept in Hrun as [[Hlen Hshape] Hall]. fold a b in Hall.
  split.
  { apply Forall2_length in Hall. rewrite length_zip_with in Hall. lia. }
  intros i j r Hr.
  destruct (t !! i) as [e|] eqn:He; [|done]. cbn in Hr.
  destruct (lookup_lt_is_Some_2 im i) as [mr Hmr].
  { rewrite Hlen. by eapply lookup_lt_Some. }
  assert (zip_with zip im t !! i = Some (zip mr e)) as Hz.
  { by rewrite lookup_zip_with, Hmr, He. }
  destruct (Forall2_lookup_l _ _ _ _ _ Hall Hz) as (e' & He' & Hrow).
  pose proof (Forall2_lookup_lr _ _ _ _ _ _ Hshape Hmr He) as Hlen'.
  destruct (Forall2_zip_lookup _ mr e e' j r Hlen' Hrow Hr) as (s & r' & Hs & Hr' & Hkept).
  exists s, r'. rewrite Hmr, He'. cbn. done.
Qed.

Lemma kept_kept_row (a b : Z) (s : bool) (r r' : list A) :
  kept a b s r r' → kept_row s r r'.
Proof. intros (? & ? & _). by split. Qed.

Lemma interchanges_keep_rows (head_dimension : nat)
    (ivs : gmap nat (list (list (list A)))) (im dm : list (list bool))
    (vars : list variable) t t' :
  foldM (interchange head_dimension ivs im dm) t vars = ret t' →
  length t' = length t
  ∧ ∀ i j r, t !! i ≫= (.!! j) = Some r →
      ∃ r', t' !! i ≫= (.!! j) = Some r'
          ∧ length r' = length r
          ∧ (im !! i ≫= (.!! j) ≠ Some true → r' = r).
Proof.
  revert t. induction vars as [|[[key head] offsets] vars IH]; intros t Hrun.
  { injection Hrun as <-. split; [done|]. intros i j r Hr. by exists r. }
  cbn [foldM] in Hrun.
  destruct (interchange _ _ _ _ t _) as [e|t1] eqn:Hvar; [done|]. rewrite bind_inr in Hrun.
  apply interchange_writes_inside_slice in Hvar as [Hlen1 Hall1].
  apply IH in Hrun as [Hlen Hall]. split; [lia|].
  intros i j r Hr.
  destruct (Hall1 i j r Hr) as (s & r1 & Hs & Hr1 & Hk1 & Hsame1 & _).
  destruct (Hall i j r1 Hr1) as (r' & Hr' & Hk & Hsame).
  exists r'. split; [done|]. split; [lia|].
  intros Hsel. rewrite Hsame by done. apply Hsame1.
  destruct s; [by rewrite Hs in Hsel|done].
Qed.

(** After a block and all the variables of its layer, the hidden state
    has the shape of the output of the block, and holds that output at
    every position the interchange mask does not select. *)
Theorem layer_keeps_unselected (self : Transformer (A := A) (W := W) (HM := HM))
    m (hm : nat → HM) (oa ohs : bool) (args : interchange_args)
    (st st' : loop_state) (i : nat) (f : block) :
  layer_step self m hm oa ohs args st (i, f) = ret st' →
  let out := (f st.1.1 m (hm i)).2 in
  length st'.1.1 = length out
  ∧ ∀ b j r, out !! b ≫= (.!! j) = Some r →
      ∃ r', st'.1.1 !! b ≫= (.!! j) = Some r'
          ∧ length r' = length r
          ∧ (interchange_mask args !! b ≫= (.!! j) ≠ Some true → r' = r).
Proof.
  destruct st as [[h hs] ats], st' as [[h' hs'] ats'].
  unfold layer_step. cbn. intros Hrun.
  assert (∀ h1, (ret h1 : result (list (list (list A)))) = ret h' →
            length h' = length h1
            ∧ ∀ b j r, h1 !! b ≫= (.!! j) = Some r →
                ∃ r', h' !! b ≫= (.!! j) = Some r' ∧ length r' = length r
                    ∧ (interchange_mask args !! b ≫= (.!! j) ≠ Some true → r' = r)) as Hsame.
  { intros h1 [= ->]. split; [done|]. intros b j r Hr. by exists r. }
  destruct (variable_names args) as [[|d]|].
  - rewrite bind_inr in Hrun. injection Hrun as <- _ _. by apply Hsame.
  - destruct (d !! i) as [vars|].
    + destruct (interchanged_variables args) as [ivs|]; [|done].
      cbn [from_option] in Hrun. rewrite bind_inr in Hrun.
      destruct (foldM _ _ vars) as [e|h1] eqn:Hfold; [done|]. rewrite bind_inr in Hrun.
      injection Hrun as <- _ _. by apply interchanges_keep_rows in Hfold.
    + rewrite bind_inr in Hrun. injection Hrun as <- _ _. by apply Hsame.
  - rewrite bind_inr in Hrun. injection Hrun as <- _ _. by apply Hsame.
Qed.

(** *** Errors and silence of the interchange *)





End Laws.

Lemma forward_output_counts_witness :
  (if default (config_output_hidden_states Toy.toy_encoder) (Some true) then
     ∃ hs, hidden_states Samples.toy_output = Some hs
         ∧ length hs = S (length (layer (transformer Toy.toy_encoder)))
         ∧ head hs = embeddings Toy.toy_encoder <$> Some [[5; 6]]%Z
         ∧ last hs = Some (last_hidden_state Samples.toy_output)
   else hidden_states Samples.toy_output = None)
  ∧ (if default (config_output_attentions Toy.toy_encoder) None then
       ∃ ws, attentions Samples.toy_output = Some ws
           ∧ length ws = length (layer (transformer Toy.toy_encoder))
     else attentions Samples.toy_output = None).
Proof.
  apply (forward_output_counts Toy.toy_encoder (Some [[5; 6]]%Z) None None None None
           (Some true) (mkArgs None None [] [])).
  reflexivity.
Defined.

Lemma interchange_writes_inside_slice_witness :
  length [[[0; 1; 2; 3]; [4; 7; 8; 7]]] = length [[[0; 1; 2; 3]; [4; 5; 6; 7]]]
  ∧ ∀ i j r, [[[0; 1; 2; 3]; [4; 5; 6; 7]]] !! i ≫= (.!! j) = Some r →
      ∃ s r', [[false; true]] !! i ≫= (.!! j) = Some s
            ∧ [[[0; 1; 2; 3]; [4; 7; 8; 7]]] !! i ≫= (.!! j) = Some r'
            ∧ kept (0 * Z.of_nat 4 + 1)%Z (0 * Z.of_nat 4 + 1 + 2)%Z s r r'.
Proof.
  apply (interchange_writes_inside_slice (A := nat) 4 {[0 := [[[7; 8]; [9; 10]]]]}
           [[false; true]] [[true; false]] [[[0; 1; 2; 3]; [4; 5; 6; 7]]]
           [[[0; 1; 2; 3]; [4; 7; 8; 7]]] 0 0%Z (mkSlice 1 2)).
  vm_compute. reflexivity.
Defined.

Lemma layer_keeps_unselected_witness :
  length [[[0; 1; 2; 3]; [4; 7; 8; 7]]] = length [[[0; 1; 2; 3]; [4; 5; 6; 7]]]
  ∧ ∀ b j r, [[[0; 1; 2; 3]; [4; 5; 6; 7]]] !! b ≫= (.!! j) = Some r →
      ∃ r', [[[0; 1; 2; 3]; [4; 7; 8; 7]]] !! b ≫= (.!! j) = Some r'
          ∧ length r' = length r
          ∧ (interchange_mask Samples.second_position !! b ≫= (.!! j) ≠ Some true → r' = r).
Proof.
  apply (layer_keeps_unselected
           {| layer := [λ h _ _, (tt, h)]; head_dimension := 4 |}
           [[true; true]] (λ _, tt) false false Samples.second_position
           ([[[0; 1; 2; 3]; [4; 5; 6; 7]]], None, None)
           ([[[0; 1; 2; 3]; [4; 7; 8; 7]]], None, None) 0 (λ h _ _, (tt, h))).
  vm_compute. reflexivity.
Defined.



End EncoderLaws.

(** ** Signs, edge cases and inputs of the loss terms *)

Module LossLaws.

Import Loss LossFacts.

Local Open Scope R_scope.

(** *** Sums *)

Lemma sum_R_nil : sum_R [] = 0.
Proof. done. Qed.

Lemma sum_R_nonneg (l : list R) : Forall (λ x, 0 <= x) l → 0 <= sum_R l.
Proof.
  induction 1 as [|a l Ha _ IH]; [rewrite sum_R_nil; lra|]. rewrite sum_R_cons. lra.
Qed.

Lemma sum_R_zip_le {X Y} (f g : X → Y → R) (l : list X) (k : list Y) :
  (∀ x y, x ∈ l → y ∈ k → f x y <= g x y) →
  sum_R (zip_with f l k) <= sum_R (zip_with g l k).
Proof.
  revert k. induction l as [|x l IH]; intros [|y k] Hle;
    try (cbn [zip_with]; rewrite !sum_R_nil; lra).
  cbn [zip_with]. rewrite !sum_R_cons.
  pose proof (Hle x y (list_elem_of_here _ _) (list_elem_of_here _ _)).
  pose proof (IH k (λ x' y' Hx Hy, Hle x' y' (list_elem_of_further _ _ _ Hx)
                                      (list_elem_of_further _ _ _ Hy))).
  lra.
Qed.

Lemma sum_R_zip_sub {X Y} (f : X → R) (g : Y → R) (l : list X) (k : list Y) :
  length l = length k →
  sum_R (zip_with (λ x y, g y - f x) l k) = sum_R (g <$> k) - sum_R (f <$> l).
Proof.
  revert k. induction l as [|x l IH]; intros [|y k] Hlen; try discriminate Hlen.
  { unfold sum_R; simpl; lra. }
  injection Hlen as Hlen. cbn [zip_with]. rewrite !fmap_cons, !sum_R_cons, IH by done. lra.
Qed.

Lemma sum_R_scale {X} (f : X → R) (c : R) (l : list X) :
  sum_R ((λ x, f x / c) <$> l) = sum_R (f <$> l) / c.
Proof.
  induction l as [|a l IH]; [unfold sum_R; simpl; lra|].
  rewrite !fmap_cons, !sum_R_cons, IH. lra.
Qed.

(** *** Softmax is a distribution *)

Lemma softmax_sum (x : list R) : x ≠ [] → sum_R (softmax x) = 1.
Proof.
  intros Hne. pose proof (sum_exp_pos x Hne) as Hpos. unfold softmax.
  rewrite (sum_R_scale exp). field. lra.
Qed.

Lemma exp_log_softmax_sum (x : list R) :
  x ≠ [] → sum_R (exp <$> log_softmax x) = 1.
Proof.
  intros Hne. pose proof (sum_exp_pos x Hne) as Hpos. unfold log_softmax.
  rewrite <- list_fmap_compose.
  rewrite (list_fmap_ext _ (λ e, exp e / sum_R (exp <$> x)) x).
  - rewrite (sum_R_scale exp). field. lra.
  - intros _ a _. cbn. unfold Rminus. rewrite exp_plus, exp_Ropp, exp_ln by done. done.
Qed.

Lemma softmax_pos (x : list R) (p : R) : p ∈ softmax x → 0 < p.
Proof.
  intros Hp. apply list_elem_of_fmap in Hp as (a & -> & Ha).
  apply Rdiv_lt_0_compat; [apply exp_pos|].
  apply sum_exp_pos. intros ->. by apply not_elem_of_nil in Ha.
Qed.

(** *** Gibbs' inequality *)

Lemma kl_pointwise_ge (lq p : R) : 0 < p → p - exp lq <= kl_pointwise lq p.
Proof.
  intros Hp. unfold kl_pointwise.
  pose proof (exp_ineq1_le (lq - ln p)) as Hd.
  assert (exp (lq - ln p) = exp lq * / p) as He.
  { unfold Rminus. by rewrite exp_plus, exp_Ropp, exp_ln. }
  rewrite He in Hd.
  assert (p * (1 + (lq - ln p)) <= p * (exp lq * / p)) as Hm
    by (apply Rmult_le_compat_l; lra).
  replace (p * (exp lq * / p)) with (exp lq) in Hm by (field; lra). lra.
Qed.

Lemma kl_row_nonneg (x y : list R) :
  length x = length y → x ≠ [] →
  0 <= sum_R (zip_with kl_pointwise (log_softmax x) (softmax y)).
Proof.
  intros Hlen Hne.
  assert (y ≠ []) as Hne' by (intros ->; by destruct x).
  assert (sum_R (zip_with (λ lq p, p - exp lq) (log_softmax x) (softmax y)) = 0) as Hzero.
  { rewrite (sum_R_zip_sub exp (λ p, p)).
    - rewrite list_fmap_id, softmax_sum, exp_log_softmax_sum by done. lra.
    - unfold log_softmax, softmax. by rewrite !length_fmap. }
  rewrite <- Hzero. apply sum_R_zip_le.
  intros lq p _ Hp. apply kl_pointwise_ge. by eapply softmax_pos.
Qed.

(** *** The terms are never negative *)

Lemma view_rows (n : nat) (l : list R) (rows : list (list R)) :
  view n l = ret rows → n ≠ 0%nat ∧ Forall (λ r, length r = n) rows.
Proof.
  unfold view. destruct (decide (n = 0%nat)) as [|Hn]; [done|].
  destruct (decide (length l mod n = 0)%nat) as [Hmod|]; [|done].
  intros [= <-]. split; [done|].
  apply Nat.Div0.div_exact in Hmod. revert Hmod.
  generalize (length l / n)%nat as k. intros k. revert l.
  induction k as [|k IH]; intros l Hlen; [constructor|].
  cbn [replicate reshape]. assert (n ≤ length l)%nat by nia. constructor.
  - rewrite length_take. lia.
  - apply IH. rewrite length_drop. nia.
Qed.

Lemma soft_target_rows_nonneg (ss ts : list (list R)) (T v : R) (V : nat) :
  V ≠ 0%nat → Forall (λ r, length r = V) ss → Forall (λ r, length r = V) ts →
  soft_target ss ts T = Num v → 0 <= v.
Proof.
  intros HV Hss Hts. unfold soft_target, ce_loss_fct, div_count.
  rewrite length_fmap. destruct (decide (length ss = 0%nat)) as [|Hn]; [done|].
  cbn. intros [= <-].
  apply Rmult_le_pos; [|nra].
  apply Rmult_le_pos; [|left; apply Rinv_0_lt_compat, lt_0_INR; lia].
  rewrite zip_with_fmap_both.
  apply sum_R_nonneg, Forall_forall. intros x Hx.
  apply elem_of_lookup_zip_with in Hx as (i & s & t & -> & Hs & Ht).
  pose proof (Forall_lookup_1 _ _ _ _ Hss Hs) as Hls.
  pose proof (Forall_lookup_1 _ _ _ _ Hts Ht) as Hlt.
  cbn beta in Hls, Hlt. apply kl_row_nonneg.
  - rewrite !length_fmap. lia.
  - destruct s; [simpl in Hls; lia|done].
Qed.

Lemma soft_target_block_nonneg (restrict : option bool) (lm_labels : option (list (list Z)))
    (am : option mask) (s t : tensor) (T : option R) (ss ts : list (list R)) (v : R) :
  soft_target_block restrict lm_labels am s t T = ret (ss, ts, Num v) → 0 <= v.
Proof.
  unfold soft_target_block. intros Hrun.
  destruct (ce_mask _ _ _) as [e|m]; [done|]. rewrite bind_inr in Hrun.
  destruct (expand_as m s) as [e|M]; [done|]. rewrite bind_inr in Hrun.
  destruct (slct s M _) as [e|ss'] eqn:Hss; [done|]. rewrite bind_inr in Hrun.
  destruct (slct t M _) as [e|ts'] eqn:Hts; [done|]. rewrite bind_inr in Hrun.
  destruct (assert _) as [e|[]]; [done|]. rewrite bind_inr in Hrun.
  destruct T as [T|]; [|done]. cbn in Hrun. injection Hrun as _ _ Hv.
  apply view_rows in Hss as [HV Hss]. apply view_rows in Hts as [_ Hts].
  exact (soft_target_rows_nonneg _ _ _ _ _ HV Hss Hts Hv).
Qed.

Lemma log_softmax_nonpos (row : list R) (x : R) : x ∈ log_softmax row → x <= 0.
Proof.
  intros Hx. apply list_elem_of_fmap in Hx as (a & -> & Ha).
  assert (exp a <= sum_R (exp <$> row)) as Hle.
  { clear -Ha. induction Ha as [a row|a b row _ IH].
    - rewrite fmap_cons, sum_R_cons.
      assert (0 <= sum_R (exp <$> row)); [|lra].
      apply sum_R_nonneg, Forall_forall. intros y Hy.
      apply list_elem_of_fmap in Hy as (? & -> & _). left; apply exp_pos.
    - rewrite fmap_cons, sum_R_cons. pose proof (exp_pos b). lra. }
  assert (a <= ln (sum_R (exp <$> row))); [|lra].
  rewrite <- (ln_exp a) at 1. destruct Hle as [Hlt| ->]; [|lra].
  left. apply ln_increasing; [apply exp_pos|done].
Qed.

Lemma nll_row_nonneg (row : list R) (t : Z) (v : R) :
  nll_row row t = ret (Some v) → 0 <= v.
Proof.
  unfold nll_row. destruct (decide (t = -100)%Z); [done|].
  destruct (decide _) as [Ht|]; [|done]. intros [= <-].
  destruct (log_softmax row !! Z.to_nat t) as [x|] eqn:Hx; cbn; [|lra].
  apply list_elem_of_lookup_2, log_softmax_nonpos in Hx. lra.
Qed.

Lemma lm_loss_nonneg (input : list (list R)) (target : list Z) (v : R) :
  lm_loss_fct input target = ret (Num v) → 0 <= v.
Proof.
  unfold lm_loss_fct. destruct (decide _) as [Hlen|]; [|done].
  destruct (mapM _ _) as [?|terms] eqn:Hterms; [done|]. rewrite bind_inr.
  unfold div_count. destruct (decide _) as [|Hn]; [done|]. intros [= <-].
  apply Rmult_le_pos; [|left; apply Rinv_0_lt_compat, lt_0_INR; lia].
  apply sum_R_nonneg, Forall_forall. intros x Hx.
  apply list_elem_of_omap in Hx as (o & Ho & ->).
  assert (∀ l terms, mapM (λ p : list R * Z, nll_row p.1 p.2) l = ret terms →
            ∀ o, o ∈ terms → ∃ p, nll_row p.1 p.2 = ret o) as Hall.
  { clear. induction l as [|p l IH]; intros terms Hrun o Ho.
    - injection Hrun as <-. by apply not_elem_of_nil in Ho.
    - cbn in Hrun. destruct (nll_row p.1 p.2) as [e|o1] eqn:Hp; [done|]. cbn in Hrun.
      destruct (mapM _ l) as [e|os] eqn:Hl; [done|]. cbn in Hrun. injection Hrun as <-.
      apply elem_of_cons in Ho as [->|Ho]; [by exists p|by eapply IH]. }
  destruct (Hall _ _ Hterms _ Ho) as (p & Hp). by eapply nll_row_nonneg.
Qed.

Lemma mse_nonneg (ss ts : list (list R)) (v : R) :
  div_count (mse_loss_fct ss ts) (length ss) = Num v → 0 <= v.
Proof.
  unfold div_count. destruct (decide _) as [|Hn]; [done|]. intros [= <-].
  apply Rmult_le_pos; [|left; apply Rinv_0_lt_compat, lt_0_INR; lia].
  unfold mse_loss_fct. apply sum_R_nonneg, Forall_forall. intros x Hx.
  apply elem_of_lookup_zip_with in Hx as (i & s & t & -> & _ & _).
  apply sum_R_nonneg, Forall_forall. intros y Hy.
  apply elem_of_lookup_zip_with in Hy as (j & a & b & -> & _ & _).
  exact (Rle_0_sqr (a - b)).
Qed.

(** *** Labels that are ignored, labels that are no class *)

Lemma lm_loss_all_ignored (input : list (list R)) (target : list Z) (v : scalar) :
  Forall (λ t, t = (-100)%Z) target →
  lm_loss_fct input target = ret v → v = NaN.
Proof.
  intros Hall. unfold lm_loss_fct. destruct (decide _) as [Hlen|]; [|done].
  rewrite (mapM_ret_fmap _ (λ _, None)).
  - rewrite bind_inr. intros [= <-].
    assert (∀ l : list (list R * Z),
              omap (λ o : option R, o) ((λ _, None) <$> l) = []) as ->.
    { induction l as [|p l IH]; [done|]. by rewrite fmap_cons. }
    done.
  - intros [row t] Hin. apply elem_of_zip_r in Hin.
    rewrite Forall_forall in Hall. apply Hall in Hin. simpl in *. subst t.
    unfold nll_row. by rewrite decide_True.
Qed.

Lemma lm_loss_bad_label (input : list (list R)) (target : list Z) (i : nat)
    (row : list R) (t : Z) :
  length input = length target →
  input !! i = Some row → target !! i = Some t →
  t ≠ (-100)%Z → ¬ (0 ≤ t < Z.of_nat (length row))%Z →
  lm_loss_fct input target = raise IndexError.
Proof.
  intros Hlen Hrow Ht Hne Hout. unfold lm_loss_fct. rewrite decide_True by done.
  rewrite (mapM_raises _ _ IndexError (row, t)); [done| | |].
  - apply list_elem_of_lookup. exists i.
    by rewrite (lookup_zip_with pair input target i), Hrow, Ht.
  - unfold nll_row. simpl. by rewrite !decide_False.
  - intros [row' t'] e' _. unfold nll_row. simpl.
    destruct (decide _); [done|]. destruct (decide _); [done|]. by intros [= <-].
Qed.

(** *** The forward pass, step by step *)

Section Forward.

Context {W HM : Type}.

Implicit Types (self : DistilRobertaForMaskedLM (W := W) (HM := HM)).

Implicit Types (o st : MaskedLMOutput (W := W)).

(** A forward pass that returns has run the encoder and the head, has
    computed the loss of the labels when there are labels, and then has
    either built the tuple or run the loss composition. *)
Lemma forward_inv self (input_ids : option (list (list Z))) (am : option mask)
    (hm : option (list HM)) (embeds : option tensor) (labels : option (list (list Z)))
    (oa ohs rd : option bool) (args : Encoder.interchange_args) (a : loss_args)
    (r : output) :
  forward self input_ids am hm embeds labels oa ohs rd args a = ret r →
  ∃ out mlm_loss,
    Encoder.model_forward (distilroberta self) input_ids am hm embeds oa ohs args = ret out
    ∧ match labels with
      | Some labels =>
          ∃ input v,
            rows (size_last (prediction_head self (Encoder.last_hidden_state out)))
              (prediction_head self (Encoder.last_hidden_state out)) = ret input
            ∧ mlm_loss_fct input (mjoin labels) = ret v ∧ mlm_loss = Some v
      | None => mlm_loss = None
      end
    ∧ if default (config_use_return_dict self) rd then
        ∃ o, r = Dict o
           ∧ distillation_losses self am a
               {| loss := mlm_loss;
                  logits := prediction_head self (Encoder.last_hidden_state out);
                  hidden_states := Encoder.hidden_states out;
                  attentions := Encoder.attentions out;
                  extra := ∅ |} = ret o
      else r = Tuple mlm_loss (prediction_head self (Encoder.last_hidden_state out))
                 (Encoder.hidden_states out) (Encoder.attentions out).
Proof.
  unfold forward. intros Hrun.
  destruct (Encoder.model_forward _ _ _ _ _ _ _ _) as [?|out]; [done|].
  rewrite bind_inr in Hrun.
  destruct (match labels with Some _ => _ | None => _ end) as [?|mlm_loss] eqn:Hmlm; [done|].
  rewrite bind_inr in Hrun.
  exists out, mlm_loss. split; [done|]. split.
  - destruct labels as [labels|]; [|by injection Hmlm as <-].
    destruct (rows _ _) as [?|input]; [done|]. rewrite bind_inr in Hmlm.
    apply fmap_inr_inv in Hmlm as (v & Hv & ->). by exists input, v.
  - destruct (default _ rd); cbn [negb] in Hrun.
    + apply fmap_inr_inv in Hrun as (o & Hrun & ->). by exists o.
    + by injection Hrun as <-.
Qed.

Lemma set_item_lookup_Some (k k' : string) (v v' : scalar) st :
  extra (set_item k' v' st) !! k = Some v →
  (k = k' ∧ v = v') ∨ (k ≠ k' ∧ extra st !! k = Some v).
Proof.
  cbn. destruct (decide (k = k')) as [->|Hne].
  - rewrite lookup_insert_eq. intros [= ->]. by left.
  - rewrite lookup_insert_ne by done. by right.
Qed.

Ltac by_key H :=
  repeat (apply set_item_lookup_Some in H as [[-> ->]|[? H]]; [by eauto|]); by eauto.

(** What holds of every term the loss composition may write holds of
    every entry of the mapping it returns. *)
Lemma regular_losses_all (Q : string → scalar → Prop) self (am : option mask)
    (a : loss_args) (t : tensor) st o :
  (∀ k v, extra st !! k = Some v → Q k v) →
  (∀ ss ts v,
     soft_target_block (restrict_ce_to_mask a) (lm_labels a) am (logits st) t (temperature a)
     = ret (ss, ts, v) →
     Q "loss_ce" v ∧ Q "loss_mse" (div_count (mse_loss_fct ss ts) (length ss))) →
  (∀ input target v, lm_loss_fct input target = ret v → Q "loss_mlm" v) →
  (∀ shs ths v, cosine_block self am shs ths = ret v → Q "loss_cos" v) →
  regular_losses self am a t st = ret o →
  logits o = logits st ∧ loss o = loss st
  ∧ hidden_states o = hidden_states st ∧ attentions o = attentions st
  ∧ ∀ k v, extra o !! k = Some v → Q k v.
Proof.
  unfold regular_losses. intros Hst Hce Hlm Hcos Hrun.
  destruct (t_hidden_states a) as [ths|]; [|done]. cbn [from_option] in Hrun.
  rewrite ?bind_inr in Hrun.
  destruct (hidden_states st) as [shs|] eqn:Hshs; [|done]. cbn [from_option] in Hrun.
  rewrite ?bind_inr in Hrun.
  destruct (assert _) as [?|[]]; [done|]. rewrite ?bind_inr in Hrun.
  remember (soft_target_block _ _ _ _ _ _) as blk eqn:Hblock in Hrun.
  destruct blk as [?|[[ss ts] loss_ce]]; [done|]. symmetry in Hblock.
  rewrite ?bind_inr in Hrun.
  destruct (Hce _ _ _ Hblock) as [Hce1 Hmse].
  destruct (decide (0 < alpha_mlm a)) as [Ha1|Ha1].
  - destruct (rows (size_last (logits st)) (logits st)) as [?|input]; [done|].
    rewrite ?bind_inr in Hrun.
    destruct (lm_labels a) as [labels|]; [|done]. cbn [from_option] in Hrun.
    rewrite ?bind_inr in Hrun.
    destruct (lm_loss_fct input _) as [?|loss_mlm] eqn:Hmlm; [done|].
    rewrite ?bind_inr in Hrun. apply Hlm in Hmlm.
    destruct (decide (0 < alpha_clm a)) as [Ha2|Ha2].
    + cbn [from_option] in Hrun. rewrite ?bind_inr in Hrun.
      destruct (rows _ (_ <$> logits st)) as [?|input']; [done|]. rewrite ?bind_inr in Hrun.
      destruct (lm_loss_fct input' _) as [?|loss_clm] eqn:Hclm; [done|].
      rewrite ?bind_inr in Hrun. apply Hlm in Hclm.
      destruct (decide (0 < alpha_cos a)), (decide (0 < alpha_mse a));
        [destruct (cosine_block _ _ _ _) as [?|c] eqn:Hc; [done|];
         rewrite ?bind_inr in Hrun; apply Hcos in Hc..| |];
        injection Hrun as <-; (repeat split; try done); intros k v Hk; by_key Hk.
    + rewrite ?bind_inr in Hrun.
      destruct (decide (0 < alpha_cos a)), (decide (0 < alpha_mse a));
        [destruct (cosine_block _ _ _ _) as [?|c] eqn:Hc; [done|];
         rewrite ?bind_inr in Hrun; apply Hcos in Hc..| |];
        injection Hrun as <-; (repeat split; try done); intros k v Hk; by_key Hk.
  - rewrite ?bind_inr in Hrun.
    destruct (decide (0 < alpha_clm a)) as [Ha2|Ha2].
    + destruct (lm_labels a) as [labels|]; [|done]. cbn [from_option] in Hrun.
      rewrite ?bind_inr in Hrun.
      destruct (rows _ (_ <$> logits st)) as [?|input']; [done|]. rewrite ?bind_inr in Hrun.
      destruct (lm_loss_fct input' _) as [?|loss_clm] eqn:Hclm; [done|].
      rewrite ?bind_inr in Hrun. apply Hlm in Hclm.
      destruct (decide (0 < alpha_cos a)), (decide (0 < alpha_mse a));
        [destruct (cosine_block _ _ _ _) as [?|c] eqn:Hc; [done|];
         rewrite ?bind_inr in Hrun; apply Hcos in Hc..| |];
        injection Hrun as <-; (repeat split; try done); intros k v Hk; by_key Hk.
    + rewrite ?bind_inr in Hrun.
      destruct (decide (0 < alpha_cos a)), (decide (0 < alpha_mse a));
        [destruct (cosine_block _ _ _ _) as [?|c] eqn:Hc; [done|];
         rewrite ?bind_inr in Hrun; apply Hcos in Hc..| |];
        injection Hrun as <-; (repeat split; try done); intros k v Hk; by_key Hk.
Qed.

Lemma causal_losses_all (Q : string → scalar → Prop) self (am : option mask)
    (a : loss_args) (t : tensor) st o :
  (∀ k v, extra st !! k = Some v → Q k v) →
  (∀ ss ts v,
     soft_target_block (restrict_ce_to_mask a) (lm_labels a) am (logits st) t (temperature a)
     = ret (ss, ts, v) → Q "causal_loss_ce" v) →
  (∀ shs ths v, cosine_block self am shs ths = ret v → Q "causal_loss_cos" v) →
  causal_losses self am a t st = ret o →
  logits o = logits st ∧ loss o = loss st
  ∧ hidden_states o = hidden_states st ∧ attentions o = attentions st
  ∧ ∀ k v, extra o !! k = Some v → Q k v.
Proof.
  unfold causal_losses. intros Hst Hce Hcos Hrun.
  step Hrun. repeat step Hrun.
  destruct p as [[ss ts] loss_ce]. step Hrun.
  injection Hrun as <-. repeat split; try done. intros k v Hk. by_key Hk.
Qed.

Lemma distillation_losses_all (Q : string → scalar → Prop) self (am : option mask)
    (a : loss_args) st o :
  (∀ k v, extra st !! k = Some v → Q k v) →
  (∀ s t ss ts v,
     soft_target_block (restrict_ce_to_mask a) (lm_labels a) am s t (temperature a)
     = ret (ss, ts, v) →
     Q "loss_ce" v ∧ Q "causal_loss_ce" v
     ∧ Q "loss_mse" (div_count (mse_loss_fct ss ts) (length ss))) →
  (∀ input target v, lm_loss_fct input target = ret v → Q "loss_mlm" v) →
  (∀ shs ths v, cosine_block self am shs ths = ret v →
                Q "loss_cos" v ∧ Q "causal_loss_cos" v) →
  distillation_losses self am a st = ret o →
  logits o = logits st ∧ loss o = loss st
  ∧ hidden_states o = hidden_states st ∧ attentions o = attentions st
  ∧ ∀ k v, extra o !! k = Some v → Q k v.
Proof.
  intros Hst Hce Hlm Hcos. unfold distillation_losses.
  destruct (causal_t_logits a) as [ct|]; [|destruct (t_logits a) as [t|]].
  - apply causal_losses_all; [done| |].
    + intros ss ts v Hv. by apply Hce in Hv as (_ & ? & _).
    + intros shs ths v Hv. by apply Hcos in Hv as [_ ?].
  - apply regular_losses_all; [done| |done|].
    + intros ss ts v Hv. by apply Hce in Hv as (? & _ & ?).
    + intros shs ths v Hv. by apply Hcos in Hv as [? _].
  - by intros [= <-].
Qed.

(** Over the real numbers, no loss term of a forward pass that returns is
    negative: the loss of the labels, the soft-target terms of both
    branches, the language-modelling term and the squared-error term are
    each a non-negative number or NaN.  (The temperature divides the
    logits, so the reals stand for the floating-point numbers only when it
    is not zero.) *)
Theorem loss_terms_never_negative self (input_ids : option (list (list Z)))
    (am : option mask) (hm : option (list HM)) (embeds : option tensor)
    (labels : option (list (list Z))) (oa ohs rd : option bool)
    (args : Encoder.interchange_args) (a : loss_args) (r : output) :
  temperature a ≠ Some 0 →
  forward self input_ids am hm embeds labels oa ohs rd args a = ret r →
  match r with
  | Tuple mlm_loss _ _ _ => ∀ v, mlm_loss = Some (Num v) → 0 <= v
  | Dict o =>
      (∀ v, loss o = Some (Num v) → 0 <= v)
      ∧ ∀ k v, k ∈ ["loss_ce"; "loss_mlm"; "loss_mse"; "causal_loss_ce"] →
               extra o !! k = Some (Num v) → 0 <= v
  end.
Proof.
  intros _ Hrun. apply forward_inv in Hrun as (out & mlm_loss & _ & Hmlm & Hr).
  assert (∀ v, mlm_loss = Some (Num v) → 0 <= v) as Hloss.
  { intros v ->. destruct labels as [labels|]; [|done].
    destruct Hmlm as (input & v' & _ & Hv & [= <-]). by eapply lm_loss_nonneg. }
  destruct (default _ rd); [|by subst r].
  destruct Hr as (o & -> & Hrun).
  apply (distillation_losses_all
           (λ k s, k ∈ ["loss_ce"; "loss_mlm"; "loss_mse"; "causal_loss_ce"] →
                   ∀ v, s = Num v → 0 <= v)) in Hrun
    as (_ & Hl & _ & _ & Hall).
  - split; [by rewrite Hl|]. intros k v Hk Hv. by eapply Hall.
  - intros k v Hk. cbn [extra] in Hk. by rewrite lookup_empty in Hk.
  - intros s t ss ts v Hv. repeat split; intros _ x Hx.
    + subst v. by eapply soft_target_block_nonneg.
    + subst v. by eapply soft_target_block_nonneg.
    + by eapply mse_nonneg.
  - intros input target v Hv _ x ->. by eapply lm_loss_nonneg.
  - intros shs ths v _. split; intros Hk; exfalso;
      repeat (apply elem_of_cons in Hk as [Hk|Hk]; [discriminate Hk|]);
      by apply not_elem_of_nil in Hk.
Qed.

(** When every label is [-100], the loss of the labels a forward pass
    returns is NaN: the mean is taken over no position. *)
Theorem ignored_labels_give_nan self (input_ids : option (list (list Z)))
    (am : option mask) (hm : option (list HM)) (embeds : option tensor)
    (labels : list (list Z)) (oa ohs rd : option bool)
    (args : Encoder.interchange_args) (a : loss_args) (r : output) :
  Forall (Forall (λ l, l = (-100)%Z)) labels →
  forward self input_ids am hm embeds (Some labels) oa ohs rd args a = ret r →
  match r with
  | Tuple mlm_loss _ _ _ => mlm_loss = Some NaN
  | Dict o => loss o = Some NaN
  end.
Proof.
  intros Hall Hrun.
  apply forward_inv in Hrun as (out & mlm_loss & _ & (input & v & _ & Hv & ->) & Hr).
  apply lm_loss_all_ignored in Hv as ->; [|by apply Forall_join].
  destruct (default _ rd); [|by subst r].
  destruct Hr as (o & -> & Hrun).
  apply (distillation_losses_all (λ _ _, True)) in Hrun as (_ & Hl & _); auto.
Qed.

(** A label that is neither [-100] nor the index of a class stops the
    forward pass with an [IndexError], once the encoder has returned
    logits of [V > 0] classes for as many positions as there are labels. *)
Theorem label_out_of_range_raises self (input_ids : option (list (list Z)))
    (am : option mask) (hm : option (list HM)) (embeds : option tensor)
    (labels : list (list Z)) (oa ohs rd : option bool)
    (args : Encoder.interchange_args) (a : loss_args)
    (out : Encoder.BaseModelOutput) (V : nat) (l : Z) :
  Encoder.model_forward (distilroberta self) input_ids am hm embeds oa ohs args = ret out →
  let prediction_logits := prediction_head self (Encoder.last_hidden_state out) in
  size_last prediction_logits = V → (0 < V)%nat →
  Forall (Forall (λ row, length row = V)) prediction_logits →
  Forall2 (λ e ls, length e = length ls) prediction_logits labels →
  l ∈ mjoin labels → l ≠ (-100)%Z → ¬ (0 ≤ l < Z.of_nat V)%Z →
  forward self input_ids am hm embeds (Some labels) oa ohs rd args a = raise IndexError.
Proof.
  intros Hout lg HV Hpos Hrect Hshape Hl Hne Hrange.
  unfold forward. rewrite Hout, bind_inr. fold lg. rewrite HV.
  unfold rows. rewrite view_join by (done || by apply Forall_join). rewrite bind_inr.
  apply list_elem_of_lookup in Hl as [i Hi].
  assert (length (mjoin lg) = length (mjoin labels)) as Hlen.
  { rewrite !length_join. f_equal. clear -Hshape.
    induction Hshape as [|???? Hl _ IH]; [done|]. csimpl. by rewrite Hl, IH. }
  destruct (lookup_lt_is_Some_2 (mjoin lg) i) as [row Hrow].
  { rewrite Hlen. by eapply lookup_lt_Some. }
  unfold mlm_loss_fct. rewrite (lm_loss_bad_label _ _ i row l); try done.
  assert (length row = V) as ->; [|done].
  apply Forall_join in Hrect. exact (Forall_lookup_1 _ _ _ _ Hrect Hrow).
Qed.

(** With [return_dict] unset the distillation arguments are never read:
    the call returns what it returns with any others, and what it returns
    is the tuple, led by the loss exactly when there are labels. *)
Theorem tuple_output_ignores_distillation self (input_ids : option (list (list Z)))
    (am : option mask) (hm : option (list HM)) (embeds : option tensor)
    (labels : option (list (list Z))) (oa ohs rd : option bool)
    (args : Encoder.interchange_args) (a a' : loss_args) :
  default (config_use_return_dict self) rd = false →
  forward self input_ids am hm embeds labels oa ohs rd args a
  = forward self input_ids am hm embeds labels oa ohs rd args a'
  ∧ ∀ r, forward self input_ids am hm embeds labels oa ohs rd args a = ret r →
      ∃ mlm_loss prediction_logits hs ats,
        r = Tuple mlm_loss prediction_logits hs ats
        ∧ (is_Some mlm_loss ↔ is_Some labels).
Proof.
  intros Hrd. split.
  - unfold forward. by rewrite Hrd.
  - intros r Hrun. apply forward_inv in Hrun as (out & mlm_loss & _ & Hmlm & Hr).
    rewrite Hrd in Hr. subst r. do 4 eexists. split; [done|].
    destruct labels as [labels|].
    + destruct Hmlm as (? & ? & _ & _ & ->). split; by eexists.
    + subst mlm_loss. split; intros [? [=]].
Qed.

(** *** What the distillation needs *)

(** A step that raised is recorded as having returned: no such run. *)
Ltac no_run :=
  match goal with
  | H : ?l = inr _ |- _ =>
      let l' := eval hnf in l in
      lazymatch l' with inl _ => exfalso; hnf in H; discriminate H end
  end.

(** The causal branch asks for the teacher's and the student's own
    outputs and reads none of them: a call that returns in this branch had
    all four, returns a mapping with exactly the two causal terms, and
    returns the same mapping whatever the four are, and whatever the four
    weights are. *)
Theorem causal_branch_reads_only_causal_teacher self
    (input_ids : option (list (list Z))) (am : option mask) (hm : option (list HM))
    (embeds : option tensor) (labels : option (list (list Z))) (oa ohs rd : option bool)
    (args : Encoder.interchange_args) (a : loss_args) (o : MaskedLMOutput (W := W)) :
  is_Some (causal_t_logits a) →
  forward self input_ids am hm embeds labels oa ohs rd args a = ret (Dict o) →
  (is_Some (t_logits a) ∧ is_Some (t_hidden_states a)
   ∧ is_Some (s_logits a) ∧ is_Some (s_hidden_states a))
  ∧ (∀ k, is_Some (extra o !! k) ↔ k = "causal_loss_ce" ∨ k = "causal_loss_cos")
  ∧ ∀ (tl sl : tensor) (ths shs : list tensor) (w1 w2 w3 w4 : R),
      forward self input_ids am hm embeds labels oa ohs rd args
        {| t_logits := Some tl; t_hidden_states := Some ths;
           causal_t_logits := causal_t_logits a;
           causal_t_hidden_states := causal_t_hidden_states a;
           s_logits := Some sl; s_hidden_states := Some shs;
           temperature := temperature a; restrict_ce_to_mask := restrict_ce_to_mask a;
           lm_labels := lm_labels a;
           alpha_mlm := w1; alpha_clm := w2; alpha_mse := w3; alpha_cos := w4 |}
      = ret (Dict o).
Proof.
  intros [ct Hct] Hrun.
  apply forward_dict in Hrun as (st & Hextra & _ & Hrun & Hback).
  unfold distillation_losses in Hrun. rewrite Hct in Hrun.
  assert (causal_losses self am a ct st = ret o) as Hcausal by done.
  unfold causal_losses in Hrun.
  step Hrun. step Hrun. step Hrun. step Hrun.
  apply bool_decide_eq_true in Hc, Hc0, Hc1, Hc2.
  split; [done|]. split.
  - repeat step Hrun. destruct p as [[ss ts] loss_ce]. step Hrun.
    injection Hrun as <-. intros k. cbn [extra set_item]. rewrite Hextra.
    destruct (decide (k = "causal_loss_cos")) as [->|Hk1].
    { rewrite lookup_insert_eq. split; [by right|by eexists]. }
    rewrite lookup_insert_ne by done.
    destruct (decide (k = "causal_loss_ce")) as [->|Hk2].
    { rewrite lookup_insert_eq. split; [by left|by eexists]. }
    rewrite lookup_insert_ne, lookup_empty by done.
    split; [by intros [? [=]]|by intros [|]].
  - intros tl sl ths shs w1 w2 w3 w4. apply Hback.
    unfold distillation_losses. cbn [causal_t_logits]. rewrite Hct.
    unfold causal_losses in Hcausal |- *.
    cbn [t_logits t_hidden_states s_logits s_hidden_states causal_t_hidden_states
         restrict_ce_to_mask lm_labels temperature].
    rewrite !(bool_decide_eq_true_2 (is_Some (Some _))) by by eexists.
    rewrite !(bool_decide_eq_true_2 (is_Some _)) in Hcausal by done.
    exact Hcausal.
Qed.

(** The losses take the student's hidden states from the mapping of the
    outputs, where they are only when hidden states were asked for (by the
    argument, or else by the configuration): a call with teacher logits
    that does not ask for them never returns. *)
Theorem distillation_needs_hidden_states self
    (input_ids : option (list (list Z))) (am : option mask) (hm : option (list HM))
    (embeds : option tensor) (labels : option (list (list Z))) (oa ohs rd : option bool)
    (args : Encoder.interchange_args) (a : loss_args) :
  default (Encoder.config_output_hidden_states (distilroberta self)) ohs = false →
  default (config_use_return_dict self) rd = true →
  is_Some (t_logits a) ∨ is_Some (causal_t_logits a) →
  ∃ e, forward self input_ids am hm embeds labels oa ohs rd args a = raise e.
Proof.
  intros Hohs Hrd Hteacher.
  destruct (forward _ _ _ _ _ _ _ _ _ _ _) as [e|r] eqn:Hrun; [by exists e|].
  exfalso. apply forward_inv in Hrun as (out & mlm_loss & Hout & _ & Hr).
  rewrite Hrd in Hr. destruct Hr as (o & -> & Hrun).
  apply EncoderLaws.model_forward_inv in Hout as (x & m & _ & Hout).
  apply EncoderLaws.transformer_forward_collects in Hout as [Hhs _].
  rewrite Hohs in Hhs.
  unfold distillation_losses in Hrun.
  destruct (causal_t_logits a) as [ct|].
  - unfold causal_losses in Hrun. cbn [hidden_states logits] in Hrun. rewrite Hhs in Hrun.
    do 5 step Hrun. cbn [from_option] in Hrun. raised Hrun.
  - destruct Hteacher as [[t Ht]|[? [=]]]. rewrite Ht in Hrun.
    unfold regular_losses in Hrun. cbn [hidden_states logits] in Hrun. rewrite Hhs in Hrun.
    step Hrun. cbn [from_option] in Hrun. raised Hrun.
Qed.

(** The mask of ones the encoder makes up for a missing attention mask
    never reaches the losses: without an attention mask, the causal branch
    never returns, and the plain branch returns only under
    [restrict_ce_to_mask] and without the cosine term. *)
Theorem distillation_needs_attention_mask self
    (input_ids : option (list (list Z))) (hm : option (list HM))
    (embeds : option tensor) (labels : option (list (list Z))) (oa ohs rd : option bool)
    (args : Encoder.interchange_args) (a : loss_args) :
  default (config_use_return_dict self) rd = true →
  is_Some (causal_t_logits a)
  ∨ (is_Some (t_logits a) ∧ (default false (restrict_ce_to_mask a) = false ∨ 0 < alpha_cos a)) →
  ∃ e, forward self input_ids None hm embeds labels oa ohs rd args a = raise e.
Proof.
  intros Hrd Hcase.
  destruct (forward _ _ _ _ _ _ _ _ _ _ _) as [e|r] eqn:Hrun; [by exists e|].
  exfalso. apply forward_inv in Hrun as (out & mlm_loss & _ & _ & Hr).
  rewrite Hrd in Hr. destruct Hr as (o & -> & Hrun).
  unfold distillation_losses in Hrun.
  destruct (causal_t_logits a) as [ct|].
  - unfold causal_losses in Hrun. repeat step Hrun.
    destruct p as [[ss ts] v]. unfold cosine_block in Hrun. repeat step Hrun. no_run.
  - destruct Hcase as [[? [=]]|[[t Ht] Hcase]]. rewrite Ht in Hrun.
    destruct Hcase as [Hrestrict|Hcos].
    + unfold regular_losses in Hrun. step Hrun. step Hrun. step Hrun.
      unfold soft_target_block, ce_mask in Hrun. rewrite Hrestrict in Hrun. done.
    + unfold regular_losses in Hrun.
      step Hrun. step Hrun. step Hrun. step Hrun. destruct p as [[ss ts] v].
      step Hrun. step Hrun.
      rewrite (decide_True (P := 0 < alpha_cos a)) in Hrun by done.
      unfold cosine_block in Hrun. repeat step Hrun. no_run.
Qed.

End Forward.

Lemma loss_terms_never_negative_witness :
  ∃ o, Toy.toy_forward 1 1 = ret (Dict o)
     ∧ (∀ v, loss o = Some (Num v) → 0 <= v)
     ∧ ∀ k v, k ∈ ["loss_ce"; "loss_mlm"; "loss_mse"; "causal_loss_ce"] →
              extra o !! k = Some (Num v) → 0 <= v.
Proof.
  destruct toy_forward_both as [o Ho]. exists o. split; [exact Ho|].
  apply (loss_terms_never_negative Toy.toy_model (Some [[5; 6]]%Z) (Some [[true; true]])
           None None None None (Some true) None (Encoder.mkArgs None None [] [])
           (Toy.toy_args 1 1) (Dict o)).
  - cbn. intros [= H]. lra.
  - exact Ho.
Defined.

Lemma ignored_labels_give_nan_witness :
  ∃ r, Samples.ignored_forward = ret r
     ∧ match r with
       | Tuple mlm_loss _ _ _ => mlm_loss = Some NaN
       | Dict o => loss o = Some NaN
       end.
Proof.
  eexists. split; [reflexivity|].
  apply (ignored_labels_give_nan Toy.toy_model (Some [[5; 6]]%Z) (Some [[true; true]])
           None None [[-100; -100]]%Z None None (Some false)
           (Encoder.mkArgs None None [] []) (Toy.toy_args 0 0)).
  - repeat constructor.
  - reflexivity.
Defined.

Lemma label_out_of_range_raises_witness :
  forward Toy.toy_model (Some [[5; 6]]%Z) (Some [[true; true]]) None None
    (Some [[0; 7]]%Z) None None (Some false) (Encoder.mkArgs None None [] [])
    (Toy.toy_args 0 0)
  = raise IndexError.
Proof.
  apply (label_out_of_range_raises Toy.toy_model (Some [[5; 6]]%Z) (Some [[true; true]])
           None None [[0; 7]]%Z None None (Some false) (Encoder.mkArgs None None [] [])
           (Toy.toy_args 0 0)
           {| Encoder.last_hidden_state := [[[1; 2]; [3; 4]]];
              Encoder.hidden_states := None; Encoder.attentions := None |} 2 7%Z).
  - reflexivity.
  - reflexivity.
  - lia.
  - repeat constructor.
  - repeat constructor.
  - apply elem_of_cons. right. apply elem_of_cons. by left.
  - lia.
  - lia.
Defined.

Lemma tuple_output_ignores_distillation_witness :
  forward Toy.toy_model (Some [[5; 6]]%Z) (Some [[true; true]]) None None None
    None None (Some false) (Encoder.mkArgs None None [] []) (Toy.toy_args 0 0)
  = forward Toy.toy_model (Some [[5; 6]]%Z) (Some [[true; true]]) None None None
      None None (Some false) (Encoder.mkArgs None None [] []) Samples.causal_args
  ∧ ∀ r, forward Toy.toy_model (Some [[5; 6]]%Z) (Some [[true; true]]) None None None
           None None (Some false) (Encoder.mkArgs None None [] []) (Toy.toy_args 0 0)
         = ret r →
      ∃ mlm_loss prediction_logits hs ats,
        r = Tuple mlm_loss prediction_logits hs ats
        ∧ (is_Some mlm_loss ↔ is_Some (None : option (list (list Z)))).
Proof.
  apply (tuple_output_ignores_distillation Toy.toy_model). reflexivity.
Defined.

Lemma causal_forward_returns : ∃ o, Samples.causal_forward = ret (Dict o).
Proof.
  eexists. unfold Samples.causal_forward, forward. cbn.
  rewrite !bool_decide_eq_true_2 by (done || by eexists). cbn.
  assert (expand_as [[true; true]] [[[1; 2]; [3; 4]]]
          = ret [[[true; true]; [true; true]]]) as -> by reflexivity.
  cbn.
  assert (slct [[[1; 2]; [3; 4]]] [[[true; true]; [true; true]]] 2
          = ret [[1; 2]; [3; 4]]) as -> by reflexivity.
  cbn. rewrite bool_decide_eq_true_2 by done. cbn. reflexivity.
Defined.

Lemma causal_branch_reads_only_causal_teacher_witness :
  ∃ o, Samples.causal_forward = ret (Dict o)
     ∧ ∀ k, is_Some (extra o !! k) ↔ k = "causal_loss_ce" ∨ k = "causal_loss_cos".
Proof.
  destruct causal_forward_returns as [o Ho]. exists o. split; [exact Ho|].
  apply (causal_branch_reads_only_causal_teacher Toy.toy_model (Some [[5; 6]]%Z)
           (Some [[true; true]]) None None None None (Some true) None
           (Encoder.mkArgs None None [] []) Samples.causal_args o).
  - by eexists.
  - exact Ho.
Defined.

Lemma distillation_needs_hidden_states_witness :
  ∃ e, forward Toy.toy_model (Some [[5; 6]]%Z) (Some [[true; true]]) None None None
         None None None (Encoder.mkArgs None None [] []) (Toy.toy_args 0 0)
       = raise e.
Proof.
  apply (distillation_needs_hidden_states Toy.toy_model).
  - reflexivity.
  - reflexivity.
  - left. by eexists.
Defined.

Lemma distillation_needs_attention_mask_witness :
  ∃ e, forward Toy.toy_model (Some [[5; 6]]%Z) None None None None
         None (Some true) None (Encoder.mkArgs None None [] []) (Toy.toy_args 0 0)
       = raise e.
Proof.
  apply (distillation_needs_attention_mask Toy.toy_model).
  - reflexivity.
  - right. split; [by eexists|]. by left.
Defined.

End LossLaws.

(** ** The embedding layer *)

Module EmbedFacts.

Import Embed.

Local Open Scope R_scope.

Lemma embedding_row_error (weight : list (list R)) (i : Z) (e : exn) :
  embedding_row weight i = raise e → e = IndexError.
Proof.
  unfold embedding_row. destruct (decide _); [|by intros [= <-]].
  destruct (weight !! _); [done|]. by intros [= <-].
Qed.

Lemma embedding_row_outside (weight : list (list R)) (i : Z) :
  ¬ (0 ≤ i < Z.of_nat (length weight))%Z → embedding_row weight i = raise IndexError.
Proof.
  intros Hout. unfold embedding_row. destruct (decide _) as [Hi|]; [|done].
  rewrite lookup_ge_None_2; [done|]. lia.
Qed.

Lemma embedding_row_inside (weight : list (list R)) (i : Z) :
  (0 ≤ i < Z.of_nat (length weight))%Z →
  embedding_row weight i = ret (default [] (weight !! Z.to_nat i)).
Proof.
  intros Hi. unfold embedding_row. rewrite decide_True by lia.
  destruct (lookup_lt_is_Some_2 weight (Z.to_nat i)) as [r ->]; [lia|]. done.
Qed.

Lemma embedding_outside (weight : list (list R)) (ids : list (list Z)) (i : Z) :
  i ∈ mjoin ids → ¬ (0 ≤ i < Z.of_nat (length weight))%Z →
  embedding weight ids = raise IndexError.
Proof.
  intros Hi Hout. apply list_elem_of_join in Hi as (row & Hi & Hrow).
  unfold embedding. apply (mapM_raises _ _ _ row); [done| |].
  - apply (mapM_raises _ _ _ i); [done|by apply embedding_row_outside|].
    intros j e' _. apply embedding_row_error.
  - intros row' e' _ Hrun.
    assert (∀ l : list Z, mapM (embedding_row weight) l = raise e' → e' = IndexError) as Hall.
    { clear. induction l as [|j l IH]; [done|]. cbn.
      destruct (embedding_row weight j) as [e|r] eqn:Hj.
      - intros [= <-]. by eapply embedding_row_error.
      - cbn. destruct (mapM _ l) as [e|rs]; [|done]. intros [= <-]. by apply IH. }
    by eapply Hall.
Qed.

Lemma embedding_error (weight : list (list R)) (ids : list (list Z)) (e : exn) :
  embedding weight ids = raise e → e = IndexError.
Proof.
  unfold embedding. induction ids as [|row ids IH]; [done|]. cbn.
  destruct (mapM (embedding_row weight) row) as [e1|r] eqn:Hrow.
  - intros [= <-]. revert Hrow. clear. revert e1.
    induction row as [|j l IH]; intros e1; [done|]. cbn.
    destruct (embedding_row weight j) as [e|r] eqn:Hj.
    + intros [= <-]. by eapply embedding_row_error.
    + cbn. destruct (mapM _ l) as [e|rs]; [|done]. intros [= <-]. by apply IH.
  - cbn. destruct (mapM _ ids) as [e1|rs]; [|done]. intros [= <-]. by apply IH.
Qed.

Lemma embedding_inside (weight : list (list R)) (ids : list (list Z)) :
  Forall (Forall (λ i, 0 ≤ i < Z.of_nat (length weight))%Z) ids →
  embedding weight ids
  = ret ((λ row : list Z, (λ i, default [] (weight !! Z.to_nat i)) <$> row) <$> ids).
Proof.
  intros Hids. unfold embedding. apply mapM_ret_fmap. intros row Hrow.
  apply mapM_ret_fmap. intros i Hi. apply embedding_row_inside.
  rewrite Forall_forall in Hids. specialize (Hids row Hrow).
  rewrite Forall_forall in Hids. by apply Hids.
Qed.

(** A token id that is no row of the word table stops [forward] with an
    [IndexError]. *)
Theorem forward_unknown_token (self : Embeddings) (input_ids : list (list Z)) (i : Z) :
  i ∈ mjoin input_ids →
  ¬ (0 ≤ i < Z.of_nat (length (word_embeddings self)))%Z →
  forward self input_ids = raise IndexError.
Proof.
  intros Hi Hout. unfold forward.
  by rewrite (embedding_outside (word_embeddings self) input_ids i Hi Hout).
Qed.

(** *** Broadcasting *)

Lemma broadcast2_one_r {X Y V} (f : X → Y → result V) (l : list X) (y : Y) :
  broadcast2 f l [y] = mapM (λ x, f x y) l.
Proof.
  unfold broadcast2. destruct (decide (length l = length [y])) as [Hl|Hl].
  - destruct l as [|x [|??]]; try done.
  - destruct l as [|x [|??]]; done.
Qed.

Lemma broadcast2_mismatch {X Y V} (f : X → Y → result V) (l : list X) (k : list Y) :
  length l ≠ length k → length l ≠ 1%nat → length k ≠ 1%nat →
  broadcast2 f l k = raise RuntimeError.
Proof.
  intros Hne Hl Hk. unfold broadcast2. rewrite decide_False by done.
  destruct l as [|x [|??]], k as [|y [|??]]; done.
Qed.

Lemma add_entries (a b : list R) :
  length a = length b →
  broadcast2 (λ x y : R, ret (x + y)) a b = ret (zip_with Rplus a b).
Proof.
  intros Hlen. unfold broadcast2. rewrite decide_True by done.
  rewrite (mapM_ret_fmap _ (λ p : R * R, p.1 + p.2)) by done.
  f_equal. clear Hlen. revert b. induction a as [|x a IH]; intros [|y b]; try done.
  csimpl. by rewrite IH.
Qed.

Lemma add_positions (xs ys : list (list R)) :
  Forall2 (λ a b, length a = length b) xs ys →
  broadcast2 (broadcast2 (λ x y : R, ret (x + y))) xs ys
  = ret (zip_with (zip_with Rplus) xs ys).
Proof.
  intros Hall. unfold broadcast2 at 1.
  rewrite decide_True by by eapply Forall2_length.
  rewrite (mapM_ret_fmap _ (λ p : list R * list R, zip_with Rplus p.1 p.2)).
  - f_equal. clear. revert ys. induction xs as [|x xs IH]; intros [|y ys]; try done.
    csimpl. by rewrite IH.
  - intros [a b] Hin. apply list_elem_of_lookup in Hin as [i Hi].
    apply lookup_zip_with_Some in Hi as (a' & b' & [= <- <-] & Ha & Hb).
    apply add_entries. exact (Forall2_lookup_lr _ _ _ _ _ _ Hall Ha Hb).
Qed.

Lemma arange_take (n k : nat) : (k ≤ n)%nat → take k (arange n) = arange k.
Proof.
  intros Hk. unfold arange. rewrite <- fmap_take, take_seq. f_equal. f_equal. lia.
Qed.

Lemma arange_take_all (n k : nat) : (n ≤ k)%nat → take k (arange n) = arange n.
Proof. intros Hk. apply take_ge. unfold arange. rewrite length_fmap, length_seq. lia. Qed.

Lemma arange_inside (n m : nat) :
  (n ≤ m)%nat → Forall (λ i, 0 ≤ i < Z.of_nat m)%Z (arange n).
Proof.
  intros Hn. apply Forall_forall. intros i Hi. unfold arange in Hi.
  apply list_elem_of_fmap in Hi as (j & -> & Hj). apply elem_of_seq in Hj. lia.
Qed.

Lemma size1_rows (ids : list (list Z)) (L : nat) :
  ids ≠ [] → Forall (λ row, length row = L) ids → size1 ids = L.
Proof. intros Hne Hall. destruct ids; [done|]. by apply Forall_cons in Hall as [? _]. Qed.

(** *** What [forward] computes *)

(** On a batch of token ids of the vocabulary, all sequences of one
    length that the buffer of position ids covers, [forward] returns
    [dropout(LayerNorm(e))], where the entry of [e] at position [j] of a
    sequence is the row of the word table at the token id plus row [j] of
    the position table, the same row for every sequence of the batch. *)
Theorem forward_adds_position_rows (self : Embeddings) (input_ids : list (list Z))
    (L P d : nat) :
  position_ids self = Some [arange P] →
  input_ids ≠ [] → Forall (λ row, length row = L) input_ids →
  (L ≤ P)%nat → (P ≤ length (Sinusoid.data (position_embeddings self)))%nat →
  Forall (Forall (λ i, 0 ≤ i < Z.of_nat (length (word_embeddings self)))%Z) input_ids →
  Forall (λ row, length row = d) (word_embeddings self) →
  Forall (λ row, length row = d) (Sinusoid.data (position_embeddings self)) →
  forward self input_ids
  = ret (dropout self (LayerNorm self
      ((λ row : list Z,
          zip_with (λ (i : Z) (j : nat),
                      zip_with Rplus
                        (default [] (word_embeddings self !! Z.to_nat i))
                        (default [] (Sinusoid.data (position_embeddings self) !! j)))
            row (seq 0 L)) <$> input_ids))).
Proof.
  intros Hbuf Hne Hrows HL HP Hids Hword Hpos.
  unfold forward. rewrite Hbuf, (size1_rows _ L) by done.
  rewrite (embedding_inside (word_embeddings self) input_ids) by done. rewrite bind_inr.
  change ((λ row : list Z, take L row) <$> [arange P]) with [take L (arange P)].
  rewrite arange_take by done.
  rewrite embedding_inside by (repeat constructor; apply arange_inside; lia).
  rewrite bind_inr.
  change ((λ row : list Z,
             (λ i : Z, default [] (Sinusoid.data (position_embeddings self) !! Z.to_nat i))
             <$> row) <$> [arange L])
    with [(λ i : Z, default [] (Sinusoid.data (position_embeddings self) !! Z.to_nat i))
          <$> arange L].
  unfold add. rewrite broadcast2_one_r.
  set (prow := (λ i : Z, default [] (Sinusoid.data (position_embeddings self) !! Z.to_nat i))
               <$> arange L).
  set (wrow := λ row : list Z,
                 (λ i : Z, default [] (word_embeddings self !! Z.to_nat i)) <$> row).
  assert (∀ (w : list (list R)) (i : nat), (i < length w)%nat →
            Forall (λ row, length row = d) w → length (default [] (w !! i)) = d) as Hwidth.
  { intros w i Hi Hw. destruct (lookup_lt_is_Some_2 w i Hi) as [r Hr].
    rewrite Hr. exact (Forall_lookup_1 _ _ _ _ Hw Hr). }
  rewrite (mapM_ret_fmap _ (λ x, zip_with (zip_with Rplus) x prow)).
  - rewrite bind_inr. do 3 f_equal. rewrite <- list_fmap_compose.
    apply list_fmap_ext. intros _ row _. cbn. unfold prow, arange, wrow.
    rewrite <- list_fmap_compose. rewrite zip_with_fmap_l, zip_with_fmap_r.
    apply zip_with_ext; [|done..]. intros i j. cbn. by rewrite Nat2Z.id.
  - intros x Hx. apply list_elem_of_fmap in Hx as (row & -> & Hrow).
    apply add_positions. apply Forall2_same_length_lookup. split.
    + unfold wrow, prow, arange. rewrite !length_fmap, length_seq.
      rewrite Forall_forall in Hrows. by apply Hrows.
    + intros k a b Ha Hb. unfold wrow in Ha. unfold prow, arange in Hb.
      rewrite list_lookup_fmap in Ha. rewrite !list_lookup_fmap in Hb.
      destruct (row !! k) as [i|] eqn:Hi; [|done].
      destruct (seq 0 L !! k) as [j|] eqn:Hj; [|done].
      injection Ha as <-. injection Hb as <-.
      apply lookup_seq in Hj as [-> Hk].
      rewrite !Hwidth; [done|lia|done| |done].
      rewrite Forall_forall in Hids. specialize (Hids row Hrow).
      rewrite Forall_forall in Hids.
      specialize (Hids i (list_elem_of_lookup_2 _ _ _ Hi)). lia.
Qed.

(** *** Sequences longer than the position table *)

(** With the buffer of position ids registered, a batch of sequences
    longer than the buffer is refused by the addition: the word embeddings
    have one row per token and the position embeddings one row per entry
    of the buffer. *)
Lemma forward_buffer_shorter (self : Embeddings) (input_ids : list (list Z))
    (L P : nat) :
  position_ids self = Some [arange P] →
  input_ids ≠ [] → Forall (λ row, length row = L) input_ids →
  (P < L)%nat → (2 ≤ L)%nat → P ≠ 1%nat →
  (P ≤ length (Sinusoid.data (position_embeddings self)))%nat →
  Forall (Forall (λ i, 0 ≤ i < Z.of_nat (length (word_embeddings self)))%Z) input_ids →
  forward self input_ids = raise RuntimeError.
Proof.
  intros Hbuf Hne Hrows HL H2 HP1 HP Hids.
  unfold forward. rewrite Hbuf, (size1_rows _ L) by done.
  rewrite (embedding_inside (word_embeddings self) input_ids) by done. rewrite bind_inr.
  change ((λ row : list Z, take L row) <$> [arange P]) with [take L (arange P)].
  rewrite arange_take_all by lia.
  rewrite embedding_inside by (repeat constructor; by apply arange_inside).
  rewrite bind_inr.
  change ((λ row : list Z,
             (λ i : Z, default [] (Sinusoid.data (position_embeddings self) !! Z.to_nat i))
             <$> row) <$> [arange P])
    with [(λ i : Z, default [] (Sinusoid.data (position_embeddings self) !! Z.to_nat i))
          <$> arange P].
  unfold add. rewrite broadcast2_one_r.
  destruct input_ids as [|row0 ids]; [done|]. apply Forall_cons in Hrows as [Hrow0 _].
  cbn [fmap list_fmap mapM]. rewrite broadcast2_mismatch; [done|..].
  - unfold arange. rewrite !length_fmap, length_seq. lia.
  - rewrite length_fmap. lia.
  - unfold arange. by rewrite !length_fmap, length_seq.
Qed.

(** Without the buffer, the position ids are [0 .. seq_length - 1], and
    a batch of sequences longer than the position table is refused by the
    lookup of the positions. *)
Theorem forward_longer_than_table (self : Embeddings) (input_ids : list (list Z)) :
  position_ids self = None → input_ids ≠ [] →
  (length (Sinusoid.data (position_embeddings self)) < size1 input_ids)%nat →
  forward self input_ids = raise IndexError.
Proof.
  intros Hbuf Hne HL. unfold forward. rewrite Hbuf.
  destruct (embedding (word_embeddings self) input_ids) as [e|w] eqn:Hw.
  { by apply embedding_error in Hw as ->. }
  rewrite bind_inr.
  rewrite (embedding_outside _ _
             (Z.of_nat (length (Sinusoid.data (position_embeddings self))))); [done| |lia].
  destruct input_ids as [|row0 ids]; [done|]. cbn [fmap list_fmap]. csimpl.
  apply elem_of_app. left. unfold arange.
  apply list_elem_of_fmap. eexists. split; [done|]. apply elem_of_seq. cbn in HL. lia.
Qed.

Lemma forward_unknown_token_witness :
  forward Samples.small_embeddings [[0; 5]]%Z = raise IndexError.
Proof.
  apply (forward_unknown_token Samples.small_embeddings [[0; 5]]%Z 5%Z).
  - apply elem_of_cons. right. apply elem_of_cons. by left.
  - cbn. lia.
Defined.

Lemma forward_adds_position_rows_witness :
  forward Samples.small_embeddings [[0; 2]; [1; 1]]%Z
  = ret (dropout Samples.small_embeddings (LayerNorm Samples.small_embeddings
      ((λ row : list Z,
          zip_with (λ (i : Z) (j : nat),
                      zip_with Rplus
                        (default [] (word_embeddings Samples.small_embeddings !! Z.to_nat i))
                        (default []
                           (Sinusoid.data (position_embeddings Samples.small_embeddings)
                              !! j)))
            row (seq 0 2)) <$> [[0; 2]; [1; 1]]%Z))).
Proof.
  apply (forward_adds_position_rows Samples.small_embeddings [[0; 2]; [1; 1]]%Z 2 2 2).
  - reflexivity.
  - done.
  - repeat constructor.
  - lia.
  - cbn. lia.
  - repeat constructor; cbn; lia.
  - repeat constructor.
  - repeat constructor.
Defined.

Lemma forward_longer_than_table_witness :
  forward Samples.no_buffer_embeddings [[0; 1; 2]]%Z = raise IndexError.
Proof.
  apply (forward_longer_than_table Samples.no_buffer_embeddings [[0; 1; 2]]%Z).
  - reflexivity.
  - done.
  - cbn. lia.
Defined.

End EmbedFacts.

(** ** Resizing the position table *)

Module ResizeFacts.

Import Embed Resize EmbedFacts.

Local Open Scope R_scope.

Lemma drawn_length (init : nat → nat → R) (n d : nat) : length (drawn init n d) = n.
Proof. unfold drawn. by rewrite length_fmap, length_seq. Qed.

Lemma drawn_width (init : nat → nat → R) (n d : nat) :
  Forall (λ row, length row = d) (drawn init n d).
Proof.
  apply Forall_forall. intros row Hrow. unfold drawn in Hrow.
  apply list_elem_of_fmap in Hrow as (i & -> & _). by rewrite length_fmap, length_seq.
Qed.

Lemma set_max_same (self : DistilRobertaModel) :
  set_max (max_position_embeddings (config self)) self = self.
Proof. by destruct self as [[] ?]. Qed.

Lemma set_position_embeddings_same (self : DistilRobertaModel) :
  set_position_embeddings (position_embeddings (embeddings self)) self = self.
Proof. by destruct self as [? []]. Qed.

(** Writing the old rows over the first rows of a larger table. *)
Lemma assign_old_rows (fresh old : list (list R)) (k : Z) (d : nat) :
  (0 < k)%Z → Z.of_nat (length fresh) = (Z.of_nat (length old) + k)%Z →
  Forall (λ row, length row = d) fresh → Forall (λ row, length row = d) old →
  assign_rows fresh 0 (- k) old = ret (old ++ drop (length old) fresh).
Proof.
  intros Hk Hlen Hfresh Hold. unfold assign_rows.
  assert (Encoder.slice_bounds (length fresh) 0 (- k) = (0, length old)%nat) as Hb.
  { unfold Encoder.slice_bounds. rewrite decide_False by lia.
    rewrite decide_True by lia. f_equal; lia. }
  rewrite Hb. cbn [fst snd]. rewrite Nat.sub_0_r, drop_0.
  rewrite broadcast_to_same by (rewrite length_take; lia). rewrite bind_inr.
  rewrite (mapM_ret_fmap _ snd).
  - rewrite bind_inr. unfold Encoder.slice_set, Encoder.slice_width. rewrite Hb.
    cbn [fst snd]. rewrite take_0, Nat.sub_0_r, snd_zip; [done|].
    rewrite length_take. lia.
  - intros [r v] Hin. apply list_elem_of_lookup in Hin as [i Hi].
    apply lookup_zip_with_Some in Hi as (r' & v' & [= <- <-] & Hr & Hv).
    cbn. apply broadcast_to_same.
    apply lookup_take_Some in Hr as [Hr _].
    pose proof (Forall_lookup_1 _ _ _ _ Hfresh Hr) as H1.
    pose proof (Forall_lookup_1 _ _ _ _ Hold Hv) as H2. cbn beta in H1, H2. lia.
Qed.

(** A resize of a learned table, to any size that is not negative. *)
Lemma resize_learned (init : nat → nat → R) (new : Z) (self : DistilRobertaModel) :
  consistent self → sinusoidal_pos_embds (config self) = false → (0 ≤ new)%Z →
  let old := Sinusoid.data (position_embeddings (embeddings self)) in
  ∃ grad,
    resize_position_embeddings init new self
    = (set_position_embeddings
         {| Sinusoid.data :=
              take (Z.to_nat new)
                (old ++ drop (length old)
                          (drawn init (Z.to_nat new) (hidden_size (config self))));
            Sinusoid.requires_grad := grad |}
         (set_max new self),
       None).
Proof.
  intros [Hrows Hwidth] Hsin Hnew old. unfold resize_position_embeddings.
  destruct (decide (new - max_position_embeddings (config self) = 0)%Z) as [Hsame|Hdiff].
  - assert (new = max_position_embeddings (config self)) as -> by lia.
    exists (Sinusoid.requires_grad (position_embeddings (embeddings self))).
    rewrite set_max_same. rewrite <- Hrows, Nat2Z.id. fold old.
    rewrite take_app_length'; [|done..].
    rewrite <- (set_position_embeddings_same self) at 1.
    by destruct self as [? [? [] ? ? ?]].
  - unfold new_embedding. cbn [config set_max max_position_embeddings hidden_size].
    rewrite decide_False by lia. cbv beta iota delta [ret].
    cbn [config embeddings set_position_embeddings set_max sinusoidal_pos_embds
         position_embeddings Sinusoid.data Sinusoid.requires_grad].
    rewrite Hsin. fold old.
    destruct (decide (0 < new - max_position_embeddings (config self))%Z) as [Hup|Hdown].
    + rewrite (assign_old_rows _ _ _ (hidden_size (config self)));
        [|lia|rewrite drawn_length; fold old in Hrows; lia|apply drawn_width|done].
      exists true. rewrite take_ge; [done|].
      rewrite length_app, length_drop, drawn_length. fold old in Hrows. lia.
    + exists true. fold old in Hrows.
      assert (Encoder.slice_bounds (length old) 0
                (new - max_position_embeddings (config self))
              = (0, Z.to_nat new)%nat) as ->.
      { unfold Encoder.slice_bounds. rewrite decide_False by lia.
        rewrite decide_True by lia. f_equal; lia. }
      cbn [fst snd]. rewrite Nat.sub_0_r, drop_0.
      rewrite take_app_le by lia. done.
Qed.

(** A resize of a learned table to a size that is not negative returns,
    and leaves the table with as many rows as asked for and the
    configuration with that size: a row the old table had is the old row, a
    row past the old table is a fresh draw; the word table and the buffer
    of position ids are as they were. *)
Theorem resize_keeps_learned_rows (init : nat → nat → R) (new : Z)
    (self : DistilRobertaModel) :
  consistent self → sinusoidal_pos_embds (config self) = false → (0 ≤ new)%Z →
  ∃ self',
    resize_position_embeddings init new self = (self', None)
    ∧ consistent self'
    ∧ max_position_embeddings (config self') = new
    ∧ hidden_size (config self') = hidden_size (config self)
    ∧ word_embeddings (embeddings self') = word_embeddings (embeddings self)
    ∧ position_ids (embeddings self') = position_ids (embeddings self)
    ∧ ∀ j, (j < Z.to_nat new)%nat →
        Sinusoid.data (position_embeddings (embeddings self')) !! j
        = if decide (j < length (Sinusoid.data (position_embeddings (embeddings self))))%nat
          then Sinusoid.data (position_embeddings (embeddings self)) !! j
          else Some (init j <$> seq 0 (hidden_size (config self))).
Proof.
  intros Hcons Hsin Hnew.
  destruct (resize_learned init new self Hcons Hsin Hnew) as [grad ->].
  destruct Hcons as [Hrows Hwidth].
  set (old := Sinusoid.data (position_embeddings (embeddings self))) in *.
  set (d := hidden_size (config self)) in *.
  eexists. split; [done|]. cbn.
  assert (∀ j, (length old ≤ j < Z.to_nat new)%nat →
            drop (length old) (drawn init (Z.to_nat new) d) !! (j - length old)%nat
            = Some (init j <$> seq 0 d)) as Hdrawn.
  { intros j Hj. rewrite lookup_drop. unfold drawn.
    rewrite list_lookup_fmap, lookup_seq_lt by lia. cbn. do 3 f_equal. lia. }
  split; [split|].
  - cbn. rewrite length_take, length_app, length_drop, drawn_length. lia.
  - cbn. apply Forall_take, Forall_app. split; [done|].
    apply Forall_drop, drawn_width.
  - repeat split. intros j Hj. rewrite lookup_take_lt by done.
    destruct (decide (j < length old)%nat) as [Hold|Hnew'].
    + by rewrite lookup_app_l.
    + rewrite lookup_app_r by lia. apply Hdrawn. lia.
Qed.

(** Growing a learned table and resizing it back to its size gives back
    its rows, and the configuration. *)
Theorem resize_up_and_back (init init' : nat → nat → R) (new : Z)
    (self : DistilRobertaModel) :
  consistent self → sinusoidal_pos_embds (config self) = false →
  (max_position_embeddings (config self) ≤ new)%Z →
  ∃ self1 self2,
    resize_position_embeddings init new self = (self1, None)
    ∧ resize_position_embeddings init' (max_position_embeddings (config self)) self1
      = (self2, None)
    ∧ config self2 = config self
    ∧ Sinusoid.data (position_embeddings (embeddings self2))
      = Sinusoid.data (position_embeddings (embeddings self)).
Proof.
  intros Hcons Hsin Hnew. pose proof Hcons as [Hrows Hwidth].
  assert (0 ≤ max_position_embeddings (config self))%Z as Hmax by lia.
  destruct (resize_learned init new self Hcons Hsin) as [grad H1]; [lia|].
  set (old := Sinusoid.data (position_embeddings (embeddings self))) in *.
  set (d := hidden_size (config self)) in *.
  match type of H1 with _ = (?m, None) => set (self1 := m) in * end.
  assert (consistent self1) as Hcons1.
  { split; cbn.
    - rewrite length_take, length_app, length_drop, drawn_length. lia.
    - apply Forall_take, Forall_app. split; [done|]. apply Forall_drop, drawn_width. }
  destruct (resize_learned init' (max_position_embeddings (config self)) self1 Hcons1)
    as [grad' H2]; [done|done|].
  eexists _, _. split; [exact H1|]. split; [exact H2|]. cbn. split.
  - by destruct self as [[] ?].
  - rewrite <- Hrows. fold old. rewrite Nat2Z.id.
    rewrite take_app_le by (rewrite length_take, length_app; lia).
    rewrite take_take, Nat.min_l by lia.
    by rewrite take_app_length.
Qed.

(** On a model with sinusoidal position embeddings, a resize to another
    size never returns: it raises, and has by then set the size of the
    configuration.  For a size that is not negative the exception is the
    [AttributeError] of [self.position_embeddings], and the table is by
    then a table of fresh draws of the new size, not a sinusoidal one; for
    a negative size it is the [RuntimeError] of [nn.Embedding], and the
    embedding layer is as it was. *)
Theorem resize_sinusoidal_raises (init : nat → nat → R) (new : Z)
    (self : DistilRobertaModel) :
  sinusoidal_pos_embds (config self) = true →
  new ≠ max_position_embeddings (config self) →
  ∃ self' e,
    resize_position_embeddings init new self = (self', Some e)
    ∧ max_position_embeddings (config self') = new
    ∧ ((0 ≤ new)%Z →
       e = AttributeError
       ∧ Sinusoid.data (position_embeddings (embeddings self'))
         = drawn init (Z.to_nat new) (hidden_size (config self)))
    ∧ ((new < 0)%Z → e = RuntimeError ∧ embeddings self' = embeddings self).
Proof.
  intros Hsin Hne. unfold resize_position_embeddings.
  rewrite decide_False by lia. unfold new_embedding.
  cbn [config set_max max_position_embeddings hidden_size].
  destruct (decide (new < 0)%Z) as [Hneg|Hpos].
  - eexists _, _. split; [done|]. split; [done|]. split; [lia|done].
  - cbv beta iota delta [ret].
    cbn [config embeddings set_position_embeddings set_max sinusoidal_pos_embds].
    rewrite Hsin. eexists _, _. split; [done|]. split; [done|]. split; [done|lia].
Qed.

(** A learned table can be grown, but the buffer of position ids stays
    as long as it was: after a resize to a larger size (or to the same),
    the embedding layer still refuses every batch of sequences longer than
    the old size. *)
Theorem resize_leaves_buffer (init : nat → nat → R) (new : Z)
    (self : DistilRobertaModel) (input_ids : list (list Z)) (L P : nat) :
  consistent self → sinusoidal_pos_embds (config self) = false →
  max_position_embeddings (config self) = Z.of_nat P → (Z.of_nat P ≤ new)%Z →
  position_ids (embeddings self) = Some [arange P] →
  input_ids ≠ [] → Forall (λ row, length row = L) input_ids →
  (P < L)%nat → (2 ≤ L)%nat → P ≠ 1%nat →
  Forall (Forall (λ i, 0 ≤ i < Z.of_nat (length (word_embeddings (embeddings self))))%Z)
    input_ids →
  forward (embeddings (resize_position_embeddings init new self).1) input_ids
  = raise RuntimeError.
Proof.
  intros Hcons Hsin Hmax Hnew Hbuf Hne Hrows HL H2 HP1 Hids.
  destruct (resize_learned init new self Hcons Hsin) as [grad ->]; [lia|].
  destruct Hcons as [Hlen _]. cbn [fst].
  apply (forward_buffer_shorter _ _ L P); try done.
  cbn. rewrite length_take, length_app, length_drop, drawn_length. lia.
Qed.

Lemma learned_model_consistent : consistent Samples.learned_model.
Proof. split; [reflexivity|repeat constructor]. Qed.

Lemma resize_keeps_learned_rows_witness :
  ∃ self',
    resize_position_embeddings Samples.zeros 3 Samples.learned_model = (self', None)
    ∧ consistent self'
    ∧ max_position_embeddings (config self') = 3%Z
    ∧ hidden_size (config self') = hidden_size (config Samples.learned_model)
    ∧ word_embeddings (embeddings self')
      = word_embeddings (embeddings Samples.learned_model)
    ∧ position_ids (embeddings self') = position_ids (embeddings Samples.learned_model)
    ∧ ∀ j, (j < Z.to_nat 3)%nat →
        Sinusoid.data (position_embeddings (embeddings self')) !! j
        = if decide (j < length (Sinusoid.data
                                   (position_embeddings
                                      (embeddings Samples.learned_model))))%nat
          then Sinusoid.data (position_embeddings (embeddings Samples.learned_model)) !! j
          else Some (Samples.zeros j <$> seq 0 (hidden_size (config Samples.learned_model))).
Proof.
  apply (resize_keeps_learned_rows Samples.zeros 3 Samples.learned_model).
  - exact learned_model_consistent.
  - reflexivity.
  - lia.
Defined.

Lemma resize_up_and_back_witness :
  ∃ self1 self2,
    resize_position_embeddings Samples.zeros 3 Samples.learned_model = (self1, None)
    ∧ resize_position_embeddings Samples.zeros
        (max_position_embeddings (config Samples.learned_model)) self1
      = (self2, None)
    ∧ config self2 = config Samples.learned_model
    ∧ Sinusoid.data (position_embeddings (embeddings self2))
      = Sinusoid.data (position_embeddings (embeddings Samples.learned_model)).
Proof.
  apply (resize_up_and_back Samples.zeros Samples.zeros 3 Samples.learned_model).
  - exact learned_model_consistent.
  - reflexivity.
  - cbn. lia.
Defined.

Lemma resize_sinusoidal_raises_witness :
  ∃ self' e,
    resize_position_embeddings Samples.zeros 3 Samples.sinusoidal_model = (self', Some e)
    ∧ max_position_embeddings (config self') = 3%Z
    ∧ ((0 ≤ 3)%Z →
       e = AttributeError
       ∧ Sinusoid.data (position_embeddings (embeddings self'))
         = drawn Samples.zeros (Z.to_nat 3) (hidden_size (config Samples.sinusoidal_model)))
    ∧ ((3 < 0)%Z → e = RuntimeError ∧ embeddings self' = embeddings Samples.sinusoidal_model).
Proof.
  apply (resize_sinusoidal_raises Samples.zeros 3 Samples.sinusoidal_model).
  - reflexivity.
  - cbn. lia.
Defined.

Lemma resize_leaves_buffer_witness :
  forward (embeddings (resize_position_embeddings Samples.zeros 3 Samples.learned_model).1)
    [[0; 1; 2]]%Z
  = raise RuntimeError.
Proof.
  apply (resize_leaves_buffer Samples.zeros 3 Samples.learned_model [[0; 1; 2]]%Z 3 2).
  - exact learned_model_consistent.
  - reflexivity.
  - reflexivity.
  - lia.
  - reflexivity.
  - done.
  - repeat constructor.
  - lia.
  - lia.
  - lia.
  - repeat constructor; cbn; lia.
Defined.

End ResizeFacts.

(** ** The whole sinusoidal table *)

Module SinusoidLaws.

Import Sinusoid SinusoidFacts.

Local Open Scope R_scope.

(** The entry of the table at position [pos] and index [j]. *)
Lemma stride_pair_lookup (r : list R) (dim pos j : nat) :
  length r = dim → (j < dim)%nat →
  assign_stride false
    (assign_stride true r (sin <$> stride true (angle dim pos <$> seq 0 dim)))
    (cos <$> stride false (angle dim pos <$> seq 0 dim)) !! j
  = Some (if Nat.even j then sin (angle dim pos j) else cos (angle dim pos j)).
Proof.
  intros Hlen Hj. destruct (lookup_lt_is_Some_2 r j) as [x Hx]; [lia|].
  rewrite !assign_stride_lookup, Hx.
  rewrite !list_lookup_fmap, !stride_lookup.
  destruct (Nat.even j) eqn:Hev.
  - rewrite decide_False by done. rewrite decide_True by done.
    rewrite (double_div2_even j Hev), angle_row_lookup by done. done.
  - rewrite decide_True by done.
    rewrite (double_div2_odd j Hev), angle_row_lookup by done. done.
Qed.

Lemma create_data (n_pos dim : nat) (out : weight) :
  (0 < n_pos)%nat → length (data out) = n_pos →
  Forall (λ r, length r = dim) (data out) →
  _create_sinusoidal_embeddings n_pos dim out
  = ret {| data :=
             (λ pos, (λ j, if Nat.even j then sin (angle dim pos j)
                           else cos (angle dim pos j)) <$> seq 0 dim) <$> seq 0 n_pos;
           requires_grad := false |}.
Proof.
  intros Hpos Hrows Hcols.
  set (S := (λ row, sin <$> stride true row) <$> position_enc n_pos dim).
  set (C := (λ row, cos <$> stride false row) <$> position_enc n_pos dim).
  set (d1 := (λ p : list R * list R, assign_stride true p.1 p.2) <$> zip (data out) S).
  set (d2 := (λ p : list R * list R, assign_stride false p.1 p.2) <$> zip d1 C).
  assert (∀ pos, (pos < n_pos)%nat → ∃ r, data out !! pos = Some r ∧ length r = dim) as Hout.
  { intros pos Hlt. destruct (lookup_lt_is_Some_2 (data out) pos) as [r Hr]; [lia|].
    exists r. split; [done|]. exact (Forall_lookup_1 _ _ _ _ Hcols Hr). }
  assert (∀ pos r, (pos < n_pos)%nat → data out !! pos = Some r →
            d1 !! pos
            = Some (assign_stride true r
                      (sin <$> stride true (angle dim pos <$> seq 0 dim))))
    as Hd1.
  { intros pos r Hlt Hr. apply assign_columns_lookup; [done|].
    unfold S. by rewrite list_lookup_fmap, position_enc_lookup. }
  assert (assign_columns true (data out) S = ret d1) as Hstep1.
  { apply assign_columns_exact. apply Forall2_same_length_lookup. split.
    - unfold S, position_enc. by rewrite !length_fmap, length_seq.
    - intros i r v Hr Hv.
      assert (i < n_pos)%nat as Hi by (apply lookup_lt_Some in Hr; lia).
      unfold S in Hv. rewrite list_lookup_fmap, position_enc_lookup in Hv by done.
      injection Hv as <-. destruct (Hout i Hi) as (r' & Hr' & Hlen).
      rewrite Hr in Hr'. injection Hr' as <-.
      by rewrite length_fmap, !stride_length, Hlen, length_fmap, length_seq. }
  assert (assign_columns false d1 C = ret d2) as Hstep2.
  { apply assign_columns_exact. apply Forall2_same_length_lookup. split.
    - unfold d1, C, S, position_enc.
      rewrite !length_fmap, length_zip, !length_fmap, length_seq. lia.
    - intros i r v Hr Hv. assert (i < n_pos)%nat as Hi.
      { apply lookup_lt_Some in Hv. unfold C, position_enc in Hv.
        by rewrite !length_fmap, length_seq in Hv. }
      unfold C in Hv. rewrite list_lookup_fmap, position_enc_lookup in Hv by done.
      injection Hv as <-. destruct (Hout i Hi) as (r' & Hr' & Hlen).
      rewrite (Hd1 i r' Hi Hr') in Hr. injection Hr as <-.
      by rewrite length_fmap, !stride_length, assign_stride_length, Hlen,
           length_fmap, length_seq. }
  unfold _create_sinusoidal_embeddings. rewrite decide_False by lia. cbn.
  fold S. rewrite Hstep1. cbn. fold C. rewrite Hstep2. cbn. do 2 f_equal.
  assert (length d2 = n_pos) as Hlen2.
  { unfold d2, d1, C, S, position_enc.
    repeat (rewrite length_fmap || rewrite length_zip || rewrite length_seq). lia. }
  apply list_eq_same_length with n_pos; [by rewrite length_fmap, length_seq|done|].
  intros pos row row' Hlt Hrow Hrow'.
  destruct (Hout pos Hlt) as (r & Hr & Hlen).
  assert (d2 !! pos = Some (assign_stride false
            (assign_stride true r (sin <$> stride true (angle dim pos <$> seq 0 dim)))
            (cos <$> stride false (angle dim pos <$> seq 0 dim)))) as Hd2.
  { apply assign_columns_lookup; [by apply Hd1|].
    unfold C. by rewrite list_lookup_fmap, position_enc_lookup. }
  rewrite Hd2 in Hrow. injection Hrow as <-.
  rewrite list_lookup_fmap, lookup_seq_lt in Hrow' by done. injection Hrow' as <-.
  apply list_eq_same_length with dim.
  - by rewrite length_fmap, length_seq.
  - by rewrite !assign_stride_length.
  - intros j x y Hj Hx Hy. rewrite stride_pair_lookup in Hx by done.
    rewrite list_lookup_fmap, lookup_seq_lt in Hy by done. cbn in Hy. congruence.
Qed.

(** The table depends on the shape of the weight alone: called on any
    weight of [n_pos > 0] rows of [dim] entries,
    [_create_sinusoidal_embeddings] returns one and the same table, of
    that shape, whatever the weight held, and takes it out of the gradient
    updates. *)
Theorem table_ignores_old_weights (n_pos dim : nat) :
  (0 < n_pos)%nat →
  ∃ table,
    length table = n_pos ∧ Forall (λ row, length row = dim) table
    ∧ ∀ out, length (data out) = n_pos → Forall (λ r, length r = dim) (data out) →
        _create_sinusoidal_embeddings n_pos dim out
        = ret {| data := table; requires_grad := false |}.
Proof.
  intros Hpos. eexists. split; [|split].
  3: { intros out Hrows Hcols. by apply create_data. }
  - by rewrite length_fmap, length_seq.
  - apply Forall_forall. intros row Hrow.
    apply list_elem_of_fmap in Hrow as (pos & -> & _). by rewrite length_fmap, length_seq.
Qed.

(** Every entry of the table lies between -1 and 1, and the row of
    position 0 is 0 at the even indices and 1 at the odd ones. *)
Theorem table_entries_bounded (n_pos dim : nat) (out w : weight) :
  length (data out) = n_pos → Forall (λ r, length r = dim) (data out) →
  _create_sinusoidal_embeddings n_pos dim out = ret w →
  Forall (Forall (λ x, -1 <= x <= 1)) (data w)
  ∧ data w !! 0%nat = Some ((λ j, if Nat.even j then 0 else 1) <$> seq 0 dim).
Proof.
  intros Hrows Hcols Hrun.
  assert (0 < n_pos)%nat as Hpos.
  { destruct n_pos; [|lia]. unfold _create_sinusoidal_embeddings in Hrun.
    by rewrite decide_True in Hrun. }
  rewrite create_data in Hrun by done. injection Hrun as <-. cbn [data]. split.
  - apply Forall_forall. intros row Hrow.
    apply list_elem_of_fmap in Hrow as (pos & -> & _).
    apply Forall_forall. intros x Hx. apply list_elem_of_fmap in Hx as (j & -> & _).
    destruct (Nat.even j); [apply SIN_bound|apply COS_bound].
  - rewrite list_lookup_fmap, lookup_seq_lt by done. cbn. f_equal.
    apply list_fmap_ext. intros _ j _.
    assert (angle dim 0 j = 0) as ->.
    { unfold angle. cbn [INR]. unfold Rdiv. by rewrite Rmult_0_l. }
    destruct (Nat.even j); [apply sin_0|apply cos_0].
Qed.

Lemma table_ignores_old_weights_witness :
  ∃ table,
    length table = 2%nat ∧ Forall (λ row, length row = 3%nat) table
    ∧ ∀ out, length (data out) = 2%nat → Forall (λ r, length r = 3%nat) (data out) →
        _create_sinusoidal_embeddings 2 3 out
        = ret {| data := table; requires_grad := false |}.
Proof. apply (table_ignores_old_weights 2 3). lia. Defined.

Lemma table_entries_bounded_witness :
  ∃ w, _create_sinusoidal_embeddings 2 3 (mkWeight [[0; 0; 0]; [0; 0; 0]] true) = ret w
     ∧ Forall (Forall (λ x, -1 <= x <= 1)) (data w)
     ∧ data w !! 0%nat = Some ((λ j, if Nat.even j then 0 else 1) <$> seq 0 3).
Proof.
  eexists. split; [apply create_data; [lia|reflexivity|repeat constructor]|].
  apply (table_entries_bounded 2 3 (mkWeight [[0; 0; 0]; [0; 0; 0]] true)).
  - reflexivity.
  - repeat constructor.
  - apply create_data; [lia|reflexivity|repeat constructor].
Defined.

End SinusoidLaws.


(** ** Attention weights and masked keys *)

Lemma mapM_Forall2 {X Y} (f : X → result Y) (l : list X) (k : list Y) :
  mapM f l = ret k ↔ Forall2 (λ x y, f x = ret y) l k.
Proof.
  revert k. induction l as [|x l IH]; intros k.
  { split; [intros [= <-]; constructor | by intros ->%Forall2_nil_inv_l]. }
  cbn. split.
  - destruct (f x) as [e|y] eqn:Hy; [done|]. cbn.
    destruct (mapM f l) as [e|ys] eqn:Hys; [done|]. cbn. intros [= <-].
    constructor; [done|]. by apply IH.
  - intros (y & ys & Hy & Hys & ->)%Forall2_cons_inv_l.
    rewrite Hy. cbn. apply IH in Hys. rewrite Hys. done.
Qed.

Module AttentionLaws.

Import Loss Attention.

Local Open Scope R_scope.

Lemma reshape_uniform {X} (n : nat) (l : list (list X)) :
  Forall (λ r, length r = n) l → reshape (replicate (length l) n) (mjoin l) = l.
Proof.
  intros Hl. transitivity (reshape (length <$> l) (mjoin l)); [|apply reshape_join].
  f_equal. induction Hl as [|r l Hr _ IH]; [done|]. cbn. by rewrite Hr, IH.
Qed.

Lemma exps_finite (r : R) (row : list score) : exps (Finite r :: row) = exp r :: exps row.
Proof. done. Qed.

Lemma exps_minus_inf (row : list score) : exps (MinusInf :: row) = exps row.
Proof. done. Qed.

Lemma exps_nonneg (row : list score) : 0 <= sum_R (exps row).
Proof.
  induction row as [|[x|] row IH].
  - unfold sum_R. simpl. lra.
  - rewrite exps_finite, LossFacts.sum_R_cons. pose proof (exp_pos x). lra.
  - by rewrite exps_minus_inf.
Qed.

Lemma exps_pos (row : list score) :
  forallb is_minus_inf row = false → 0 < sum_R (exps row).
Proof.
  induction row as [|[x|] row IH]; intros Hall; [done| |by apply IH].
  rewrite exps_finite, LossFacts.sum_R_cons.
  pose proof (exp_pos x). pose proof (exps_nonneg row). lra.
Qed.

Lemma weights_sum (t : R) (row : list score) :
  sum_R ((λ s, match s with Finite r => exp r / t | MinusInf => 0 end) <$> row)
  = sum_R (exps row) / t.
Proof.
  induction row as [|[x|] row IH].
  - unfold sum_R. simpl. lra.
  - rewrite fmap_cons, exps_finite, !LossFacts.sum_R_cons, IH. lra.
  - rewrite fmap_cons, exps_minus_inf, LossFacts.sum_R_cons, IH. lra.
Qed.

(** The two shapes of a row of [nn.Softmax(dim=-1)] after the mask. *)
Lemma softmax_row_spec (row : list score) :
  if forallb is_minus_inf row then softmax_row row = replicate (length row) NaN
  else ∃ ws, softmax_row row = Num <$> ws ∧ sum_R ws = 1 ∧
         Forall2 (λ s w, match s with Finite _ => 0 < w | MinusInf => w = 0 end) row ws.
Proof.
  unfold softmax_row. destruct (forallb is_minus_inf row) eqn:Hall.
  { clear Hall. induction row as [|s row IH]; [done|]. cbn. by rewrite IH. }
  fold (exps row). pose proof (exps_pos row Hall) as Hpos.
  set (t := sum_R (exps row)) in *.
  exists ((λ s, match s with Finite r => exp r / t | MinusInf => 0 end) <$> row).
  split; [|split].
  - rewrite <- list_fmap_compose. apply list_fmap_ext. by intros _ [r|] _.
  - rewrite weights_sum. fold t. field. lra.
  - apply Forall2_fmap_r, Forall_Forall2_diag, Forall_forall. intros [r|] _; [|done].
    pose proof (exp_pos r). by apply Rdiv_lt_0_compat.
Qed.

(** The stages of a call of [forward] that returns. *)
Lemma attention_forward_inv (self : MultiHeadSelfAttention) (query key value : tensor)
    (mask : option (list (list bool))) (head_mask : option (list R)) (oa : bool)
    (r : list (list (list scalar)) * option (per_head scalar)) :
  forward self query key value mask head_mask oa = ret r →
  ∃ d q k v m filled w c,
    floordiv (dim self) (num_attention_heads self) = ret d
    ∧ linear (q_lin self) query ≫= shape (length query) (num_attention_heads self) d = ret q
    ∧ linear (k_lin self) key ≫= shape (length query) (num_attention_heads self) d = ret k
    ∧ linear (v_lin self) value ≫= shape (length query) (num_attention_heads self) d = ret v
    ∧ view_mask (length query) (size1 key) mask = ret m
    ∧ masked_fill (scores_of (scale_queries d q) k) m = ret filled
    ∧ match head_mask with
      | Some head_mask => mask_heads (dropout self (softmax_last filled)) head_mask
      | None => ret (dropout self (softmax_last filled))
      end = ret w
    ∧ context_of d w v = ret c
    ∧ mapM (mapM (out_row (out_lin self))) (unshape c) = ret r.1
    ∧ r.2 = if oa then Some w else None.
Proof.
  unfold forward. intros Hrun.
  destruct (floordiv (dim self) (num_attention_heads self)) as [|d] eqn:Hd; [raised Hrun|].
  rewrite bind_inr in Hrun.
  destruct (linear (q_lin self) query ≫= shape (length query) (num_attention_heads self) d)
    as [|q] eqn:Hq; [raised Hrun|]. rewrite bind_inr in Hrun.
  destruct (linear (k_lin self) key ≫= shape (length query) (num_attention_heads self) d)
    as [|k] eqn:Hk; [raised Hrun|]. rewrite bind_inr in Hrun.
  destruct (linear (v_lin self) value ≫= shape (length query) (num_attention_heads self) d)
    as [|v] eqn:Hv; [raised Hrun|]. rewrite bind_inr in Hrun.
  destruct (view_mask (length query) (size1 key) mask) as [|m] eqn:Hm; [raised Hrun|].
  rewrite bind_inr in Hrun.
  destruct (masked_fill (scores_of (scale_queries d q) k) m) as [|filled] eqn:Hfill; [raised Hrun|].
  rewrite bind_inr in Hrun.
  destruct (match head_mask with
            | Some head_mask => mask_heads (dropout self (softmax_last filled)) head_mask
            | None => ret (dropout self (softmax_last filled))
            end) as [|w] eqn:Hw; [raised Hrun|]. rewrite bind_inr in Hrun.
  destruct (context_of d w v) as [|c] eqn:Hc; [raised Hrun|]. rewrite bind_inr in Hrun.
  destruct (mapM (mapM (out_row (out_lin self))) (unshape c)) as [|o] eqn:Ho; [raised Hrun|].
  rewrite bind_inr in Hrun. injection Hrun as <-.
  by exists d, q, k, v, m, filled, w, c.
Qed.

(** A row after [masked_fill_]: the scores of the keys the mask keeps. *)
Lemma masked_fill_lookup (scores : per_head R) (m : list (list bool))
    (filled : per_head score) (b h i : nat) (fb : list (list (list score)))
    (fh : list (list score)) (row : list score) :
  masked_fill scores m = ret filled →
  filled !! b = Some fb → fb !! h = Some fh → fh !! i = Some row →
  ∃ mrow srow keep,
    m !! b = Some mrow ∧ broadcast_to (length srow) mrow = ret keep
    ∧ row = zip_with fill srow keep.
Proof.
  intros Hfill%mapM_Forall2 Hb Hh Hrow.
  destruct (Forall2_lookup_r _ _ _ _ _ Hfill Hb) as ([sb mrow] & Hp & Hsb).
  apply lookup_zip_with_Some in Hp as (? & ? & [= <- <-] & _ & Hmrow).
  cbn in Hsb. apply mapM_Forall2 in Hsb.
  destruct (Forall2_lookup_r _ _ _ _ _ Hsb Hh) as (sh & _ & Hsh).
  apply mapM_Forall2 in Hsh.
  destruct (Forall2_lookup_r _ _ _ _ _ Hsh Hrow) as (srow & _ & Hsrow).
  unfold fill_row in Hsrow.
  destruct (broadcast_to (length srow) mrow) as [|keep] eqn:Hkeep; [done|].
  injection Hsrow as <-. by exists mrow, srow, keep.
Qed.

Lemma filled_all_masked (srow : list R) (keep : list bool) :
  length keep = length srow →
  forallb is_minus_inf (zip_with fill srow keep) = forallb negb keep.
Proof.
  revert keep. induction srow as [|s srow IH]; intros [|[] keep] Hl; try done.
  cbn. apply IH. by injection Hl.
Qed.

Lemma filled_weights (srow : list R) (keep : list bool) (ws : list R) :
  length keep = length srow →
  Forall2 (λ s w, match s with Finite _ => 0 < w | MinusInf => w = 0 end)
          (zip_with fill srow keep) ws →
  Forall2 (λ (kept : bool) w, if kept then 0 < w else w = 0) keep ws.
Proof.
  revert keep ws. induction srow as [|s srow IH]; intros [|kept keep] ws Hl Hws; try done.
  { apply Forall2_nil_inv_l in Hws as ->. constructor. }
  cbn in Hws. apply Forall2_cons_inv_l in Hws as (w & ws' & Hw & Hws & ->).
  constructor; [by destruct kept|]. apply IH; [by injection Hl|done].
Qed.

Lemma view_mask_same (bs k_length : nat) (mask m : list (list bool)) :
  length mask = bs → Forall (λ r, length r = k_length) mask →
  view_mask bs k_length (Some mask) = ret m → m = mask.
Proof.
  intros <- Hrows. unfold view_mask. case_decide; [|done]. intros [= <-].
  by apply reshape_uniform.
Qed.

(** X28: without dropout and without a head mask, each row of the
    attention weights that [forward] returns is a probability distribution
    over the keys the mask of its sequence keeps: positive on those keys,
    zero on the masked ones, of sum 1; and it is a row of NaN when the mask
    keeps no key. *)
Theorem weights_are_distributions (self : MultiHeadSelfAttention)
    (query key value : tensor) (mask : list (list bool))
    (context : list (list (list scalar))) (weights : per_head scalar)
    (b h i : nat) (wb : list (list (list scalar))) (wh : list (list scalar))
    (row : list scalar) (mrow : list bool) :
  (∀ w, dropout self w = w) →
  length mask = length query → Forall (λ r, length r = size1 key) mask →
  forward self query key value (Some mask) None true = ret (context, Some weights) →
  weights !! b = Some wb → wb !! h = Some wh → wh !! i = Some row →
  mask !! b = Some mrow →
  ∃ keep, broadcast_to (length row) mrow = ret keep
    ∧ ((forallb negb keep = true ∧ row = replicate (length row) NaN)
       ∨ (∃ ws, row = Num <$> ws ∧ sum_R ws = 1
            ∧ Forall2 (λ (kept : bool) w, if kept then 0 < w else w = 0) keep ws)).
Proof.
  intros Heval Hbs Hrect Hrun Hb Hh Hi Hmrow.
  apply attention_forward_inv in Hrun as (d & q & k & v & m & filled & w & c
    & _ & _ & _ & _ & Hm & Hfill & Hw & _ & _ & Hout).
  cbn in Hout. injection Hout as ->. rewrite Heval in Hw. injection Hw as <-.
  apply view_mask_same in Hm as ->; [|done..].
  unfold softmax_last in Hb. rewrite list_lookup_fmap in Hb.
  destruct (filled !! b) as [fb|] eqn:Hfb; [|done]. injection Hb as <-.
  rewrite list_lookup_fmap in Hh.
  destruct (fb !! h) as [fh|] eqn:Hfh; [|done]. injection Hh as <-.
  rewrite list_lookup_fmap in Hi.
  destruct (fh !! i) as [frow|] eqn:Hfrow; [|done]. injection Hi as <-.
  destruct (masked_fill_lookup _ _ _ _ _ _ _ _ _ Hfill Hfb Hfh Hfrow)
    as (mrow' & srow & keep & Hmrow' & Hkeep & ->).
  rewrite Hmrow in Hmrow'. injection Hmrow' as <-.
  pose proof (EncoderLaws.broadcast_to_length _ _ _ Hkeep) as Hlen.
  assert (Hrow : length (softmax_row (zip_with fill srow keep)) = length srow).
  { unfold softmax_row. destruct (forallb _ _);
      rewrite length_fmap, length_zip_with; lia. }
  exists keep. split; [by rewrite Hrow|].
  pose proof (softmax_row_spec (zip_with fill srow keep)) as Hspec.
  rewrite filled_all_masked in Hspec by done.
  destruct (forallb negb keep) eqn:Hall.
  - left. split; [done|]. rewrite Hrow, Hspec. f_equal.
    rewrite length_zip_with. lia.
  - right. destruct Hspec as (ws & Hws & Hsum & Hsigns).
    exists ws. split; [done|]. split; [done|]. by apply filled_weights with srow.
Qed.

(** *** Keys and values at masked positions *)

Lemma linear_row_length (l : Linear) (x y : list R) :
  linear_row l x = ret y → length y = (length (weight l) `min` length (bias l))%nat.
Proof.
  unfold linear_row. case_decide; [|done]. intros [= <-]. by rewrite length_zip_with.
Qed.

Lemma linear_row_agree (l : Linear) (kept : bool) (x x' y : list R) :
  agree kept x x' → linear_row l x = ret y →
  ∃ y', linear_row l x' = ret y' ∧ agree kept y y'.
Proof.
  intros [Hlen Heq] Hy. unfold linear_row in *. rewrite <- Hlen.
  case_decide; [|done]. injection Hy as <-. eexists. split; [done|].
  split; [by rewrite !length_zip_with|]. intros Hk. by rewrite (Heq Hk).
Qed.

Lemma linear_agree (l : Linear) (m : list (list bool)) (t t' T : tensor) :
  same_where_kept m t t' → linear l t = ret T →
  ∃ T', linear l t' = ret T' ∧ same_where_kept m T T'.
Proof.
  unfold linear. intros Hag. revert T.
  induction Hag as [|mrow tb tb' m t t' Hrow _ IH]; intros T Hrun.
  { injection Hrun as <-. exists []. split; [done|constructor]. }
  apply mapM_Forall2 in Hrun.
  apply Forall2_cons_inv_l in Hrun as (Tb & T0 & HTb & HT0 & ->).
  apply mapM_Forall2 in HT0. destruct (IH _ HT0) as (T0' & HT0' & Hag0).
  assert (∃ Tb', mapM (linear_row l) tb' = ret Tb' ∧ Forall3 agree mrow Tb Tb')
    as (Tb' & HTb' & Hagb).
  { clear -Hrow HTb. revert Tb HTb.
    induction Hrow as [|kept x x' mrow tb tb' Hx _ IH]; intros Tb HTb.
    { injection HTb as <-. exists []. split; [done|constructor]. }
    apply mapM_Forall2 in HTb.
    apply Forall2_cons_inv_l in HTb as (y & ys & Hy & Hys & ->).
    apply mapM_Forall2 in Hys. destruct (IH _ Hys) as (ys' & Hys' & Hag).
    destruct (linear_row_agree _ _ _ _ _ Hx Hy) as (y' & Hy' & Hyy).
    exists (y' :: ys'). split; [|by constructor].
    apply mapM_Forall2. constructor; [done|]. by apply mapM_Forall2. }
  exists (Tb' :: T0'). split; [|by constructor].
  apply mapM_Forall2. constructor; [done|]. by apply mapM_Forall2.
Qed.

Lemma reshape_app {X} (szs1 szs2 : list nat) (l1 l2 : list X) :
  length l1 = sum_list szs1 →
  reshape (szs1 ++ szs2) (l1 ++ l2) = reshape szs1 l1 ++ reshape szs2 l2.
Proof.
  revert l1. induction szs1 as [|sz szs1 IH]; intros l1 Hl.
  { by destruct l1. }
  cbn in *. rewrite take_app_le, drop_app_le by lia. f_equal.
  apply IH. rewrite length_drop. lia.
Qed.

Lemma length_join_uniform {X} (w : nat) (l : list (list X)) :
  Forall (λ r, length r = w) l → length (mjoin l) = (length l * w)%nat.
Proof.
  induction 1 as [|r l Hr _ IH]; [done|].
  change (mjoin (r :: l)) with (r ++ mjoin l).
  rewrite length_app, Hr, IH. cbn [length]. lia.
Qed.

Lemma chunks_of_rows (n d : nat) (tb : list (list R)) :
  Forall (λ row, length row = (n * d)%nat) tb →
  reshape (replicate (length tb * n) d) (mjoin tb)
  = mjoin ((λ row, reshape (replicate n d) row) <$> tb).
Proof.
  induction 1 as [|row tb Hrow _ IH]; [done|].
  change (length (row :: tb) * n)%nat with (n + length tb * n)%nat.
  change (mjoin (row :: tb)) with (row ++ mjoin tb).
  rewrite fmap_cons.
  change (mjoin (?x :: ?l)) with (x ++ mjoin l).
  rewrite replicate_add, reshape_app, IH; [done|].
  by rewrite sum_list_replicate.
Qed.

Lemma reshape_replicate_lookup {X} (n d h : nat) (l : list X) :
  (h < n)%nat → reshape (replicate n d) l !! h = Some (take d (drop (h * d) l)).
Proof.
  revert h l. induction n as [|n IH]; intros h l Hh; [lia|].
  destruct h as [|h]; [done|]. cbn. rewrite IH by lia. by rewrite drop_drop.
Qed.

Lemma transpose_split (n d : nat) (tb : list (list R)) :
  transpose n ((λ row, reshape (replicate n d) row) <$> tb) = split_heads n d tb.
Proof.
  unfold transpose, split_heads. apply list_fmap_ext. intros i h Hh.
  apply lookup_seq in Hh as [-> Hh]. cbn.
  induction tb as [|row tb IH]; [done|].
  cbn. rewrite reshape_replicate_lookup by done. cbn. by rewrite IH.
Qed.

(** [shape] on a tensor [(bs, L, n * d)]. *)
Lemma shape_split (bs n d L : nat) (T : tensor) :
  (bs * (n * d))%nat ≠ 0%nat → length T = bs →
  Forall (λ tb, length tb = L ∧ Forall (λ row, length row = (n * d)%nat) tb) T →
  shape bs n d T = ret (split_heads n d <$> T).
Proof.
  intros Hnz Hbs Hrect. unfold shape.
  assert (Hflat : Forall (λ r, length r = (L * (n * d))%nat)
                         ((mjoin : list (list R) → list R) <$> T)).
  { apply Forall_fmap. eapply Forall_impl; [exact Hrect|].
    intros tb [HL Hrows]. cbn. by rewrite (length_join_uniform _ _ Hrows), HL. }
  rewrite (length_join_uniform _ _ Hflat), length_fmap, Hbs.
  rewrite decide_False by done.
  replace (bs * (L * (n * d)))%nat with (L * (bs * (n * d)))%nat by lia.
  rewrite decide_True by apply Nat.Div0.mod_mul.
  replace (L * (bs * (n * d)))%nat with (L * (n * d) * bs)%nat by lia.
  rewrite Nat.div_mul by lia.
  rewrite <- Hbs, <- (length_fmap (mjoin : list (list R) → list R) T),
    (reshape_uniform _ _ Hflat).
  f_equal. rewrite <- list_fmap_compose. apply Forall_fmap_ext.
  eapply Forall_impl; [exact Hrect|]. intros tb [HL Hrows]. cbn.
  replace (L * (n * d) / d)%nat with (length tb * n)%nat.
  2:{ rewrite HL. replace (L * (n * d))%nat with (L * n * d)%nat by lia.
      rewrite Nat.div_mul by lia. done. }
  rewrite Nat.div_mul by lia.
  rewrite (chunks_of_rows _ _ _ Hrows), <- HL.
  rewrite <- (length_fmap (λ row, reshape (replicate n d) row) tb) at 1.
  rewrite reshape_uniform; [apply transpose_split|].
  apply Forall_fmap, Forall_forall. intros row _. cbn.
  by rewrite length_reshape, length_replicate.
Qed.

Lemma fill_row_agree (mrow : list bool) (kb kb' : list (list R)) (f : list R → R) :
  Forall3 agree mrow kb kb' → fill_row mrow (f <$> kb) = fill_row mrow (f <$> kb').
Proof.
  intros Hag. unfold fill_row. rewrite !length_fmap.
  rewrite <- (Forall3_length_lr _ _ _ _ Hag), <- (Forall3_length_lm _ _ _ _ Hag).
  rewrite broadcast_to_same by done. cbn. f_equal.
  induction Hag as [|kept x x' mrow kb kb' [_ Hx] _ IH]; [done|].
  cbn. rewrite IH. f_equal. destruct kept; [|done]. by rewrite Hx.
Qed.

Lemma scores_agree (mrow : list bool) (kb kb' : list (list R)) (g : list R → list R)
    (qh : list (list R)) :
  Forall3 agree mrow kb kb' →
  mapM (fill_row mrow) ((λ qrow : list R, (λ krow, dot qrow krow) <$> (g <$> kb)) <$> qh)
  = mapM (fill_row mrow) ((λ qrow : list R, (λ krow, dot qrow krow) <$> (g <$> kb')) <$> qh).
Proof.
  intros Hag. induction qh as [|qrow qh IH]; [done|].
  cbn. rewrite <- !list_fmap_compose.
  rewrite (fill_row_agree mrow kb kb' _ Hag), IH. done.
Qed.

Lemma batch_scores_agree (mrow : list bool) (kb kb' : list (list R))
    (g : nat → list R → list R) (qb : list (list (list R))) (hs : list nat) :
  Forall3 agree mrow kb kb' →
  mapM (mapM (fill_row mrow))
       (zip_with (λ qh kh : list (list R),
                    (λ qrow : list R, (λ krow, dot qrow krow) <$> kh) <$> qh)
                 qb ((λ h, g h <$> kb) <$> hs))
  = mapM (mapM (fill_row mrow))
       (zip_with (λ qh kh : list (list R),
                    (λ qrow : list R, (λ krow, dot qrow krow) <$> kh) <$> qh)
                 qb ((λ h, g h <$> kb') <$> hs)).
Proof.
  intros Hag. revert hs. induction qb as [|qh qb IH]; intros [|h hs]; try done.
  cbn. rewrite (scores_agree mrow kb kb' (g h) qh Hag), IH. done.
Qed.

Lemma split_scores_agree (n d : nat) (mrow : list bool) (kb kb' : list (list R))
    (qb : list (list (list R))) :
  Forall3 agree mrow kb kb' →
  mapM (mapM (fill_row mrow))
       (zip_with (λ qh kh : list (list R),
                    (λ qrow : list R, (λ krow, dot qrow krow) <$> kh) <$> qh)
                 qb (split_heads n d kb))
  = mapM (mapM (fill_row mrow))
       (zip_with (λ qh kh : list (list R),
                    (λ qrow : list R, (λ krow, dot qrow krow) <$> kh) <$> qh)
                 qb (split_heads n d kb')).
Proof.
  intros Hag.
  exact (batch_scores_agree mrow kb kb' (λ h row, take d (drop (h * d) row))
           qb (seq 0 n) Hag).
Qed.

Lemma masked_fill_agree (n d : nat) (m : list (list bool)) (K K' : tensor)
    (Q : per_head R) :
  same_where_kept m K K' →
  masked_fill (scores_of Q (split_heads n d <$> K)) m
  = masked_fill (scores_of Q (split_heads n d <$> K')) m.
Proof.
  intros Hag. revert Q. unfold masked_fill, scores_of.
  induction Hag as [|mrow kb kb' m K K' Hrow _ IH]; intros [|qb Q]; try done.
  cbn -[split_heads].
  rewrite (split_scores_agree n d mrow kb kb' qb Hrow), IH. done.
Qed.

Lemma masked_zero_tail (kept : bool) (mrow : list bool) (w : scalar) (row : list scalar) :
  masked_zero (kept :: mrow) (w :: row) → masked_zero mrow row.
Proof. intros Hz j x Hj Hx. by apply (Hz (S j) x). Qed.

Lemma weighted_terms_agree (mrow : list bool) (vb vb' : list (list R))
    (f : list R → R) (row : list scalar) :
  Forall3 agree mrow vb vb' → masked_zero mrow row →
  zip_with (λ w vrow, smul w (f vrow)) row vb
  = zip_with (λ w vrow, smul w (f vrow)) row vb'.
Proof.
  intros Hag. revert row.
  induction Hag as [|kept x x' mrow vb vb' [_ Hx] _ IH]; intros [|w row] Hz; try done.
  cbn. rewrite (IH row) by (by eapply masked_zero_tail). f_equal.
  destruct kept; [by rewrite Hx|].
  destruct (Hz 0%nat w eq_refl eq_refl) as [->| ->]; [done|].
  cbn. f_equal. lra.
Qed.

Lemma weighted_sum_agree (mrow : list bool) (vb vb' : list (list R))
    (g : list R → list R) (d : nat) (row : list scalar) :
  Forall3 agree mrow vb vb' → masked_zero mrow row →
  weighted_sum row (g <$> vb) d = weighted_sum row (g <$> vb') d.
Proof.
  intros Hag Hz. unfold weighted_sum. apply list_fmap_ext. intros _ j _.
  rewrite !zip_with_fmap_r.
  by rewrite (weighted_terms_agree mrow vb vb' (λ vrow, default 0 (g vrow !! j)) row).
Qed.

Lemma head_context_agree (mrow : list bool) (vb vb' : list (list R))
    (g : list R → list R) (d : nat) (wh : list (list scalar)) :
  Forall3 agree mrow vb vb' → Forall (masked_zero mrow) wh →
  mapM (λ row : list scalar,
          if decide (length row = length (g <$> vb))
          then ret (weighted_sum row (g <$> vb) d) else raise RuntimeError) wh
  = mapM (λ row : list scalar,
          if decide (length row = length (g <$> vb'))
          then ret (weighted_sum row (g <$> vb') d) else raise RuntimeError) wh.
Proof.
  intros Hag Hz. rewrite !length_fmap.
  rewrite <- (Forall3_length_lr _ _ _ _ Hag), <- (Forall3_length_lm _ _ _ _ Hag).
  induction Hz as [|row wh Hrow _ IH]; [done|].
  cbn. rewrite (weighted_sum_agree mrow vb vb' g d row Hag Hrow), IH. done.
Qed.

Lemma batch_context_agree (n d d' : nat) (mrow : list bool) (vb vb' : list (list R))
    (wb : list (list (list scalar))) :
  Forall3 agree mrow vb vb' → Forall (Forall (masked_zero mrow)) wb →
  mapM (λ ph : list (list scalar) * list (list R),
          mapM (λ row : list scalar,
                  if decide (length row = length ph.2)
                  then ret (weighted_sum row ph.2 d) else raise RuntimeError) ph.1)
       (zip wb (split_heads n d' vb))
  = mapM (λ ph : list (list scalar) * list (list R),
          mapM (λ row : list scalar,
                  if decide (length row = length ph.2)
                  then ret (weighted_sum row ph.2 d) else raise RuntimeError) ph.1)
       (zip wb (split_heads n d' vb')).
Proof.
  intros Hag Hz. unfold split_heads. generalize (seq 0 n) as hs.
  induction Hz as [|wh wb Hwh _ IH]; intros [|h hs]; try done.
  cbn. rewrite (head_context_agree mrow vb vb' _ d wh Hag Hwh), IH. done.
Qed.

Lemma context_agree (n d d' : nat) (m : list (list bool)) (V V' : tensor)
    (w : per_head scalar) :
  same_where_kept m V V' →
  (∀ b wb mrow, w !! b = Some wb → m !! b = Some mrow →
     Forall (Forall (masked_zero mrow)) wb) →
  context_of d w (split_heads n d' <$> V) = context_of d w (split_heads n d' <$> V').
Proof.
  intros Hag. revert w. unfold context_of.
  induction Hag as [|mrow vb vb' m V V' Hrow _ IH]; intros [|wb w] Hz; try done.
  cbn -[split_heads].
  rewrite (batch_context_agree n d d' mrow vb vb' wb Hrow (Hz 0%nat wb mrow eq_refl eq_refl)).
  rewrite (IH w); [done|]. intros b wb' mrow' Hb Hm. by apply (Hz (S b)).
Qed.

Lemma broadcast_to_dropped {X} (n j : nat) (l keep : list X) (x : X) :
  broadcast_to n l = ret keep → l !! j = Some x → (j < n)%nat → keep !! j = Some x.
Proof.
  unfold broadcast_to. case_decide; [by intros [= <-]|].
  destruct l as [|y [|??]]; [done| |done]. intros [= <-] Hj Hn.
  destruct j; [|done]. injection Hj as <-. by apply lookup_replicate_2.
Qed.

Lemma softmax_row_masked_zero (mrow keep : list bool) (srow : list R) :
  broadcast_to (length srow) mrow = ret keep →
  masked_zero mrow (softmax_row (zip_with fill srow keep)).
Proof.
  intros Hkeep j w Hj Hw. unfold softmax_row in Hw.
  destruct (forallb _ _).
  { rewrite list_lookup_fmap in Hw.
    destruct (zip_with fill srow keep !! j); [|done]. injection Hw as <-. by left. }
  rewrite list_lookup_fmap in Hw.
  destruct (zip_with fill srow keep !! j) as [s|] eqn:Hs; [|done]. injection Hw as <-.
  apply lookup_zip_with_Some in Hs as (x & kept & -> & Hx & Hkept).
  apply lookup_lt_Some in Hx.
  rewrite (broadcast_to_dropped _ _ _ _ _ Hkeep Hj Hx) in Hkept. injection Hkept as <-.
  by right.
Qed.

Lemma softmax_last_masked_zero (scores : per_head R) (m : list (list bool))
    (filled : per_head score) (b : nat) (wb : list (list (list scalar)))
    (mrow : list bool) :
  masked_fill scores m = ret filled →
  softmax_last filled !! b = Some wb → m !! b = Some mrow →
  Forall (Forall (masked_zero mrow)) wb.
Proof.
  intros Hfill Hb Hm. unfold softmax_last in Hb. rewrite list_lookup_fmap in Hb.
  destruct (filled !! b) as [fb|] eqn:Hfb; [|done]. injection Hb as <-.
  apply Forall_lookup_2. intros h wh Hh. rewrite list_lookup_fmap in Hh.
  destruct (fb !! h) as [fh|] eqn:Hfh; [|done]. injection Hh as <-.
  apply Forall_lookup_2. intros i row Hi. rewrite list_lookup_fmap in Hi.
  destruct (fh !! i) as [frow|] eqn:Hfrow; [|done]. injection Hi as <-.
  destruct (masked_fill_lookup _ _ _ _ _ _ _ _ _ Hfill Hfb Hfh Hfrow)
    as (mrow' & srow & keep & Hmrow' & Hkeep & ->).
  rewrite Hm in Hmrow'. injection Hmrow' as <-.
  by apply softmax_row_masked_zero.
Qed.

Lemma smul_masked_zero (mrow : list bool) (c : R) (row : list scalar) :
  masked_zero mrow row → masked_zero mrow ((λ w, smul w c) <$> row).
Proof.
  intros Hz j w Hj Hw. rewrite list_lookup_fmap in Hw.
  destruct (row !! j) as [x|] eqn:Hx; [|done]. injection Hw as <-.
  destruct (Hz j x Hj Hx) as [->| ->]; [by left|]. right. cbn. f_equal. lra.
Qed.

Lemma mask_heads_masked_zero (w w' : per_head scalar) (head_mask : list R)
    (m : list (list bool)) :
  mask_heads w head_mask = ret w' →
  (∀ b wb mrow, w !! b = Some wb → m !! b = Some mrow →
     Forall (Forall (masked_zero mrow)) wb) →
  ∀ b wb mrow, w' !! b = Some wb → m !! b = Some mrow →
    Forall (Forall (masked_zero mrow)) wb.
Proof.
  intros Hrun%mapM_Forall2 Hz b wb' mrow Hb Hm.
  destruct (Forall2_lookup_r _ _ _ _ _ Hrun Hb) as (wb & Hwb & Hmul).
  destruct (broadcast_to (length wb) head_mask) as [|factors]; [done|].
  injection Hmul as <-. specialize (Hz b wb mrow Hwb Hm).
  apply Forall_lookup_2. intros h wh Hh.
  apply lookup_zip_with_Some in Hh as (wh0 & c & -> & Hwh0 & _).
  pose proof (Forall_lookup_1 _ _ _ _ Hz Hwh0) as Hrows. cbn beta in Hrows.
  apply Forall_fmap. eapply Forall_impl; [exact Hrows|].
  intros row Hrow. by apply smul_masked_zero.
Qed.

Lemma same_where_kept_shapes (m : list (list bool)) (t t' : tensor) :
  same_where_kept m t t' →
  Forall2 (λ (mrow : list bool) (tb : list (list R)), length tb = length mrow) m t
  ∧ Forall2 (λ (mrow : list bool) (tb : list (list R)), length tb = length mrow) m t'
  ∧ size1 t' = size1 t.
Proof.
  intros Hag. split; [|split].
  - induction Hag as [|mrow tb tb' m t t' Hrow _ IH]; constructor; [|done].
    symmetry. by eapply Forall3_length_lm.
  - induction Hag as [|mrow tb tb' m t t' Hrow _ IH]; constructor; [|done].
    symmetry. by eapply Forall3_length_lr.
  - destruct Hag as [|mrow tb tb' m t t' Hrow _]; [done|]. cbn.
    by rewrite <- (Forall3_length_lr _ _ _ _ Hrow), <- (Forall3_length_lm _ _ _ _ Hrow).
Qed.

(** The shape of a projection of a tensor of the shape of the mask. *)
Lemma projection_shape (l : Linear) (D L : nat) (m : list (list bool)) (t T : tensor) :
  length (weight l) = D → length (bias l) = D →
  Forall2 (λ (mrow : list bool) (tb : list (list R)), length tb = length mrow) m t →
  Forall (λ r, length r = L) m →
  linear l t = ret T →
  length T = length m
  ∧ Forall (λ tb, length tb = L ∧ Forall (λ row, length row = D) tb) T.
Proof.
  intros Hw Hb Hshape Hrect Hrun. unfold linear in Hrun.
  pose proof (mapM_length _ _ _ Hrun) as HT. apply mapM_Forall2 in Hrun.
  split; [by rewrite HT, <- (Forall2_length _ _ _ Hshape)|].
  apply Forall_lookup_2. intros b Tb HTb.
  destruct (Forall2_lookup_r _ _ _ _ _ Hrun HTb) as (tb & Htb & Hrows).
  destruct (Forall2_lookup_r _ _ _ _ _ Hshape Htb) as (mrow & Hmrow & Hlen).
  pose proof (Forall_lookup_1 _ _ _ _ Hrect Hmrow) as HL. cbn beta in HL.
  split; [by rewrite (mapM_length _ _ _ Hrows), Hlen|].
  apply mapM_Forall2 in Hrows. apply Forall_lookup_2. intros i y Hy.
  destruct (Forall2_lookup_r _ _ _ _ _ Hrows Hy) as (x & _ & Hx).
  rewrite (linear_row_length _ _ _ Hx), Hw, Hb. lia.
Qed.

Lemma shape_nonzero (bs n d : nat) (x : tensor) (k : per_head R) :
  shape bs n d x = ret k → (bs * (n * d))%nat ≠ 0%nat.
Proof. unfold shape. by case_decide. Qed.

Lemma whole_heads_dim (self : MultiHeadSelfAttention) (d : nat) :
  (dim self mod num_attention_heads self = 0)%nat →
  floordiv (dim self) (num_attention_heads self) = ret d →
  (num_attention_heads self * d)%nat = dim self.
Proof.
  unfold floordiv. case_decide; [done|]. intros Hmod [= <-].
  symmetry. by apply Nat.Div0.div_exact.
Qed.

Lemma weights_are_distributions_witness :
  ∃ context weights wb wh row,
    forward Samples.identity_attention Samples.two_positions Samples.two_positions
      Samples.two_positions (Some Samples.first_kept) None true
    = ret (context, Some weights)
    ∧ weights !! 0%nat = Some wb ∧ wb !! 1%nat = Some wh ∧ wh !! 0%nat = Some row
    ∧ ∃ keep, broadcast_to (length row) [true; false] = ret keep
        ∧ ((forallb negb keep = true ∧ row = replicate (length row) NaN)
           ∨ (∃ ws, row = Num <$> ws ∧ sum_R ws = 1
                ∧ Forall2 (λ (kept : bool) w, if kept then 0 < w else w = 0) keep ws)).
Proof.
  eexists _, _, _, _, _.
  split; [reflexivity|]. split; [reflexivity|]. split; [reflexivity|].
  split; [reflexivity|].
  eapply (weights_are_distributions Samples.identity_attention Samples.two_positions
            Samples.two_positions Samples.two_positions Samples.first_kept
            _ _ 0 1 0).
  - done.
  - done.
  - by repeat constructor.
  - reflexivity.
  - reflexivity.
  - reflexivity.
  - reflexivity.
  - reflexivity.
Defined.

(** X29: without dropout, on a module whose key and value projections
    give whole heads, the keys and values at the positions the mask drops
    do not matter: [forward] returns the same context and the same
    weights for any other features at those positions. *)
Theorem masked_keys_do_not_matter (self : MultiHeadSelfAttention)
    (query key key' value value' : tensor) (mask : list (list bool))
    (head_mask : option (list R)) (output_attentions : bool)
    (r : list (list (list scalar)) * option (per_head scalar)) :
  (∀ w, dropout self w = w) → whole_heads self →
  length mask = length query → Forall (λ row, length row = size1 key) mask →
  same_where_kept mask key key' → same_where_kept mask value value' →
  forward self query key value (Some mask) head_mask output_attentions = ret r →
  forward self query key' value' (Some mask) head_mask output_attentions = ret r.
Proof.
  intros Heval (Hmod & Hkw & Hkb & Hvw & Hvb) Hbs Hrect Hkey Hvalue Hrun.
  apply attention_forward_inv in Hrun as (d & q & k & v & m & filled & w & c
    & Hd & Hq & Hk & Hv & Hm & Hfill & Hw & Hc & Ho & Hr).
  pose proof (whole_heads_dim self d Hmod Hd) as Hdim.
  destruct (same_where_kept_shapes _ _ _ Hkey) as (Hks & Hks' & Hsize).
  destruct (same_where_kept_shapes _ _ _ Hvalue) as (Hvs & Hvs' & _).
  pose proof Hm as Hm'. apply view_mask_same in Hm' as ->; [|done..].
  destruct (linear (k_lin self) key) as [|K] eqn:HK; [raised Hk|]. rewrite bind_inr in Hk.
  destruct (linear (v_lin self) value) as [|V] eqn:HV; [raised Hv|]. rewrite bind_inr in Hv.
  destruct (linear_agree _ _ _ _ _ Hkey HK) as (K' & HK' & HagK).
  destruct (linear_agree _ _ _ _ _ Hvalue HV) as (V' & HV' & HagV).
  pose proof (shape_nonzero _ _ _ _ _ Hk) as Hnz.
  rewrite <- Hdim in Hkw, Hkb, Hvw, Hvb.
  destruct (projection_shape _ _ _ _ _ _ Hkw Hkb Hks Hrect HK) as [HlenK HrK].
  destruct (projection_shape _ _ _ _ _ _ Hkw Hkb Hks' Hrect HK') as [HlenK' HrK'].
  destruct (projection_shape _ _ _ _ _ _ Hvw Hvb Hvs Hrect HV) as [HlenV HrV].
  destruct (projection_shape _ _ _ _ _ _ Hvw Hvb Hvs' Hrect HV') as [HlenV' HrV'].
  rewrite Hbs in HlenK, HlenK', HlenV, HlenV'.
  rewrite (shape_split _ _ _ _ _ Hnz HlenK HrK) in Hk. injection Hk as <-.
  rewrite (shape_split _ _ _ _ _ Hnz HlenV HrV) in Hv. injection Hv as <-.
  rewrite (masked_fill_agree _ _ _ _ _ _ HagK) in Hfill.
  assert (Hz : ∀ b wb mrow, w !! b = Some wb → mask !! b = Some mrow →
                 Forall (Forall (masked_zero mrow)) wb).
  { rewrite Heval in Hw. destruct head_mask as [hm|].
    - apply (mask_heads_masked_zero _ _ _ _ Hw). intros b wb mrow.
      by apply softmax_last_masked_zero with (1 := Hfill).
    - injection Hw as <-. intros b wb mrow.
      by apply softmax_last_masked_zero with (1 := Hfill). }
  rewrite (context_agree _ _ _ _ _ _ _ HagV Hz) in Hc.
  unfold forward. rewrite Hd, bind_inr, Hq, bind_inr, HK', bind_inr.
  rewrite (shape_split _ _ _ _ _ Hnz HlenK' HrK'), bind_inr, HV', bind_inr.
  rewrite (shape_split _ _ _ _ _ Hnz HlenV' HrV'), bind_inr, Hsize, Hm, bind_inr.
  rewrite Hfill, bind_inr, Hw, bind_inr, Hc, bind_inr, Ho, bind_inr.
  destruct r as [r1 r2]. cbn in Hr. by rewrite Hr.
Qed.

Lemma masked_keys_do_not_matter_witness :
  ∃ r,
    forward Samples.identity_attention Samples.two_positions Samples.two_positions
      Samples.two_positions (Some Samples.first_kept) None true = ret r
    ∧ forward Samples.identity_attention Samples.two_positions Samples.other_second_position
        Samples.other_second_position (Some Samples.first_kept) None true = ret r.
Proof.
  eexists. split; [reflexivity|].
  apply (masked_keys_do_not_matter Samples.identity_attention Samples.two_positions
           Samples.two_positions Samples.other_second_position
           Samples.two_positions Samples.other_second_position Samples.first_kept).
  - done.
  - by repeat split.
  - done.
  - by repeat constructor.
  - repeat constructor. all: by intros [=].
  - repeat constructor. all: by intros [=].
  - reflexivity.
Defined.

End AttentionLaws.

(** ** Chunking the feed-forward network *)

Module FeedForwardLaws.

Import Attention FeedForward.

Local Open Scope R_scope.

(** Computations that raise nothing but [e0]. *)
Lemma mapM_only {X Y} (e0 : exn) (f : X → result Y) (l : list X) (e : exn) :
  (∀ x e, f x = raise e → e = e0) → mapM f l = raise e → e = e0.
Proof.
  intros Hf. induction l as [|x l IH]; [done|].
  cbn. destruct (f x) as [e'|y] eqn:Hy.
  { intros [= <-]. by apply (Hf x). }
  cbn. destruct (mapM f l) as [e'|ys]; [|done]. intros [= <-]. by apply IH.
Qed.

Lemma mapM_fmap {X Y Z} (f : Y → result Z) (g : X → Y) (l : list X) :
  mapM f (g <$> l) = mapM (λ x, f (g x)) l.
Proof. induction l as [|x l IH]; [done|]. cbn. by rewrite IH. Qed.

Lemma mapM_ext {X Y} (f g : X → result Y) (l : list X) :
  (∀ x, f x = g x) → mapM f l = mapM g l.
Proof. intros Hfg. induction l as [|x l IH]; [done|]. cbn. by rewrite Hfg, IH. Qed.

(** Two passes over a list are one pass, when both raise the same
    exception. *)
Lemma mapM_bind {X Y Z} (e0 : exn) (f1 : X → result Y) (f2 : Y → result Z) (l : list X) :
  (∀ x e, f1 x = raise e → e = e0) → (∀ y e, f2 y = raise e → e = e0) →
  mapM f1 l ≫= mapM f2 = mapM (λ x, f1 x ≫= f2) l.
Proof.
  intros H1 H2. induction l as [|x l IH]; [done|].
  cbn. destruct (f1 x) as [e|y] eqn:Hy; [done|]. cbn.
  destruct (f2 y) as [e|z] eqn:Hz.
  - cbn. destruct (mapM f1 l) as [e'|ys] eqn:Hys; cbn.
    + by rewrite (mapM_only e0 f1 l e' H1 Hys), (H2 y e Hz).
    + by rewrite Hz.
  - cbn. rewrite <- IH. destruct (mapM f1 l) as [e'|ys]; [done|]. cbn. by rewrite Hz.
Qed.

Lemma linear_row_only (l : Linear) (x : list R) (e : exn) :
  linear_row l x = raise e → e = RuntimeError.
Proof. unfold linear_row. case_decide; [done|]. by intros [= <-]. Qed.

Lemma ff_row_only (self : FFN) (x : list R) (e : exn) :
  ff_row self x = raise e → e = RuntimeError.
Proof.
  unfold ff_row. destruct (linear_row (lin1 self) x) as [e'|y] eqn:Hy.
  - intros [= <-]. by apply linear_row_only in Hy.
  - cbn. apply linear_row_only.
Qed.

(** [ff_chunk] without dropout works position by position. *)
Lemma ff_chunk_rows (self : FFN) (t : tensor) :
  (∀ x, dropout self x = x) → ff_chunk self t = mapM (mapM (ff_row self)) t.
Proof.
  intros Heval. unfold ff_chunk, linear.
  transitivity (mapM (mapM (linear_row (lin1 self))) t
                ≫= mapM (mapM (λ y, linear_row (lin2 self) (activation self <$> y)))).
  { destruct (mapM (mapM (linear_row (lin1 self))) t) as [e|x]; [done|]. cbn.
    rewrite mapM_fmap. erewrite mapM_ext; [|intros xb; apply mapM_fmap].
    destruct (mapM _ x) as [e|y]; [done|]. cbn. by rewrite Heval. }
  rewrite (mapM_bind RuntimeError).
  - apply mapM_ext. intros xb. apply (mapM_bind RuntimeError).
    + apply linear_row_only.
    + intros y e. apply linear_row_only.
  - intros xb e. apply mapM_only, linear_row_only.
  - intros yb e. apply mapM_only. intros y e'. apply linear_row_only.
Qed.

Lemma mapM_raise_inv {X Y} (f : X → result Y) (l : list X) (e : exn) :
  mapM f l = raise e → ∃ i x, l !! i = Some x ∧ f x = raise e.
Proof.
  induction l as [|x l IH]; [done|].
  cbn. destruct (f x) as [e'|y] eqn:Hy.
  { intros [= <-]. by exists 0%nat, x. }
  cbn. destruct (mapM f l) as [e'|ys]; [|done]. intros [= <-].
  destruct (IH eq_refl) as (i & x' & Hi & Hx'). by exists (S i), x'.
Qed.

Lemma chunk_split (n c : nat) (t : tensor) :
  n ≠ 0%nat → c ≠ 0%nat → size1 t = (n * c)%nat →
  chunk n t = ret (split_positions c n t).
Proof.
  intros Hn Hc HL. unfold chunk. rewrite decide_False by done. rewrite HL.
  assert (((n * c + n - 1) / n)%nat = c) as ->.
  { replace (n * c + n - 1)%nat with (c * n + (n - 1))%nat by lia.
    rewrite Nat.div_add_l by done. rewrite Nat.div_small by lia. lia. }
  rewrite decide_False by done.
  assert (((n * c + c - 1) / c)%nat = n) as ->.
  { replace (n * c + c - 1)%nat with (n * c + (c - 1))%nat by lia.
    rewrite Nat.div_add_l by done. rewrite Nat.div_small by lia. lia. }
  done.
Qed.

Lemma join_pieces {X} (c n : nat) (l : list X) :
  length l = (n * c)%nat → mjoin ((λ j, take c (drop (j * c) l)) <$> seq 0 n) = l.
Proof.
  revert l. induction n as [|n IH]; intros l Hl.
  { destruct l; [done|]. cbn in Hl. lia. }
  cbn [seq]. rewrite <- fmap_S_seq, fmap_cons, <- list_fmap_compose.
  change (mjoin (?x :: ?k)) with (x ++ mjoin k).
  transitivity (take c l ++ drop c l); [|apply take_drop]. f_equal.
  rewrite <- (IH (drop c l)) by (rewrite length_drop; lia).
  f_equal. apply list_fmap_ext. intros _ j _. cbn. rewrite drop_drop. by f_equal.
Qed.

Lemma omap_fmap_Some {X Y Z} (h : Y → option Z) (g : X → Y) (k : X → Z) (l : list X) :
  (∀ x, h (g x) = Some (k x)) → omap h (g <$> l) = k <$> l.
Proof.
  intros Hk. induction l as [|x l IH]; [done|]. cbn. by rewrite Hk, IH.
Qed.

(** Joining the pieces gives the tensor back. *)
Lemma cat_split (c n : nat) (r : tensor) :
  n ≠ 0%nat → Forall (λ yb, length yb = (n * c)%nat) r →
  cat (split_positions c n r) = ret r.
Proof.
  intros Hn Hrect. unfold cat.
  destruct (split_positions c n r) as [|first rest] eqn:Hsplit.
  { by destruct n. }
  assert (length first = length r) as ->.
  { destruct n; [done|]. injection Hsplit as <- _. by rewrite length_fmap. }
  rewrite <- Hsplit. clear Hsplit. f_equal. apply list_eq. intros b.
  unfold transpose, split_positions.
  rewrite !list_lookup_fmap. destruct (r !! b) as [yb|] eqn:Hb.
  - rewrite lookup_seq_lt by (by eapply lookup_lt_Some).
    cbn [fmap option_fmap option_map Nat.add]. f_equal.
    rewrite (omap_fmap_Some _ _ (λ j, take c (drop (j * c) yb))).
    + apply join_pieces. exact (Forall_lookup_1 _ _ _ _ Hrect Hb).
    + intros j. by rewrite list_lookup_fmap, Hb.
  - rewrite lookup_seq_ge; [done|]. by apply lookup_ge_None.
Qed.

(** A position-by-position computation on the pieces, then joined, is the
    computation on the tensor. *)
Lemma rows_by_pieces (e0 : exn) (f : list R → result (list R)) (c n : nat) (t : tensor) :
  (∀ x e, f x = raise e → e = e0) →
  n ≠ 0%nat → c ≠ 0%nat → Forall (λ xb, length xb = (n * c)%nat) t →
  mapM (mapM (mapM f)) (split_positions c n t) ≫= cat = mapM (mapM f) t.
Proof.
  intros Hf Hn Hc Hrect. destruct (mapM (mapM f) t) as [e|r] eqn:Hrun.
  - assert (e = e0) as -> by (eapply mapM_only; [|exact Hrun]; intros xb e'; by apply mapM_only).
    destruct (mapM_raise_inv _ _ _ Hrun) as (b & xb & Hb & Hxb).
    destruct (mapM_raise_inv _ _ _ Hxb) as (p & x & Hp & Hx).
    pose proof (Forall_lookup_1 _ _ _ _ Hrect Hb) as Hlen. cbn beta in Hlen.
    pose proof (lookup_lt_Some _ _ _ Hp) as Hlt. rewrite Hlen in Hlt.
    rewrite (mapM_raises _ _ e0 ((λ xb : list (list R),
               take c (drop (p / c * c) xb)) <$> t)); [done| | |].
    + unfold split_positions. apply list_elem_of_fmap. exists (p / c)%nat. split; [done|].
      apply elem_of_seq. split; [lia|]. cbn. apply Nat.Div0.div_lt_upper_bound. lia.
    + apply (mapM_raises _ _ e0 (take c (drop (p / c * c) xb))).
      * apply list_elem_of_fmap. exists xb. split; [done|]. by eapply list_elem_of_lookup_2.
      * apply (mapM_raises _ _ e0 x); [|done|by intros ?? _; apply Hf].
        apply (list_elem_of_lookup_2 _ (p mod c)).
        rewrite lookup_take_lt by (apply Nat.mod_upper_bound; lia).
        rewrite lookup_drop. rewrite <- Hp. f_equal.
        rewrite (Nat.div_mod_eq p c) at 3. lia.
      * intros yb e' _. apply mapM_only, Hf.
    + intros ch e' _. apply mapM_only. intros yb e''. apply mapM_only, Hf.
  - apply mapM_Forall2 in Hrun.
    assert (Hsplit : mapM (mapM (mapM f)) (split_positions c n t)
                     = ret (split_positions c n r)).
    { apply mapM_Forall2. unfold split_positions.
      apply Forall2_fmap, Forall_Forall2_diag, Forall_forall. intros j _.
      apply mapM_Forall2, Forall2_fmap.
      eapply Forall2_impl; [exact Hrun|]. intros xb yb Hxb. cbn.
      apply mapM_Forall2. apply mapM_Forall2 in Hxb.
      by apply Forall2_take, Forall2_drop. }
    rewrite Hsplit, bind_inr. apply cat_split; [done|].
    apply Forall_lookup_2. intros b yb Hb.
    destruct (Forall2_lookup_r _ _ _ _ _ Hrun Hb) as (xb & Hxb & Hrows).
    rewrite (mapM_length _ _ _ Hrows).
    exact (Forall_lookup_1 _ _ _ _ Hrect Hxb).
Qed.

(** X30: without dropout, a positive [chunk_size_feed_forward] that
    divides the length of the sequences does not change what [FFN.forward]
    computes: the result, or the exception, is that of [ff_chunk] on the
    whole input. *)
Theorem chunking_keeps_output (not_a_multiple : exn) (self : FFN) (input : tensor) :
  (∀ x, dropout self x = x) →
  (0 < chunk_size_feed_forward self)%Z →
  (0 < size1 input)%nat →
  (Z.of_nat (size1 input) mod chunk_size_feed_forward self = 0)%Z →
  Forall (λ xb, length xb = size1 input) input →
  forward not_a_multiple self input = ff_chunk self input.
Proof.
  intros Heval Hpos HL Hmod Hrect. unfold forward, apply_chunking_to_forward.
  rewrite !decide_True by done.
  set (c := Z.to_nat (chunk_size_feed_forward self)).
  set (n := Z.to_nat (Z.of_nat (size1 input) / chunk_size_feed_forward self)).
  assert (Hsize : size1 input = (n * c)%nat).
  { unfold n, c. apply Z.div_exact in Hmod; [|lia].
    assert (0 <= Z.of_nat (size1 input) / chunk_size_feed_forward self)%Z
      by (apply Z.div_pos; lia).
    nia. }
  assert (Hc : c ≠ 0%nat) by (unfold c; lia).
  assert (Hn : n ≠ 0%nat) by (intros Hz; rewrite Hz in Hsize; lia).
  rewrite (chunk_split n c input Hn Hc Hsize), bind_inr.
  rewrite (mapM_ext _ (mapM (mapM (ff_row self))))
    by (intros t; by apply ff_chunk_rows).
  rewrite (rows_by_pieces RuntimeError); [by rewrite ff_chunk_rows| |done|done|].
  - apply ff_row_only.
  - by rewrite <- Hsize.
Qed.

Lemma chunking_keeps_output_witness :
  forward AssertionError Samples.one_by_one Samples.two_positions
  = ff_chunk Samples.one_by_one Samples.two_positions.
Proof.
  apply (chunking_keeps_output AssertionError Samples.one_by_one Samples.two_positions).
  - done.
  - done.
  - cbn. lia.
  - done.
  - by repeat constructor.
Defined.

End FeedForwardLaws.
